(** * Audio pacing, capture and mixing engine of [cli_backup.js]

    A shallow embedding of the numeric core of the command-line client:
    downmix to mono, linear-interpolation resampling to 48 kHz, 10 ms frame
    pacing, the completion watcher on the control channel and the timeline
    mixer, together with the properties of these components.

    Modelling conventions.
    - A JavaScript Number that may hold a fraction is a binary64 [float]
      (the kernel's primitive floats: the same IEEE 754 arithmetic, rounding
      to nearest, ties to even).
    - Numbers that are loop counters, lengths, indices or 16-bit samples are
      integers far below 2^53, where Number arithmetic is exact: they are [Z].
    - An [Int16Array] is a [list Z]; a [Buffer] is a list of bytes, each a [Z]
      in [0, 256).  Reading outside a typed array gives [undefined] and
      writing outside it is ignored, as in the language.
    - A BigInt is a [Z]. *)

From stdpp Require Import base list gmap strings.
From Stdlib Require Import ZArith Lia Floats QArith Qpower Lqa Qround.

Open Scope Z_scope.

(* ===================================================================== *)
(** ** Numbers, [Math] and typed-array conversions                        *)
(* ===================================================================== *)

Module JS.

(** [Number(z)] for an integer or BigInt [z]: the nearest binary64 value
    (exact when [|z| <= 2^53]). *)
Definition Number (z : Z) : float :=
  SF2Prim (binary_normalize prec emax z 0 false).

(** The integer part of a Number, truncated toward zero; [NaN] and the
    infinities give 0 (the language's [ToIntegerOrInfinity] followed by the
    modular conversions maps all three to 0). *)
Definition IntegerValue (x : float) : Z :=
  match Prim2SF x with
  | S754_finite s m e =>
      cond_Zopp s (if 0 <=? e then Z.pos m * 2 ^ e else Z.pos m / 2 ^ (- e))
  | _ => 0
  end.

(** [Math.floor]: the largest integer not above [x]; zeros, [NaN], the
    infinities and the Numbers with no fractional bit are returned as they
    are. *)
Definition Math_floor (x : float) : float :=
  match Prim2SF x with
  | S754_finite s m e =>
      if 0 <=? e then x else Number (cond_Zopp s (Z.pos m) / 2 ^ (- e))
  | _ => x
  end.

(** [Math.round]: the integer nearest to [x], a tie going toward +infinity,
    that is [floor (x + 1/2)] computed exactly.  (For [x] in [-0.5, 0) the
    language returns the negative zero; the sign of a zero is not observed
    by any later step, and the model returns the positive zero.) *)
Definition Math_round (x : float) : float :=
  match Prim2SF x with
  | S754_finite s m e =>
      if 0 <=? e then x
      else Number ((2 * cond_Zopp s (Z.pos m) + 2 ^ (- e)) / 2 ^ (1 - e))
  | _ => x
  end.

(** [Math.min] and [Math.max] on Numbers: [NaN] if either argument is. *)
Definition Math_min (x y : float) : float :=
  if (is_nan x || is_nan y)%bool then nan
  else if (x <? y)%float then x
  else if (y <? x)%float then y
  else if get_sign x then x else y.

Definition Math_max (x y : float) : float :=
  if (is_nan x || is_nan y)%bool then nan
  else if (y <? x)%float then x
  else if (x <? y)%float then y
  else if get_sign x then y else x.

(** Signed 16-bit wrap-around of an integer ([ToInt16] on an integral
    Number). *)
Definition wrap16 (z : Z) : Z :=
  let r := z mod 65536 in
  if r <? 32768 then r else r - 65536.

(** [ToInt16]: what storing a Number into an [Int16Array] element keeps. *)
Definition ToInt16 (x : float) : Z := wrap16 (IntegerValue x).

(** The length of [new Int16Array(n)] for a Number [n] that is not negative
    and not infinite ([NaN] gives 0). *)
Definition ArrayLength (n : float) : nat := Z.to_nat (IntegerValue n).

(** [Math.max(-32768, Math.min(32767, z))] on an integral Number. *)
Definition clamp16 (z : Z) : Z := Z.max (-32768) (Z.min 32767 z).

(** The values an [Int16Array] element can hold. *)
Definition int16 (z : Z) : Prop := -32768 <= z <= 32767.

(** [a[j]] on a typed array for an integral Number [j]: [None] is
    [undefined]. *)
Definition getIdx (a : list Z) (j : Z) : option Z :=
  if j <? 0 then None else a !! Z.to_nat j.

(** [a[j] = v] on an [Int16Array] for integral Numbers [j] and [v]: ignored
    outside the array. *)
Definition setIdx (a : list Z) (j : Z) (v : Z) : list Z :=
  if j <? 0 then a else <[Z.to_nat j := wrap16 v]> a.

End JS.

Import JS.

(* ===================================================================== *)
(** ** PCM bytes                                                          *)
(* ===================================================================== *)

Module Pcm.

(** [buf.writeInt16LE(v, off)]: the two bytes stored for a 16-bit [v]. *)
Definition writeInt16LE (v : Z) : list Z :=
  [Z.land v 255; Z.land (Z.shiftr v 8) 255].

(** The signed 16-bit value of a little-endian byte pair. *)
Definition int16_of_bytes (lo hi : Z) : Z :=
  wrap16 (Z.lor lo (Z.shiftl hi 8)).

(** [buf.readInt16LE(off)]: [None] is the [RangeError] raised when the two
    bytes are not both inside the buffer. *)
Definition readInt16LE (buffer : list Z) (offset : Z) : option Z :=
  if offset <? 0 then None
  else
    lo ← buffer !! Z.to_nat offset;
    hi ← buffer !! S (Z.to_nat offset);
    Some (int16_of_bytes lo hi).

(** The binary32 value with bit pattern [w], as a Number (every binary32
    value is a binary64 value, so the conversion is exact). *)
Definition float_of_bits32 (w : Z) : float :=
  let s := Z.testbit w 31 in
  let e := Z.land (Z.shiftr w 23) 255 in
  let m := Z.land w 8388607 in
  if e =? 255 then
    if m =? 0 then (if s then neg_infinity else infinity) else nan
  else if e =? 0 then
    SF2Prim (binary_normalize prec emax (cond_Zopp s m) (-149) s)
  else
    SF2Prim (binary_normalize prec emax (cond_Zopp s (8388608 + m)) (e - 150) s).

(** [buf.readFloatLE(off)]. *)
Definition readFloatLE (buffer : list Z) (offset : Z) : option float :=
  if offset <? 0 then None
  else
    b0 ← buffer !! Z.to_nat offset;
    b1 ← buffer !! (Z.to_nat offset + 1)%nat;
    b2 ← buffer !! (Z.to_nat offset + 2)%nat;
    b3 ← buffer !! (Z.to_nat offset + 3)%nat;
    Some (float_of_bits32 (b0 + 256 * b1 + 65536 * b2 + 16777216 * b3)).

(** An [Int16Array] laid over a byte sequence (little-endian host): one
    element per byte pair. *)
Fixpoint Int16Array_of_bytes (bytes : list Z) : list Z :=
  match bytes with
  | lo :: hi :: rest => int16_of_bytes lo hi :: Int16Array_of_bytes rest
  | _ => []
  end.

(** Lines 96-99: [inputPcm], the resampled samples written out as bytes. *)
Definition inputPcm (resampled : list Z) : list Z :=
  flat_map writeInt16LE resampled.

End Pcm.

Import Pcm.

(* ===================================================================== *)
(** ** Downmix to mono (lines 58-75)                                      *)
(* ===================================================================== *)

Module Downmix.

(** The fields of the WAV format chunk the program uses. *)
Record Format := { sampleRate : Z; bitDepth : Z; channels : Z }.

(** [bitDepth / 8], for depths that are whole bytes. *)
Definition bytesPerSample (fmt : Format) : Z := bitDepth fmt / 8.

(** Lines 69-71: one channel's sample, decoded by bit depth. *)
Definition channelSample (fmt : Format) (buffer : list Z) (offset : Z)
  : option float :=
  if bitDepth fmt =? 32 then
    x ← readFloatLE buffer offset;
    Some (Math_round (Math_max (-1) (Math_min 1 x) * 32767)%float)
  else
    z ← readInt16LE buffer offset;
    Some (Number z).

(** Lines 66-73: the accumulator after the channels [cs] of frame [i],
    started at [acc]; [None] when a read raises. *)
Definition accumulate (fmt : Format) (buffer : list Z) (i : Z)
  (acc : float) (cs : list Z) : option float :=
  foldl (fun a c =>
           a' ← a;
           s ← channelSample fmt buffer ((i * channels fmt + c) * bytesPerSample fmt);
           Some (a' + s)%float)
        (Some acc) cs.

(** Line 74: the element stored for frame [i]. *)
Definition downmixFrame (fmt : Format) (buffer : list Z) (i : Z) : option Z :=
  acc ← accumulate fmt buffer i 0%float (seqZ 0 (channels fmt));
  Some (ToInt16 (Math_round (acc / Number (channels fmt))%float)).

(** Lines 62-75.  [totalFrames] is the quotient of the byte count by the
    frame size; the loop runs for every [i] below it, and the array keeps
    its whole part.  [None] stands for a raised [RangeError]. *)
Definition downmix (fmt : Format) (buffer : list Z) : option (list Z) :=
  let len := Z.of_nat (length buffer) in
  let frameBytes := bytesPerSample fmt * channels fmt in
  if frameBytes =? 0 then (if len =? 0 then Some [] else None)
  else
    all ← mapM (downmixFrame fmt buffer) (seqZ 0 ((len + frameBytes - 1) / frameBytes));
    Some (take (Z.to_nat (len / frameBytes)) all).

(** The channel samples of frame [i], in channel order. *)
Definition channelValues (fmt : Format) (buffer : list Z) (i : Z)
  : option (list float) :=
  mapM (fun c => channelSample fmt buffer ((i * channels fmt + c) * bytesPerSample fmt))
       (seqZ 0 (channels fmt)).

(** The running sum [acc += sample], from [acc]. *)
Definition sumFrom (acc : float) (vals : list float) : float :=
  foldl (fun a s => (a + s)%float) acc vals.

End Downmix.

(* ===================================================================== *)
(** ** Resampler (lines 77-93)                                            *)
(* ===================================================================== *)

Module Resampler.

Definition targetRate : Z := 48000.

(** [samples[j]] as an operand of Number arithmetic, for an integral Number
    [j]: an element, or [NaN] for [undefined]. *)
Definition sampleAt (samples : list Z) (j : float) : float :=
  if is_finite j then
    match getIdx samples (IntegerValue j) with
    | Some s => Number s
    | None => nan
    end
  else nan.

(** Lines 85-89: the Number stored into [resampled[i]]. *)
Definition interpolate (samples : list Z) (ratio : float) (i : Z) : float :=
  let idx := (Number i / ratio)%float in
  let i0 := Math_floor idx in
  let i1 := Math_min (i0 + 1)%float (Number (Z.of_nat (length samples) - 1)) in
  let frac := (idx - i0)%float in
  Math_round (sampleAt samples i0 * (1 - frac) + sampleAt samples i1 * frac)%float.

(** Line 82: [newLen]. *)
Definition newLen (origSampleRate : Z) (len : nat) : float :=
  let ratio := (Number targetRate / Number origSampleRate)%float in
  Math_floor (Number (Z.of_nat len) * ratio)%float.

(** Lines 80-93: [resampled] from the source rate and the mono samples. *)
Definition resample (origSampleRate : Z) (samples : list Z) : list Z :=
  if origSampleRate =? targetRate then samples
  else
    let ratio := (Number targetRate / Number origSampleRate)%float in
    map (fun i => ToInt16 (interpolate samples ratio i))
        (seqZ 0 (Z.of_nat (ArrayLength (newLen origSampleRate (length samples))))).

(** The output length as the specification's testable property gives it:
    the exact integer quotient. *)
Definition exact_length (origSampleRate : Z) (len : nat) : Z :=
  Z.of_nat len * targetRate / origSampleRate.

End Resampler.

Import Resampler.

(* ===================================================================== *)
(** ** Frame pacer (lines 101-103 and 160-172)                            *)
(* ===================================================================== *)

Module Pacer.

Definition sampleRate : Z := targetRate.
Definition frameSize : Z := sampleRate / 100.

(** [buf.slice(start, stop)] for [0 <= start <= stop]: the bytes from
    [start] up to [stop], or up to the end of the buffer if that comes
    first. *)
Definition slice (buf : list Z) (start stop : Z) : list Z :=
  take (Z.to_nat (stop - start)) (drop (Z.to_nat start) buf).

(** Lines 163-169: the frame built at byte offset [off], for a frame of
    [frameSize] samples ([frameBytes = frameSize * 2]). *)
Definition frameAt (frameSize : Z) (inputPcm : list Z) (off : Z) : list Z :=
  let frameBytes := frameSize * 2 in
  let chunk := slice inputPcm off (off + frameBytes) in
  let chunk :=
    if Z.of_nat (length chunk) <? frameBytes
    then chunk ++ replicate (Z.to_nat (frameBytes - Z.of_nat (length chunk))) 0
    else chunk in
  take (Z.to_nat frameSize) (Int16Array_of_bytes chunk).

(** Lines 162-172: the frames handed to [source.onData], in the order they
    are sent, from byte offset [off] on.  The loop advances by [frameBytes]
    until [off] reaches the end of the buffer; [fuel] bounds the number of
    iterations. *)
Fixpoint sendLoop (fuel : nat) (frameSize : Z) (inputPcm : list Z) (off : Z)
  : list (list Z) :=
  match fuel with
  | O => []
  | S fuel' =>
      if off <? Z.of_nat (length inputPcm) then
        frameAt frameSize inputPcm off
          :: sendLoop fuel' frameSize inputPcm (off + frameSize * 2)
      else []
  end.

(** The whole loop, started at offset 0.  Every iteration moves [off]
    forward by at least one byte, so the byte count is enough fuel. *)
Definition sentFrames (frameSize : Z) (inputPcm : list Z) : list (list Z) :=
  sendLoop (length inputPcm) frameSize inputPcm 0.

(** The frames the program sends for the resampled input. *)
Definition pace (resampled : list Z) : list (list Z) :=
  sentFrames frameSize (inputPcm resampled).

(** [ceil (a / b)] for [b > 0]. *)
Definition ceil_div (a b : Z) : Z := (a + b - 1) / b.

End Pacer.

(* ===================================================================== *)
(** ** Completion watcher (lines 129 and 138-142)                         *)
(* ===================================================================== *)

Module Watcher.

(** The values [JSON.parse] returns. *)
#[warnings="-register-all"]
Inductive JSON :=
| JNull
| JBool (b : bool)
| JNumber (x : float)
| JString (s : string)
| JArray (items : list JSON)
| JObject (fields : gmap string JSON).

(** [m.type]: the outer [None] is the [TypeError] raised on [null], the
    inner [None] is [undefined]. *)
Definition get_type (m : JSON) : option (option JSON) :=
  match m with
  | JNull => None
  | JObject fields => Some (fields !! "type"%string)
  | _ => Some None
  end.

(** [v === "response.done"]. *)
Definition is_response_done (v : option JSON) : bool :=
  match v with
  | Some (JString s) => bool_decide (s = "response.done"%string)
  | _ => false
  end.

(** Lines 139-142: the handler, on the flag [done] and the parsed message
    [m]; it returns the new value of the flag. *)
Definition onmessage (done : bool) (m : JSON) : option bool :=
  ty ← get_type m;
  Some (if is_response_done ty then true else done).





(** The message carries the completion tag in its [type] field. *)
Definition completes (m : JSON) : bool :=
  match get_type m with
  | Some ty => is_response_done ty
  | None => false
  end.

End Watcher.

(* ===================================================================== *)
(** ** Timeline mixer (lines 181-202)                                     *)
(* ===================================================================== *)

Module Mixer.

(** An element of [gptBuffers]: the copied samples and the arrival time,
    [process.hrtime.bigint()] in nanoseconds. *)
Record GptBuffer := { samples : list Z; time : Z }.

Definition sampleRate : Z := targetRate.

(** Lines 186-187: the offset in samples of a buffer that arrived at
    [time], for a stream started at [startTime]. *)
Definition offsetOf (startTime time : Z) : Z :=
  let delta := (Number (time - startTime) / 1000000)%float in
  IntegerValue (Math_round ((delta * Number sampleRate) / 1000)%float).

Definition offsets (startTime : Z) (gptBuffers : list GptBuffer) : list Z :=
  map (fun b => offsetOf startTime (time b)) gptBuffers.

(** Lines 189-192: [maxIndex] after the first [forEach], from its initial
    value; each buffer comes with its offset. *)
Definition maxIndex (init : Z) (placed : list (GptBuffer * Z)) : Z :=
  foldl (fun mx bp => Z.max mx (bp.2 + Z.of_nat (length (samples bp.1))))
        init placed.

(** [x || 0] for an element read [x]. *)
Definition orZero (x : option Z) : Z :=
  match x with
  | Some v => if v =? 0 then 0 else v
  | None => 0
  end.

(** Lines 198-200: one step of the inner loop. *)
Definition mixSample (out : list Z) (j : Z) (s : Z) : list Z :=
  let sum := orZero (getIdx out j) + s in
  setIdx out j (Z.max (-32768) (Z.min 32767 sum)).

(** Lines 197-201: the inner loop from index [i] on, over the samples not
    yet added. *)
Fixpoint mixFrom (out : list Z) (pos i : Z) (rest : list Z) : list Z :=
  match rest with
  | [] => out
  | s :: rest' => mixFrom (mixSample out (pos + i) s) pos (i + 1) rest'
  end.

Definition mixBuffer (out : list Z) (pos : Z) (buf : list Z) : list Z :=
  mixFrom out pos 0 buf.

(** [target.set(source)]: [None] is the [RangeError] raised when the source
    is longer than the target. *)
Definition TypedArray_set (target source : list Z) : option (list Z) :=
  if (length target <? length source)%nat then None
  else Some (source ++ drop (length source) target).

(** Lines 195-202: the second [forEach]. *)
Definition mixAll (out : list Z) (placed : list (GptBuffer * Z)) : list Z :=
  foldl (fun o bp => mixBuffer o bp.2 (samples bp.1)) out placed.

(** Lines 182-202 once the offsets are known: [outputSamples] from the
    sent bytes and the buffers, each with its offset. *)
Definition mixPlaced (inputPcm : list Z) (placed : list (GptBuffer * Z))
  : option (list Z) :=
  let inputSamples := Int16Array_of_bytes inputPcm in
  let mx := maxIndex (Z.of_nat (length inputSamples)) placed in
  let outputSamples := replicate (Z.to_nat mx) 0 in
  outputSamples ← TypedArray_set outputSamples inputSamples;
  Some (mixAll outputSamples placed).

(** Lines 182-202: [outputSamples] from the sent bytes, the start time and
    the captured buffers. *)
Definition mixer (inputPcm : list Z) (startTime : Z)
  (gptBuffers : list GptBuffer) : option (list Z) :=
  mixPlaced inputPcm (zip gptBuffers (offsets startTime gptBuffers)).

End Mixer.

(* ===================================================================== *)
(** ** Command-line arguments (lines 15-35)                               *)
(* ===================================================================== *)

Module Args.

(** What the argument parser leaves under an option declared as a string:
    nothing, a string, [false] (for [--no-input]), or the array of the
    values of a repeated option. *)
#[warnings="-register-all"]
Inductive Value :=
| VUndefined
| VBool (b : bool)
| VString (s : string)
| VArray (items : list Value).

(** [ToBoolean]. *)
Definition truthy (v : Value) : bool :=
  match v with
  | VUndefined => false
  | VBool b => b
  | VString s => negb (bool_decide (s = ""%string))
  | VArray _ => true
  end.

(** [a || b]. *)
Definition or_else (a b : Value) : Value := if truthy a then a else b.

(** [raw[raw.length - 1]]: [undefined] on an empty array. *)
Definition last_item (items : list Value) : Value :=
  default VUndefined (last items).

(** Line 22. *)
Definition inputPath (inputRaw : Value) : Value :=
  match inputRaw with
  | VArray items => last_item items
  | _ => inputRaw
  end.

(** Line 26: the conditional operator binds looser than [||], so the
    default applies to the branch of a value that is not an array. *)
Definition outputPath (outputRaw : Value) : Value :=
  match outputRaw with
  | VArray items => last_item items
  | _ => or_else outputRaw (VString "combined.wav")
  end.

(** Line 28. *)
Definition model (modelRaw : Value) : Value :=
  or_else modelRaw (VString "gpt-4o-realtime-preview-2024-12-17").

Record Options := { input : Value; output : Value; model_name : Value }.

(** Lines 20-35: the options the program goes on with; [None] is the
    usage message and [process.exit(1)]. *)
Definition parse (inputRaw outputRaw modelRaw : Value) : option Options :=
  let inputPath := inputPath inputRaw in
  if negb (truthy inputPath) then None
  else Some {| input := inputPath;
               output := outputPath outputRaw;
               model_name := model modelRaw |}.

End Args.

(* ===================================================================== *)
(** ** Session token (lines 105-121)                                      *)
(* ===================================================================== *)

Module Session.

Import Watcher.

(** How a step of the start-up ends. *)
Inductive Outcome (A : Type) :=
| Raise
| Exit (status : Z)
| Continue (a : A).
Arguments Raise {A}.
Arguments Exit {A} status.
Arguments Continue {A} a.

(** [ToBoolean] of a parsed JSON value. *)
Definition truthy (v : JSON) : bool :=
  match v with
  | JNull => false
  | JBool b => b
  | JNumber x => negb ((x =? 0)%float || is_nan x)
  | JString s => negb (bool_decide (s = ""%string))
  | JArray _ | JObject _ => true
  end.

(** [v.key]: the outer [None] is the [TypeError] raised on [null], the
    inner [None] is [undefined]. *)
Definition get (v : JSON) (key : string) : option (option JSON) :=
  match v with
  | JNull => None
  | JObject fields => Some (fields !! key)
  | _ => Some None
  end.

(** [tokData.client_secret?.value]. *)
Definition secret_value (tokData : JSON) : option (option JSON) :=
  secret ← get tokData "client_secret";
  match secret with
  | None | Some JNull => Some None
  | Some s => get s "value"
  end.

(** Lines 116-121: the token taken from the reply. *)
Definition token (tokData : JSON) : Outcome JSON :=
  match secret_value tokData with
  | None => Raise
  | Some None => Exit 1
  | Some (Some v) => if truthy v then Continue v else Exit 1
  end.

End Session.

(* ===================================================================== *)
(** * Properties                                                          *)
(* ===================================================================== *)

(** ** 16-bit values and their bytes *)

Section Int16Facts.

Lemma wrap16_id (z : Z) : int16 z -> wrap16 z = z.
Proof.
  unfold int16, wrap16. intros Hz.
  destruct (Z_lt_le_dec z 0) as [Hneg | Hpos].
  - replace (z mod 65536) with (z + 65536)
      by (apply (Z.mod_unique _ _ (-1)); lia).
    destruct (Z.ltb_spec (z + 65536) 32768); lia.
  - rewrite Z.mod_small by lia.
    destruct (Z.ltb_spec z 32768); lia.
Qed.

Lemma wrap16_int16 (z : Z) : int16 (wrap16 z).
Proof.
  unfold int16, wrap16.
  pose proof (Z.mod_pos_bound z 65536 ltac:(lia)).
  destruct (Z.ltb_spec (z mod 65536) 32768); lia.
Qed.

Lemma clamp16_int16 (z : Z) : int16 (clamp16 z).
Proof. unfold int16, clamp16. lia. Qed.

Lemma clamp16_id (z : Z) : int16 z -> clamp16 z = z.
Proof. unfold int16, clamp16. lia. Qed.


Lemma clamp16_low (z : Z) : z <= -32768 -> clamp16 z = -32768.
Proof. unfold clamp16. lia. Qed.

(** [p] holds on the [count] integers from [start] on. *)
Fixpoint holds_from (p : Z -> bool) (start : Z) (count : nat) : bool :=
  match count with
  | O => true
  | S count' => p start && holds_from p (start + 1) count'
  end.

Lemma holds_from_spec (p : Z -> bool) (count : nat) :
  forall start, holds_from p start count = true ->
  forall v, start <= v < start + Z.of_nat count -> p v = true.
Proof.
  induction count as [| count IH]; intros start H v Hv; [lia |].
  simpl in H. apply andb_prop in H as [Hhere Hrest].
  destruct (Z.eq_dec v start) as [-> | Hne]; [exact Hhere |].
  apply (IH (start + 1) Hrest). lia.
Qed.

(** Every 16-bit value is read back from the two bytes written for it;
    checked on each of the 65536 values. *)
Lemma bytes_roundtrip_all :
  holds_from (fun v => match writeInt16LE v with
                       | [lo; hi] => int16_of_bytes lo hi =? v
                       | _ => false
                       end)
             (-32768) (Z.to_nat 65536) = true.
Proof. vm_compute. reflexivity. Qed.

Lemma bytes_roundtrip (v : Z) :
  int16 v ->
  int16_of_bytes (Z.land v 255) (Z.land (Z.shiftr v 8) 255) = v.
Proof.
  intros Hv.
  pose proof (holds_from_spec _ _ _ bytes_roundtrip_all v) as Hall.
  unfold writeInt16LE in Hall. apply Z.eqb_eq, Hall.
  rewrite Z2Nat.id by discriminate. unfold int16 in Hv. lia.
Qed.

Lemma length_inputPcm (xs : list Z) :
  length (inputPcm xs) = (2 * length xs)%nat.
Proof.
  unfold inputPcm. induction xs as [| x xs IH]; simpl; [reflexivity | lia].
Qed.

Lemma inputPcm_app (xs ys : list Z) :
  inputPcm (xs ++ ys) = inputPcm xs ++ inputPcm ys.
Proof. unfold inputPcm. apply flat_map_app. Qed.

Lemma inputPcm_zeros (n : nat) :
  inputPcm (replicate n 0) = replicate (2 * n) 0.
Proof.
  unfold inputPcm. induction n as [| n IH]; [reflexivity |].
  replace (2 * S n)%nat with (S (S (2 * n))) by lia.
  simpl replicate. simpl flat_map. rewrite IH. reflexivity.
Qed.

(** The samples laid over their own bytes are the samples. *)
Lemma view_inputPcm (xs : list Z) :
  Forall int16 xs -> Int16Array_of_bytes (inputPcm xs) = xs.
Proof.
  unfold inputPcm. induction 1 as [| x xs Hx _ IH]; [reflexivity |].
  simpl. rewrite bytes_roundtrip by assumption. f_equal. exact IH.
Qed.

Lemma Forall_int16_zeros (n : nat) : Forall int16 (replicate n 0).
Proof. apply Forall_replicate. unfold int16. lia. Qed.

End Int16Facts.

(** ** Resampler *)

Section ResamplerFacts.

Lemma Number_0 : Prim2SF (Number 0) = S754_zero false.
Proof. reflexivity. Qed.

(** The product of the Number 0 with any Number is a zero or [NaN]. *)
Lemma zero_mul_not_finite (r : float) :
  match Prim2SF (Number 0 * r)%float with
  | S754_finite _ _ _ => False
  | S754_infinity _ => False
  | _ => True
  end.
Proof.
  rewrite mul_spec, Number_0.
  destruct (Prim2SF r); simpl; exact I.
Qed.

Lemma newLen_empty (origSampleRate : Z) :
  ArrayLength (newLen origSampleRate 0) = 0%nat.
Proof.
  unfold newLen, ArrayLength. change (Z.of_nat 0) with 0.
  set (r := (Number targetRate / Number origSampleRate)%float).
  pose proof (zero_mul_not_finite r) as H.
  unfold Math_floor, IntegerValue.
  destruct (Prim2SF (Number 0 * r)%float) eqn:E; try contradiction;
    cbv beta iota; rewrite E; reflexivity.
Qed.

Lemma length_resample (origSampleRate : Z) (samples : list Z) :
  length (resample origSampleRate samples)
  = if origSampleRate =? targetRate then length samples
    else ArrayLength (newLen origSampleRate (length samples)).
Proof.
  unfold resample. destruct (origSampleRate =? targetRate); [reflexivity |].
  rewrite length_map, length_seqZ. lia.
Qed.

End ResamplerFacts.


(* ===================================================================== *)
(** ** Rounding in binary64                                               *)
(* ===================================================================== *)

(** The arithmetic of the primitive floats is specified on [spec_float]
    by the standard library ([mul_spec], [add_spec], [sub_spec]); this
    section bounds the distance between the result of an operation and the
    exact result, which is what the resampler needs. *)

Section Binary64.

(** The number of binary digits of a mantissa. *)
Lemma digits2_pos_bounds (m : positive) :
  2 ^ (Z.pos (digits2_pos m) - 1) <= Z.pos m < 2 ^ Z.pos (digits2_pos m).
Proof.
  induction m as [m IH | m IH |]; simpl digits2_pos.
  - rewrite Pos2Z.inj_succ.
    replace (Z.succ (Z.pos (digits2_pos m)) - 1) with (Z.succ (Z.pos (digits2_pos m) - 1)) by lia.
    rewrite !Z.pow_succ_r by lia. lia.
  - rewrite Pos2Z.inj_succ.
    replace (Z.succ (Z.pos (digits2_pos m)) - 1) with (Z.succ (Z.pos (digits2_pos m) - 1)) by lia.
    rewrite !Z.pow_succ_r by lia. lia.
  - simpl. lia.
Qed.

Lemma Zdigits2_nonneg (m : Z) : 0 <= Zdigits2 m.
Proof. destruct m; simpl; lia. Qed.

Lemma Zdigits2_le (m k : Z) : 0 <= m < 2 ^ k -> 0 <= k -> Zdigits2 m <= k.
Proof.
  intros [H0 Hm] Hk. destruct m as [| p | p]; simpl; [lia | | lia].
  pose proof (digits2_pos_bounds p) as [Hlo _].
  destruct (Z_le_gt_dec (Z.pos (digits2_pos p)) k) as [? | Hgt]; [assumption |].
  exfalso.
  assert (2 ^ k <= 2 ^ (Z.pos (digits2_pos p) - 1)) by (apply Z.pow_le_mono_r; lia).
  lia.
Qed.

(** One step of the right shift halves the mantissa. *)
Lemma shr_1_m (mrs : shr_record) :
  0 <= shr_m mrs -> shr_m (shr_1 mrs) = shr_m mrs / 2.
Proof.
  destruct mrs as [m r s]. simpl. intros Hm.
  destruct m as [| p | p]; [reflexivity | | lia].
  destruct p as [p | p |]; simpl shr_m.
  - apply (Z.div_unique _ _ _ 1); lia.
  - apply (Z.div_unique _ _ _ 0); lia.
  - reflexivity.
Qed.

Lemma shr_iter_m (p : positive) :
  forall mrs, 0 <= shr_m mrs ->
    shr_m (SpecFloat.iter_pos shr_1 p mrs) = shr_m mrs / 2 ^ Z.pos p.
Proof.
  assert (Hdiv : forall a b c, 0 <= a -> 0 < b -> 0 < c -> 0 <= a / b)
    by (intros; apply Z.div_pos; lia).
  induction p as [p IH | p IH |]; intros mrs Hm; simpl SpecFloat.iter_pos.
  - assert (H1 : 0 <= shr_m (shr_1 mrs))
      by (rewrite shr_1_m by lia; apply Z.div_pos; lia).
    assert (H2 : 0 <= shr_m (SpecFloat.iter_pos shr_1 p (shr_1 mrs)))
      by (rewrite IH by lia; apply Z.div_pos; lia).
    rewrite IH, IH, shr_1_m by assumption.
    rewrite !Z.div_div by lia. f_equal.
    replace (Z.pos p~1) with (1 + Z.pos p + Z.pos p) by lia.
    rewrite !Z.pow_add_r by lia. lia.
  - assert (H2 : 0 <= shr_m (SpecFloat.iter_pos shr_1 p mrs))
      by (rewrite IH by lia; apply Z.div_pos; lia).
    rewrite IH, IH by assumption.
    rewrite !Z.div_div by lia. f_equal.
    replace (Z.pos p~0) with (Z.pos p + Z.pos p) by lia.
    rewrite !Z.pow_add_r by lia. lia.
  - apply shr_1_m. exact Hm.
Qed.

Lemma round_nearest_even_range (m : Z) (l : location) :
  m <= round_nearest_even m l <= m + 1.
Proof.
  unfold round_nearest_even.
  destruct l as [| []]; try lia. destruct (Z.even m); lia.
Qed.


Lemma fexp64 (e : Z) : fexp prec emax e = Z.max (e - 53) (-1074).
Proof. reflexivity. Qed.

(** The first argument of [shr_fexp] shifted to its exponent, rounding
    position unknown: the mantissa is divided by the power of two. *)
Lemma shr_fexp_m (m e : Z) :
  0 <= m ->
  let n := fexp prec emax (Zdigits2 m + e) - e in
  exists mrs,
    shr_fexp prec emax m e loc_Exact = (mrs, e + Z.max n 0)
    /\ shr_m mrs = m / 2 ^ Z.max n 0
    /\ (n <= 0 -> mrs = Build_shr_record m false false).
Proof.
  intros Hm n. unfold shr_fexp, shr. fold n. simpl shr_record_of_loc.
  destruct n as [| p | p] eqn:En.
  - eexists. split; [rewrite Z.add_0_r; reflexivity |].
    simpl. rewrite Z.div_1_r. auto.
  - eexists. split; [reflexivity |]. split; [| lia].
    rewrite shr_iter_m by exact Hm. reflexivity.
  - eexists. split; [rewrite Z.add_0_r; reflexivity |].
    simpl. rewrite Z.div_1_r. auto.
Qed.

(** Rounding a mantissa that already fits leaves it as it is. *)
Lemma binary_round_aux_exact (sx : bool) (m : positive) (e : Z) :
  fexp prec emax (Z.pos (digits2_pos m) + e) <= e ->
  e <= 971 ->
  binary_round_aux prec emax sx (Z.pos m) e loc_Exact = S754_finite sx m e.
Proof.
  intros Hfit He. unfold binary_round_aux.
  destruct (shr_fexp_m (Z.pos m) e ltac:(lia)) as (mrs & E & _ & Hex).
  simpl Zdigits2 in E, Hex.
  rewrite Z.max_r in E by lia. rewrite Z.add_0_r in E.
  rewrite E, (Hex ltac:(lia)). simpl round_nearest_even.
  rewrite E, (Hex ltac:(lia)). simpl shr_m.
  destruct (Z.leb_spec e (emax - prec)) as [_ | Hbad]; [reflexivity |].
  change (emax - prec) with 971 in Hbad. lia.
Qed.

(** Rounding a mantissa that has to be shifted: the result is a zero or a
    finite number, at an exponent above the given one, less than two units
    of that exponent away. *)
Lemma binary_round_aux_shifted (sx : bool) (m : positive) (e : Z) :
  let D := Z.pos (digits2_pos m) + e in
  e < fexp prec emax D ->
  fexp prec emax (D + 1) <= 971 ->
  exists m3 e3,
    binary_round_aux prec emax sx (Z.pos m) e loc_Exact
    = match m3 with
      | Z.pos p => S754_finite sx p e3
      | _ => S754_zero sx
      end
    /\ 0 <= m3
    /\ e < e3 <= fexp prec emax (D + 1)
    /\ Z.pos m - 2 ^ (e3 - e + 1) < m3 * 2 ^ (e3 - e) <= Z.pos m + 2 ^ (e3 - e).
Proof.
  intros D Hshift Hmax. unfold binary_round_aux.
  destruct (shr_fexp_m (Z.pos m) e ltac:(lia)) as (mrs1 & E1 & Hm1 & _).
  simpl Zdigits2 in E1, Hm1. fold D in E1, Hm1.
  set (n1 := fexp prec emax D - e) in *.
  assert (Hn1 : 0 < n1) by (unfold n1; lia).
  rewrite Z.max_l in E1, Hm1 by lia.
  rewrite E1.
  set (m2 := round_nearest_even (shr_m mrs1) (loc_of_shr_record mrs1)).
  pose proof (round_nearest_even_range (shr_m mrs1) (loc_of_shr_record mrs1)) as Hm2.
  fold m2 in Hm2. rewrite Hm1 in Hm2.
  set (m1 := Z.pos m / 2 ^ n1) in *.
  assert (Hpow1 : 0 < 2 ^ n1) by (apply Z.pow_pos_nonneg; lia).
  assert (Hm1pos : 0 <= m1) by (apply Z.div_pos; lia).
  pose proof (Z.div_mod (Z.pos m) (2 ^ n1) ltac:(lia)) as Hdm.
  pose proof (Z.mod_pos_bound (Z.pos m) (2 ^ n1) Hpow1) as Hmod.
  fold m1 in Hdm.
  destruct (shr_fexp_m m2 (e + n1) ltac:(lia)) as (mrs3 & E3 & Hm3 & _).
  set (n2 := fexp prec emax (Zdigits2 m2 + (e + n1)) - (e + n1)) in *.
  rewrite E3.
  set (k2 := Z.max n2 0) in *.
  assert (Hk2 : 0 <= k2) by (unfold k2; lia).
  assert (Hpow2 : 0 < 2 ^ k2) by (apply Z.pow_pos_nonneg; lia).
  set (m3 := m2 / 2 ^ k2) in *.
  assert (Hm3pos : 0 <= m3) by (apply Z.div_pos; lia).
  pose proof (Z.div_mod m2 (2 ^ k2) ltac:(lia)) as Hdm3.
  pose proof (Z.mod_pos_bound m2 (2 ^ k2) Hpow2) as Hmod3.
  fold m3 in Hdm3.
  (* the digits of the rounded mantissa *)
  pose proof (digits2_pos_bounds m) as [_ Hhi].
  set (d := Z.pos (digits2_pos m)) in *.
  assert (Hdig : Zdigits2 m2 <= Z.max (d - n1) 0 + 1).
  { apply Zdigits2_le; [| lia]. split; [lia |].
    destruct (Z_le_gt_dec n1 d) as [Hle | Hgt].
    - rewrite Z.max_l by lia.
      assert (m1 < 2 ^ (d - n1)).
      { apply Z.div_lt_upper_bound; [lia |].
        rewrite <- Z.pow_add_r by lia. replace (n1 + (d - n1)) with d by lia.
        exact Hhi. }
      rewrite Z.pow_add_r, Z.pow_1_r by lia. lia.
    - rewrite Z.max_r by lia. simpl.
      assert (m1 = 0).
      { apply Z.div_small. split; [lia |].
        eapply Z.lt_le_trans; [exact Hhi |]. apply Z.pow_le_mono_r; lia. }
      lia. }
  assert (He3 : e + n1 + k2 <= fexp prec emax (D + 1)).
  { unfold k2, n2, n1 in *. rewrite !fexp64 in *. unfold D in *. lia. }
  exists m3, (e + n1 + k2).
  split.
  { rewrite Hm3. fold m3.
    destruct m3 as [| p | p]; [reflexivity | | lia].
    destruct (Z.leb_spec (e + n1 + k2) (emax - prec)) as [_ | Hbad];
      [reflexivity |].
    change (emax - prec) with 971 in Hbad. lia. }
  split; [exact Hm3pos |].
  split; [lia |].
  replace (e + n1 + k2 - e) with (n1 + k2) by lia.
  replace (n1 + k2 + 1) with (1 + (n1 + k2)) by lia.
  rewrite !Z.pow_add_r, Z.pow_1_r by lia.
  nia.
Qed.

(** ** Values *)

Definition pow2 (e : Z) : Q := Qpower 2 e.

(** The rational a spec float stands for (0 for [NaN] and the infinities,
    which [SFreal] excludes). *)
Definition SFval (x : spec_float) : Q :=
  match x with
  | S754_finite s m e => inject_Z (cond_Zopp s (Z.pos m)) * pow2 e
  | _ => 0
  end.

Definition SFreal (x : spec_float) : Prop :=
  match x with
  | S754_zero _ | S754_finite _ _ _ => True
  | _ => False
  end.

Lemma pow2_pos (e : Z) : (0 < pow2 e)%Q.
Proof. apply Qpower_0_lt. reflexivity. Qed.

Lemma pow2_add (a b : Z) : (pow2 (a + b) == pow2 a * pow2 b)%Q.
Proof. apply Qpower_plus. discriminate. Qed.

Lemma pow2_le (a b : Z) : a <= b -> (pow2 a <= pow2 b)%Q.
Proof. intros H. apply Qpower_le_compat_l; [exact H | discriminate]. Qed.

Lemma pow2_lt (a b : Z) : a < b -> (pow2 a < pow2 b)%Q.
Proof. intros H. apply Qpower_lt_compat_l; [exact H | reflexivity]. Qed.

Lemma pow2_lt_inv (a b : Z) : (pow2 a < pow2 b)%Q -> a < b.
Proof. intros H. apply (Qpower_lt_compat_l_inv 2); [exact H | reflexivity]. Qed.

Lemma pow2_inject (n : Z) : 0 <= n -> (inject_Z (2 ^ n) == pow2 n)%Q.
Proof. intros H. apply (Zpower_Qpower 2 n H). Qed.

Lemma pow2_0 : (pow2 0 == 1)%Q.
Proof. reflexivity. Qed.

Lemma pow2_succ (a : Z) : (pow2 (a + 1) == 2 * pow2 a)%Q.
Proof. rewrite pow2_add. change (pow2 1) with 2%Q. ring. Qed.

(** The error allowed to a rounded result below [2 ^ B] in magnitude. *)
Definition err (B : Z) : Q := pow2 (fexp prec emax (B + 1) + 1).

Lemma err_pos (B : Z) : (0 < err B)%Q.
Proof. apply pow2_pos. Qed.

Lemma fexp_mono (a b : Z) : a <= b -> fexp prec emax a <= fexp prec emax b.
Proof. intros H. rewrite !fexp64. lia. Qed.

Lemma scale_int (a K e : Z) :
  0 <= K -> (inject_Z (a * 2 ^ K) * pow2 e == inject_Z a * pow2 (K + e))%Q.
Proof.
  intros HK. rewrite inject_Z_mult, pow2_inject, pow2_add by exact HK. ring.
Qed.

(** A positive number below [2 ^ B] has its digits below [B]. *)
Lemma digits_below (m : positive) (e B : Z) :
  (inject_Z (Z.pos m) * pow2 e < pow2 B)%Q ->
  Z.pos (digits2_pos m) + e <= B.
Proof.
  intros H. pose proof (digits2_pos_bounds m) as [Hlo _].
  set (d := Z.pos (digits2_pos m)) in *.
  assert (Hd : 0 <= d - 1) by (unfold d; lia).
  enough (d - 1 + e < B) by lia.
  apply pow2_lt_inv. eapply Qle_lt_trans; [| exact H].
  rewrite pow2_add, <- pow2_inject by exact Hd.
  apply Qmult_le_compat_r; [| apply Qlt_le_weak, pow2_pos].
  rewrite <- Zle_Qle. exact Hlo.
Qed.

Lemma SFval_finite (s : bool) (m : positive) (e : Z) :
  (SFval (S754_finite s m e)
   == (if s then -1 else 1) * (inject_Z (Z.pos m) * pow2 e))%Q.
Proof.
  unfold SFval. destruct s; simpl cond_Zopp.
  - change (Z.neg m) with (- Z.pos m). rewrite inject_Z_opp. ring.
  - ring.
Qed.

(** [binary_round_aux] on an exact mantissa: the result is a zero or a
    finite number of the same sign, within [err B] of the number rounded,
    and equal to it when the mantissa fits. *)
Lemma binary_round_aux_spec (sx : bool) (m : positive) (e B : Z) :
  (inject_Z (Z.pos m) * pow2 e < pow2 B)%Q ->
  B <= 960 ->
  exists r,
    binary_round_aux prec emax sx (Z.pos m) e loc_Exact = r
    /\ SFreal r
    /\ (exists y, SFval r == (if sx then -1 else 1) * y
                  /\ - err B < y - inject_Z (Z.pos m) * pow2 e < err B
                  /\ ((fexp prec emax (Z.pos (digits2_pos m) + e) <= e)%Z ->
                      y == inject_Z (Z.pos m) * pow2 e))%Q.
Proof.
  intros Hmag HB. pose proof (digits_below m e B Hmag) as HD.
  pose proof (err_pos B) as Herr.
  pose proof (digits2_pos_bounds m) as [Hlo _].
  set (D := Z.pos (digits2_pos m) + e) in *.
  assert (He : e <= D - 1) by (unfold D; lia).
  destruct (Z_le_gt_dec (fexp prec emax D) e) as [Hfit | Hshift].
  - exists (S754_finite sx m e).
    split; [apply binary_round_aux_exact; [exact Hfit | lia] |].
    split; [exact I |].
    exists (inject_Z (Z.pos m) * pow2 e)%Q.
    split; [apply SFval_finite |]. split; [lra | reflexivity].
  - assert (Hmax : fexp prec emax (D + 1) <= 971) by (rewrite fexp64; lia).
    destruct (binary_round_aux_shifted sx m e ltac:(fold D; lia) Hmax)
      as (m3 & e3 & Eq & Hm3 & He3 & Hlow & Hhigh).
    fold D in He3.
    eexists. split; [exact Eq |].
    set (K := e3 - e) in *.
    assert (HK : 0 <= K) by (unfold K; lia).
    assert (HeK : e3 = K + e) by (unfold K; lia).
    assert (Hy : (- err B < inject_Z m3 * pow2 e3 - inject_Z (Z.pos m) * pow2 e
                  < err B)%Q).
    { assert (Hbig : (pow2 (e3 + 1) <= err B)%Q).
      { unfold err. apply pow2_le.
        pose proof (fexp_mono (D + 1) (B + 1) ltac:(lia)). lia. }
      rewrite pow2_succ in Hbig.
      rewrite HeK in Hbig |- *. rewrite pow2_add in Hbig |- *.
      pose proof (pow2_pos e) as Hpe. pose proof (pow2_pos K) as HpK.
      apply Z.lt_le_incl in Hlow as Hlow'.
      rewrite Zlt_Qlt in Hlow. rewrite Zle_Qle in Hhigh.
      replace (K + 1) with (1 + K) in Hlow by lia.
      rewrite Z.pow_add_r, Z.pow_1_r in Hlow by lia.
      unfold Z.sub in Hlow.
      rewrite inject_Z_plus, inject_Z_opp, !inject_Z_mult in Hlow.
      rewrite inject_Z_plus, inject_Z_mult in Hhigh.
      rewrite pow2_inject in Hlow, Hhigh by exact HK.
      change (inject_Z 2) with 2%Q in Hlow.
      set (im := inject_Z (Z.pos m)) in *. set (i3 := inject_Z m3) in *.
      set (pK := pow2 K) in *. set (pe := pow2 e) in *.
      split; nra. }
    destruct m3 as [| p | p]; [| | lia].
    + split; [exact I |]. exists 0%Q.
      split; [simpl; ring |].
      split; [| intros; lia].
      change (inject_Z 0) with 0%Q in Hy. lra.
    + split; [exact I |]. exists (inject_Z (Z.pos p) * pow2 e3)%Q.
      split; [apply SFval_finite |].
      split; [exact Hy | intros; lia].
Qed.

(** ** Alignment and [binary_round] *)

Lemma pos_iter_xO (m d : positive) :
  Z.pos (Pos.iter xO m d) = Z.pos m * 2 ^ Z.pos d.
Proof.
  induction d as [| d IH] using Pos.peano_ind.
  - simpl. lia.
  - rewrite Pos.iter_succ, Pos2Z.inj_succ, Z.pow_succ_r by lia.
    rewrite Pos2Z.inj_xO, IH. lia.
Qed.

Lemma digits2_pos_unique (x : positive) (k : Z) :
  2 ^ (k - 1) <= Z.pos x < 2 ^ k -> Z.pos (digits2_pos x) = k.
Proof.
  intros [Hlo Hhi]. pose proof (digits2_pos_bounds x) as [Dlo Dhi].
  set (d := Z.pos (digits2_pos x)) in *.
  assert (Hd : 1 <= d) by (unfold d; lia).
  assert (Hk : 1 <= k).
  { destruct (Z_le_gt_dec 1 k); [assumption | exfalso].
    destruct (Z.eq_dec k 0) as [-> | ?]; [simpl in Hhi; lia |].
    rewrite Z.pow_neg_r in Hhi by lia. lia. }
  destruct (Z_lt_le_dec d k) as [Hlt | Hge].
  - assert (2 ^ d <= 2 ^ (k - 1)) by (apply Z.pow_le_mono_r; lia). lia.
  - destruct (Z_lt_le_dec k d) as [Hlt | Hge'].
    + assert (2 ^ k <= 2 ^ (d - 1)) by (apply Z.pow_le_mono_r; lia). lia.
    + lia.
Qed.

Lemma digits2_pos_shift (m d : positive) :
  Z.pos (digits2_pos (Pos.iter xO m d)) = Z.pos (digits2_pos m) + Z.pos d.
Proof.
  apply digits2_pos_unique. rewrite pos_iter_xO.
  pose proof (digits2_pos_bounds m) as [Hlo Hhi].
  replace (Z.pos (digits2_pos m) + Z.pos d - 1)
    with ((Z.pos (digits2_pos m) - 1) + Z.pos d) by lia.
  rewrite !Z.pow_add_r by lia.
  assert (0 < 2 ^ Z.pos d) by (apply Z.pow_pos_nonneg; lia).
  nia.
Qed.

(** Aligning a mantissa to a lower exponent keeps the value. *)
Lemma shl_align_value (m : positive) (e e' : Z) :
  e' <= e ->
  Z.pos (fst (shl_align m e e')) = Z.pos m * 2 ^ (e - e')
  /\ snd (shl_align m e e') = e'.
Proof.
  intros H. unfold shl_align.
  destruct (e' - e) as [| d | d] eqn:E; simpl; try lia.
  - replace (e - e') with 0 by lia. simpl. lia.
  - rewrite pos_iter_xO. replace (e - e') with (Z.pos d) by lia. lia.
Qed.

Lemma shl_align_id (m : positive) (e e' : Z) :
  e <= e' -> shl_align m e e' = (m, e).
Proof.
  intros H. unfold shl_align.
  destruct (e' - e) as [| d | d] eqn:E; try reflexivity. lia.
Qed.

Lemma binary_round_spec (sx : bool) (m : positive) (e B : Z) :
  (inject_Z (Z.pos m) * pow2 e < pow2 B)%Q ->
  B <= 960 ->
  exists r,
    binary_round prec emax sx m e = r
    /\ SFreal r
    /\ (exists y, SFval r == (if sx then -1 else 1) * y
                  /\ - err B < y - inject_Z (Z.pos m) * pow2 e < err B
                  /\ ((fexp prec emax (Z.pos (digits2_pos m) + e) <= e)%Z ->
                      y == inject_Z (Z.pos m) * pow2 e
                      /\ valid_binary r = true))%Q.
Proof.
  intros Hmag HB. pose proof (digits_below m e B Hmag) as HD.
  pose proof (err_pos B) as Herr.
  unfold binary_round.
  set (D := Z.pos (digits2_pos m) + e) in *.
  destruct (Z_lt_le_dec (fexp prec emax D) e) as [Hshl | Hnoshl].
  - (* the mantissa is shifted left to the exponent of its format *)
    pose proof (shl_align_value m e (fexp prec emax D) ltac:(lia)) as [Hmz Hez].
    destruct (shl_align m e (fexp prec emax D)) as [mz ez] eqn:Esh.
    simpl in Hmz, Hez. subst ez.
    assert (Hdig : Z.pos (digits2_pos mz) + fexp prec emax D = D).
    { unfold shl_align in Esh.
      destruct (fexp prec emax D - e) as [| d | d] eqn:E; try lia.
      inversion Esh; subst mz. rewrite digits2_pos_shift.
      pose proof (Pos2Z.neg_is_neg d). pose proof (Pos2Z.opp_pos d).
      unfold D in *. lia. }
    rewrite binary_round_aux_exact
      by (rewrite ?Hdig; rewrite ?fexp64; rewrite ?fexp64 in Hshl; lia).
    eexists. split; [reflexivity |]. split; [exact I |].
    exists (inject_Z (Z.pos mz) * pow2 (fexp prec emax D))%Q.
    split; [apply SFval_finite |].
    assert (Heq : (inject_Z (Z.pos mz) * pow2 (fexp prec emax D)
                   == inject_Z (Z.pos m) * pow2 e)%Q).
    { rewrite Hmz, scale_int by lia.
      replace (e - fexp prec emax D + fexp prec emax D) with e by lia.
      reflexivity. }
    split; [rewrite Heq; lra |].
    intros _. split; [exact Heq |].
    unfold valid_binary, bounded, canonical_mantissa.
    rewrite Hdig, Z.eqb_refl. simpl.
    apply Z.leb_le. change (emax - prec) with 971. rewrite fexp64. lia.
  - rewrite shl_align_id by exact Hnoshl.
    destruct (binary_round_aux_spec sx m e B Hmag HB)
      as (r & Er & Hreal & y & Hval & Hy & Hexact).
    exists r. split; [exact Er |]. split; [exact Hreal |].
    exists y. split; [exact Hval |]. split; [exact Hy |].
    intros Hfit. split; [apply Hexact, Hfit |].
    fold D in Hfit. assert (Hfe : fexp prec emax D = e) by lia.
    rewrite binary_round_aux_exact in Er
      by (fold D; rewrite ?fexp64 in *; lia).
    subst r. unfold valid_binary, bounded, canonical_mantissa.
    fold D. rewrite Hfe, Z.eqb_refl. simpl.
    apply Z.leb_le. change (emax - prec) with 971. rewrite fexp64 in Hfe. lia.
Qed.

Lemma inject_cond_Zopp (s : bool) (z : Z) :
  (inject_Z (cond_Zopp s z) == (if s then -1 else 1) * inject_Z z)%Q.
Proof.
  destruct s; simpl cond_Zopp; [rewrite inject_Z_opp |]; ring.
Qed.

Lemma binary_normalize_spec (M e B : Z) (szero : bool) :
  (- pow2 B < inject_Z M * pow2 e < pow2 B)%Q ->
  B <= 960 ->
  exists r,
    binary_normalize prec emax M e szero = r
    /\ SFreal r
    /\ (- err B < SFval r - inject_Z M * pow2 e < err B)%Q
    /\ (fexp prec emax (Zdigits2 M + e) <= e ->
        (SFval r == inject_Z M * pow2 e)%Q /\ valid_binary r = true).
Proof.
  intros Hmag HB. pose proof (err_pos B) as Herr.
  unfold binary_normalize. destruct M as [| m | m].
  - eexists. split; [reflexivity |]. split; [exact I |].
    simpl SFval. change (inject_Z 0) with 0%Q.
    split; [lra |]. intros _. split; [ring | reflexivity].
  - destruct (binary_round_spec false m e B ltac:(lra) HB)
      as (r & Er & Hreal & y & Hval & Hy & Hexact).
    exists r. split; [exact Er |]. split; [exact Hreal |].
    split; [rewrite Hval; lra |].
    intros Hfit. destruct (Hexact Hfit) as [Hyx Hvalid].
    split; [rewrite Hval, Hyx; ring | exact Hvalid].
  - change (Z.neg m) with (- Z.pos m) in *.
    rewrite inject_Z_opp in *.
    destruct (binary_round_spec true m e B ltac:(lra) HB)
      as (r & Er & Hreal & y & Hval & Hy & Hexact).
    exists r. split; [exact Er |]. split; [exact Hreal |].
    split; [rewrite Hval; lra |].
    intros Hfit. destruct (Hexact Hfit) as [Hyx Hvalid].
    split; [rewrite Hval, Hyx; ring | exact Hvalid].
Qed.

(** ** The operations *)

Lemma SFmul_spec (x y : spec_float) (B : Z) :
  SFreal x -> SFreal y ->
  (- pow2 B < SFval x * SFval y < pow2 B)%Q ->
  B <= 960 ->
  SFreal (SFmul prec emax x y)
  /\ (- err B < SFval (SFmul prec emax x y) - SFval x * SFval y < err B)%Q.
Proof.
  intros Hx Hy Hmag HB. pose proof (err_pos B) as Herr.
  destruct x as [sx | sx | | sx mx ex]; try contradiction;
  destruct y as [sy | sy | | sy my ey]; try contradiction;
    try (simpl; split; [exact I | lra]).
  unfold SFmul.
  rewrite !SFval_finite in Hmag |- *.
  assert (Hprod : (inject_Z (Z.pos (mx * my)) * pow2 (ex + ey)
                   == (inject_Z (Z.pos mx) * pow2 ex)
                      * (inject_Z (Z.pos my) * pow2 ey))%Q).
  { rewrite Pos2Z.inj_mul, inject_Z_mult, pow2_add. ring. }
  destruct (binary_round_aux_spec (xorb sx sy) (mx * my) (ex + ey) B)
    as (r & Er & Hreal & z & Hval & Hz & _); [| exact HB |].
  - rewrite Hprod. destruct sx, sy; cbv iota in Hmag; lra.
  - rewrite Er. split; [exact Hreal |].
    rewrite Hval. rewrite Hprod in Hz.
    destruct sx, sy; simpl xorb; cbv iota; lra.
Qed.

Lemma SFval_aligned (s : bool) (m : positive) (e ez : Z) :
  ez <= e ->
  (inject_Z (cond_Zopp s (Z.pos (fst (shl_align m e ez)))) * pow2 ez
   == SFval (S754_finite s m e))%Q.
Proof.
  intros H. destruct (shl_align_value m e ez H) as [Hm _].
  rewrite Hm, inject_cond_Zopp, SFval_finite.
  rewrite <- Qmult_assoc, scale_int by lia.
  replace (e - ez + ez) with e by lia. reflexivity.
Qed.

Lemma SFadd_spec (x y : spec_float) (B : Z) :
  SFreal x -> SFreal y ->
  (- pow2 B < SFval x + SFval y < pow2 B)%Q ->
  B <= 960 ->
  SFreal (SFadd prec emax x y)
  /\ (- err B < SFval (SFadd prec emax x y) - (SFval x + SFval y) < err B)%Q.
Proof.
  intros Hx Hy Hmag HB. pose proof (err_pos B) as Herr.
  destruct x as [sx | sx | | sx mx ex]; try contradiction;
  destruct y as [sy | sy | | sy my ey]; try contradiction.
  - unfold SFadd. destruct sx, sy; cbv iota;
      (split; [exact I | change (SFval (S754_zero _)) with 0%Q; lra]).
  - unfold SFadd. split; [exact I |].
    change (SFval (S754_zero sx)) with 0%Q. lra.
  - unfold SFadd. split; [exact I |].
    change (SFval (S754_zero sy)) with 0%Q. lra.
  - unfold SFadd. cbv zeta.
    set (ez := Z.min ex ey).
    set (M := cond_Zopp sx (Z.pos (fst (shl_align mx ex ez)))
              + cond_Zopp sy (Z.pos (fst (shl_align my ey ez)))).
    assert (HM : (inject_Z M * pow2 ez
                  == SFval (S754_finite sx mx ex) + SFval (S754_finite sy my ey))%Q).
    { unfold M. rewrite inject_Z_plus, Qmult_plus_distr_l.
      rewrite !SFval_aligned by (unfold ez; lia). reflexivity. }
    destruct (binary_normalize_spec M ez B false) as (r & Er & Hreal & Hr & _);
      [rewrite HM; exact Hmag | exact HB |].
    rewrite Er. split; [exact Hreal |]. rewrite <- HM. exact Hr.
Qed.

Lemma SFsub_spec (x y : spec_float) (B : Z) :
  SFreal x -> SFreal y ->
  (- pow2 B < SFval x - SFval y < pow2 B)%Q ->
  B <= 960 ->
  SFreal (SFsub prec emax x y)
  /\ (- err B < SFval (SFsub prec emax x y) - (SFval x - SFval y) < err B)%Q.
Proof.
  intros Hx Hy Hmag HB. pose proof (err_pos B) as Herr.
  destruct x as [sx | sx | | sx mx ex]; try contradiction;
  destruct y as [sy | sy | | sy my ey]; try contradiction.
  - unfold SFsub. destruct sx, sy; cbv iota;
      (split; [exact I | change (SFval (S754_zero _)) with 0%Q; lra]).
  - unfold SFsub. split; [exact I |].
    rewrite !SFval_finite. change (SFval (S754_zero sx)) with 0%Q.
    destruct sy; simpl negb; cbv iota; lra.
  - unfold SFsub. split; [exact I |].
    change (SFval (S754_zero sy)) with 0%Q. lra.
  - unfold SFsub. cbv zeta.
    set (ez := Z.min ex ey).
    set (M := cond_Zopp sx (Z.pos (fst (shl_align mx ex ez)))
              - cond_Zopp sy (Z.pos (fst (shl_align my ey ez)))).
    assert (HM : (inject_Z M * pow2 ez
                  == SFval (S754_finite sx mx ex) - SFval (S754_finite sy my ey))%Q).
    { unfold M, Z.sub. rewrite inject_Z_plus, inject_Z_opp, Qmult_plus_distr_l.
      rewrite <- !SFval_aligned with (ez := ez) by (unfold ez; lia). ring. }
    destruct (binary_normalize_spec M ez B false) as (r & Er & Hreal & Hr & _);
      [rewrite HM; exact Hmag | exact HB |].
    rewrite Er. split; [exact Hreal |]. rewrite <- HM. exact Hr.
Qed.

(** ** Primitive floats *)

Definition Fval (x : float) : Q := SFval (Prim2SF x).
Definition Freal (x : float) : Prop := SFreal (Prim2SF x).

Lemma mul_float (x y : float) (B : Z) :
  Freal x -> Freal y ->
  (- pow2 B < Fval x * Fval y < pow2 B)%Q -> B <= 960 ->
  Freal (x * y)%float
  /\ (- err B < Fval (x * y)%float - Fval x * Fval y < err B)%Q.
Proof.
  unfold Freal, Fval. rewrite mul_spec. apply SFmul_spec.
Qed.

Lemma add_float (x y : float) (B : Z) :
  Freal x -> Freal y ->
  (- pow2 B < Fval x + Fval y < pow2 B)%Q -> B <= 960 ->
  Freal (x + y)%float
  /\ (- err B < Fval (x + y)%float - (Fval x + Fval y) < err B)%Q.
Proof.
  unfold Freal, Fval. rewrite add_spec. apply SFadd_spec.
Qed.

Lemma sub_float (x y : float) (B : Z) :
  Freal x -> Freal y ->
  (- pow2 B < Fval x - Fval y < pow2 B)%Q -> B <= 960 ->
  Freal (x - y)%float
  /\ (- err B < Fval (x - y)%float - (Fval x - Fval y) < err B)%Q.
Proof.
  unfold Freal, Fval. rewrite sub_spec. apply SFsub_spec.
Qed.

(** [NaN] absorbs. *)
Definition Fnan (x : float) : Prop := Prim2SF x = S754_nan.

Lemma mul_nan_l (x y : float) : Fnan x -> Fnan (x * y)%float.
Proof. unfold Fnan. intros H. rewrite mul_spec, H. reflexivity. Qed.

Lemma mul_nan_r (x y : float) : Fnan y -> Fnan (x * y)%float.
Proof.
  unfold Fnan. intros H. rewrite mul_spec, H.
  destruct (Prim2SF x); reflexivity.
Qed.

Lemma add_nan_l (x y : float) : Fnan x -> Fnan (x + y)%float.
Proof. unfold Fnan. intros H. rewrite add_spec, H. reflexivity. Qed.

Lemma add_nan_r (x y : float) : Fnan y -> Fnan (x + y)%float.
Proof.
  unfold Fnan. intros H. rewrite add_spec, H.
  destruct (Prim2SF x); reflexivity.
Qed.

Lemma sub_nan_r (x y : float) : Fnan y -> Fnan (x - y)%float.
Proof.
  unfold Fnan. intros H. rewrite sub_spec, H.
  destruct (Prim2SF x); reflexivity.
Qed.

(** A Number minus itself, when it is neither real nor [NaN], is [NaN]. *)
Lemma sub_self_not_real (x : float) :
  ~ Freal x -> Fnan (x - x)%float.
Proof.
  unfold Freal, Fnan. intros H. rewrite sub_spec.
  destruct (Prim2SF x) as [s | s | | s m e]; simpl in H;
    [tauto | destruct s; reflexivity | reflexivity | tauto].
Qed.

Lemma Zdigits2_abs (z : Z) : Zdigits2 z = Zdigits2 (Z.abs z).
Proof. destruct z; reflexivity. Qed.

(** [Number] is exact on the integers below [2 ^ 53] in magnitude. *)
Lemma Number_exact (z : Z) :
  Z.abs z < 2 ^ 53 ->
  Freal (Number z) /\ (Fval (Number z) == inject_Z z)%Q.
Proof.
  intros Hz. unfold Freal, Fval, Number.
  assert (Hmag : (- pow2 53 < inject_Z z * pow2 0 < pow2 53)%Q).
  { rewrite pow2_0, Qmult_1_r, <- pow2_inject by lia.
    rewrite <- inject_Z_opp, <- !Zlt_Qlt. lia. }
  destruct (binary_normalize_spec z 0 53 false Hmag ltac:(lia))
    as (r & Er & Hreal & _ & Hexact).
  assert (Hfit : fexp prec emax (Zdigits2 z + 0) <= 0).
  { rewrite fexp64, Zdigits2_abs.
    pose proof (Zdigits2_le (Z.abs z) 53 ltac:(lia) ltac:(lia)). lia. }
  destruct (Hexact Hfit) as [Hval Hvalid].
  rewrite Er, (Prim2SF_SF2Prim r Hvalid).
  split; [exact Hreal |].
  rewrite Hval, pow2_0. ring.
Qed.

(** The mantissa of a primitive float has at most 53 digits. *)
Lemma mantissa_bound (x : float) (s : bool) (m : positive) (e : Z) :
  Prim2SF x = S754_finite s m e -> Z.pos m < 2 ^ 53 /\ -1074 <= e.
Proof.
  intros E. pose proof (Prim2SF_valid x) as Hv. rewrite E in Hv.
  unfold SpecFloat.valid_binary, bounded, canonical_mantissa in Hv.
  apply andb_prop in Hv as [Hc _]. apply Z.eqb_eq in Hc.
  rewrite fexp64 in Hc.
  pose proof (digits2_pos_bounds m) as [_ Hhi].
  split; [| lia].
  eapply Z.lt_le_trans; [exact Hhi |]. apply Z.pow_le_mono_r; lia.
Qed.

Lemma pow2_neg_inv (n : Z) : (pow2 (- n) * pow2 n == 1)%Q.
Proof. rewrite <- pow2_add. replace (- n + n) with 0 by lia. reflexivity. Qed.

(** [Math.floor] of a real Number is a real Number, an integer, at most
    [x] and less than 1 below it. *)
Lemma Math_floor_spec (x : float) :
  Freal x ->
  Freal (Math_floor x)
  /\ (0 <= Fval x - Fval (Math_floor x) < 1)%Q.
Proof.
  unfold Math_floor, Freal, Fval.
  destruct (Prim2SF x) as [s | s | | s m e] eqn:E; try contradiction; intros _.
  - cbv iota. rewrite E. split; [exact I | lra].
  - cbv iota. destruct (Z.leb_spec 0 e) as [He | He].
    + rewrite E. split; [exact I | lra].
    + destruct (mantissa_bound x s m e E) as [Hm _].
      set (n := - e). assert (Hn : 0 < n) by (unfold n; lia).
      set (v := cond_Zopp s (Z.pos m)).
      assert (Hpow : 0 < 2 ^ n) by (apply Z.pow_pos_nonneg; lia).
      pose proof (Z.div_mod v (2 ^ n) ltac:(lia)) as Hdm.
      pose proof (Z.mod_pos_bound v (2 ^ n) Hpow) as Hmod.
      set (k := v / 2 ^ n) in *.
      assert (Hk : Z.abs k < 2 ^ 53).
      { assert (Z.abs v < 2 ^ 53) by (unfold v; destruct s; simpl; lia).
        assert (1 <= 2 ^ n) by lia. nia. }
      destruct (Number_exact k Hk) as [Hreal Hval].
      unfold Freal, Fval in Hreal, Hval.
      split; [exact Hreal |].
      rewrite Hval. unfold SFval. fold v.
      replace e with (- n) by (unfold n; lia).
      pose proof (pow2_neg_inv n) as Hinv.
      pose proof (pow2_pos (- n)) as Hp.
      assert (Hv : (inject_Z v == inject_Z k * pow2 n + inject_Z (v mod 2 ^ n))%Q).
      { rewrite <- pow2_inject, <- inject_Z_mult, <- inject_Z_plus by lia.
        replace (k * 2 ^ n + v mod 2 ^ n) with v by lia. reflexivity. }
      destruct Hmod as [Hr0 Hr1].
      rewrite Zle_Qle in Hr0. rewrite Zlt_Qlt, pow2_inject in Hr1 by lia.
      change (inject_Z 0) with 0%Q in Hr0.
      set (iv := inject_Z v) in *. set (ik := inject_Z k) in *.
      set (ir := inject_Z (v mod 2 ^ n)) in *.
      set (pn := pow2 n) in *. set (qn := pow2 (- n)) in *.
      assert (H1 : (iv * qn == ik + ir * qn)%Q).
      { rewrite Hv. transitivity (ik * (qn * pn) + ir * qn)%Q; [ring |].
        rewrite Hinv. ring. }
      rewrite H1.
      assert (H2 : (0 <= ir * qn)%Q) by nra.
      assert (H3 : (ir * qn < 1)%Q).
      { rewrite <- Hinv. fold qn pn. nra. }
      lra.
Qed.

(** [Number] followed by the integer value is the identity on the 16-bit
    integers; checked on each of them. *)
Lemma IntegerValue_Number_all :
  holds_from (fun k => IntegerValue (Number k) =? k) (-32768) (Z.to_nat 65536)
  = true.
Proof. vm_compute. reflexivity. Qed.

Lemma IntegerValue_Number (k : Z) : int16 k -> IntegerValue (Number k) = k.
Proof.
  intros Hk. apply Z.eqb_eq.
  apply (holds_from_spec _ _ _ IntegerValue_Number_all k).
  rewrite Z2Nat.id by discriminate. unfold int16 in Hk. lia.
Qed.

Lemma Q_half_bounds (z : Z) :
  (- (65537 # 2) < inject_Z z < 65535 # 2)%Q -> int16 z.
Proof.
  intros [Hlo Hhi]. unfold int16.
  assert (H1 : (inject_Z (-65537) < inject_Z (2 * z))%Q).
  { rewrite inject_Z_mult. change (inject_Z 2) with 2%Q.
    change (inject_Z (-65537)) with (-65537 # 1)%Q. lra. }
  assert (H2 : (inject_Z (2 * z) < inject_Z 65535)%Q).
  { rewrite inject_Z_mult. change (inject_Z 2) with 2%Q.
    change (inject_Z 65535) with (65535 # 1)%Q. lra. }
  rewrite <- Zlt_Qlt in H1, H2. lia.
Qed.

(** A real Number strictly between -32768.5 and 32767.5 rounds to a 16-bit
    integer. *)
Lemma rounded_int16 (v : float) :
  Freal v ->
  (- (65537 # 2) < Fval v < 65535 # 2)%Q ->
  int16 (IntegerValue (Math_round v)).
Proof.
  unfold Freal, Fval, Math_round.
  destruct (Prim2SF v) as [s | s | | s m e] eqn:E; try contradiction;
    intros _ Hv; cbv iota.
  - unfold IntegerValue. rewrite E. unfold int16. lia.
  - destruct (Z.leb_spec 0 e) as [He | He].
    + unfold IntegerValue. rewrite E.
      destruct (Z.leb_spec 0 e) as [_ | ?]; [| lia].
      apply Q_half_bounds.
      assert (Heq : (inject_Z (cond_Zopp s (Z.pos m * 2 ^ e))
                     == SFval (S754_finite s m e))%Q).
      { rewrite inject_cond_Zopp, SFval_finite, inject_Z_mult, pow2_inject
          by exact He. reflexivity. }
      rewrite Heq. exact Hv.
    + set (n := - e). assert (Hn : 0 < n) by (unfold n; lia).
      replace (1 - e) with (n + 1) by (unfold n; lia).
      set (sv := cond_Zopp s (Z.pos m)).
      assert (Hpow : 0 < 2 ^ n) by (apply Z.pow_pos_nonneg; lia).
      assert (Hbounds : -65537 * 2 ^ n < 2 * sv < 65535 * 2 ^ n).
      { unfold SFval in Hv. fold sv in Hv.
        replace e with (- n) in Hv by (unfold n; lia).
        pose proof (pow2_neg_inv n) as Hinv.
        pose proof (pow2_pos n) as Hpn. pose proof (pow2_pos (- n)) as Hqn.
        rewrite !Zlt_Qlt, !inject_Z_mult, pow2_inject by lia.
        change (inject_Z 2) with 2%Q.
        change (inject_Z (-65537)) with (-65537 # 1)%Q.
        change (inject_Z 65535) with (65535 # 1)%Q.
        set (iv := inject_Z sv) in *.
        set (pn := pow2 n) in *. set (qn := pow2 (- n)) in *.
        assert (Hiv : (iv == (iv * qn) * pn)%Q).
        { transitivity (iv * (qn * pn))%Q; [rewrite Hinv |]; ring. }
        destruct Hv as [Hlo Hhi].
        split; rewrite Hiv; nra. }
      rewrite Z.pow_add_r, Z.pow_1_r by lia.
      assert (Hk : int16 ((2 * sv + 2 ^ n) / (2 ^ n * 2))).
      { unfold int16. split.
        - apply Z.div_le_lower_bound; lia.
        - enough ((2 * sv + 2 ^ n) / (2 ^ n * 2) < 32768) by lia.
          apply Z.div_lt_upper_bound; lia. }
      rewrite IntegerValue_Number by exact Hk. exact Hk.
Qed.

Lemma rounded_not_real (v : float) :
  ~ Freal v -> IntegerValue (Math_round v) = 0.
Proof.
  unfold Freal, Math_round, IntegerValue.
  destruct (Prim2SF v) as [s | s | | s m e] eqn:E; simpl; try tauto;
    intros _; rewrite E; reflexivity.
Qed.

(** ** The interpolated value *)

Definition eps : Q := 1 # 8589934592.

Lemma err_eps (B : Z) : B <= 18 -> (err B <= eps)%Q.
Proof.
  intros HB. unfold err.
  apply (Qle_trans _ (pow2 (-33))).
  - apply pow2_le. rewrite fexp64. lia.
  - vm_compute. discriminate.
Qed.

Lemma Freal_one : Freal 1%float /\ (Fval 1%float == 1)%Q.
Proof. split; vm_compute; reflexivity. Qed.

Lemma product_bound (z t Z0 T : Q) :
  (- Z0 <= z <= Z0 -> - T <= t <= T -> - (Z0 * T) <= z * t <= Z0 * T)%Q.
Proof. intros Hz Ht. nra. Qed.

(** The arithmetic of the bound: the rounded steps of the interpolation
    stay within half a unit of the 16-bit range. *)
Lemma interpolation_arith (z0 z1 r f g a b v : Q) :
  (-32768 <= z0 <= 32767 -> -32768 <= z1 <= 32767 ->
   0 <= r < 1 ->
   - eps < f - r < eps ->
   - eps < g - (1 - f) < eps ->
   - eps < a - z0 * g < eps ->
   - eps < b - z1 * f < eps ->
   - eps < v - (a + b) < eps ->
   - (65537 # 2) < v < 65535 # 2)%Q.
Proof.
  intros H0 H1 Hr Hf Hg Ha Hb Hv. unfold eps in *.
  assert (A1 : (- (32768 * (1 # 8589934592)) <= z0 * (g - (1 - f))
                <= 32768 * (1 # 8589934592))%Q)
    by (apply product_bound; lra).
  assert (A2 : (- (65535 * (1 # 8589934592)) <= (z1 - z0) * (f - r)
                <= 65535 * (1 # 8589934592))%Q)
    by (apply product_bound; lra).
  assert (A3 : (-32768 <= z0 * (1 - r) + z1 * r <= 32767)%Q) by nra.
  split; nra.
Qed.

Definition sample_operand (s : float) : Prop :=
  Fnan s \/ exists z, int16 z /\ s = Number z.

Lemma Fnan_not_real (x : float) : Fnan x -> ~ Freal x.
Proof. unfold Fnan, Freal. intros ->. simpl. tauto. Qed.

Lemma int16_Q (z : Z) : int16 z -> (-32768 <= inject_Z z <= 32767)%Q.
Proof.
  unfold int16. intros [Hlo Hhi].
  change (-32768)%Q with (inject_Z (-32768)).
  change 32767%Q with (inject_Z 32767).
  rewrite <- !Zle_Qle. lia.
Qed.

(** Lines 85-89 for any position [idx] and any two operands read from the
    samples: what is stored is a 16-bit integer as it stands. *)
Lemma interpolated_int16 (idx s0 s1 : float) :
  sample_operand s0 -> sample_operand s1 ->
  int16 (IntegerValue
           (Math_round (s0 * (1 - (idx - Math_floor idx))
                        + s1 * (idx - Math_floor idx))%float)).
Proof.
  intros Hs0 Hs1.
  set (frac := (idx - Math_floor idx)%float).
  assert (Hzero : forall v, Fnan v -> int16 (IntegerValue (Math_round v))).
  { intros v Hv. rewrite rounded_not_real by (apply Fnan_not_real, Hv).
    unfold int16. lia. }
  destruct Hs0 as [Hn0 | (z0 & Hz0 & ->)];
    [apply Hzero, add_nan_l, mul_nan_l, Hn0 |].
  destruct Hs1 as [Hn1 | (z1 & Hz1 & ->)];
    [apply Hzero, add_nan_r, mul_nan_l, Hn1 |].
  assert (Hreal_dec : Freal idx \/ ~ Freal idx).
  { unfold Freal. destruct (Prim2SF idx); simpl; tauto. }
  destruct Hreal_dec as [Hidx | Hidx].
  - destruct (Math_floor_spec idx Hidx) as [Hi0 Hr].
    set (r := (Fval idx - Fval (Math_floor idx))%Q) in *.
    pose proof (err_eps 0 ltac:(lia)) as E0.
    pose proof (err_eps 1 ltac:(lia)) as E1.
    pose proof (err_eps 17 ltac:(lia)) as E17.
    pose proof (err_eps 18 ltac:(lia)) as E18.
    assert (Heps : (eps == 1 # 8589934592)%Q) by reflexivity.
    destruct (sub_float idx (Math_floor idx) 0 Hidx Hi0) as [Hfr Hf];
      [fold r; rewrite pow2_0; lra | lia |].
    fold frac r in Hfr, Hf.
    destruct Freal_one as [H1r H1v].
    destruct (sub_float 1 frac 1 H1r Hfr) as [Hgr Hg];
      [rewrite H1v; change (pow2 1) with 2%Q; lra | lia |].
    rewrite H1v in Hg.
    destruct (Number_exact z0 ltac:(unfold int16 in Hz0; lia)) as [Hz0r Hz0v].
    destruct (Number_exact z1 ltac:(unfold int16 in Hz1; lia)) as [Hz1r Hz1v].
    pose proof (int16_Q z0 Hz0) as Hq0. pose proof (int16_Q z1 Hz1) as Hq1.
    set (g := (1 - frac)%float) in *.
    assert (Hgb : (-2 <= Fval g <= 2)%Q) by lra.
    assert (Hfb : (-2 <= Fval frac <= 2)%Q) by lra.
    destruct (mul_float (Number z0) g 17 Hz0r Hgr) as [Har Ha];
      [| lia |].
    { rewrite Hz0v. change (pow2 17) with 131072%Q.
      pose proof (product_bound (inject_Z z0) (Fval g) 32768 2
                    ltac:(lra) Hgb). lra. }
    destruct (mul_float (Number z1) frac 17 Hz1r Hfr) as [Hbr Hb];
      [| lia |].
    { rewrite Hz1v. change (pow2 17) with 131072%Q.
      pose proof (product_bound (inject_Z z1) (Fval frac) 32768 2
                    ltac:(lra) Hfb). lra. }
    rewrite Hz0v in Ha. rewrite Hz1v in Hb.
    set (a := (Number z0 * g)%float) in *.
    set (b := (Number z1 * frac)%float) in *.
    pose proof (product_bound (inject_Z z0) (Fval g) 32768 2
                  ltac:(lra) Hgb) as Pa.
    pose proof (product_bound (inject_Z z1) (Fval frac) 32768 2
                  ltac:(lra) Hfb) as Pb.
    destruct (add_float a b 18 Har Hbr) as [Hvr Hv];
      [change (pow2 18) with 262144%Q; lra | lia |].
    apply rounded_int16; [exact Hvr |].
    apply (interpolation_arith (inject_Z z0) (inject_Z z1) r
             (Fval frac) (Fval g) (Fval a) (Fval b)); try assumption; lra.
  - assert (Hfloor : Math_floor idx = idx).
    { unfold Math_floor. unfold Freal in Hidx.
      destruct (Prim2SF idx); simpl in Hidx; try tauto; reflexivity. }
    assert (Hfrac : Fnan frac).
    { unfold frac. rewrite Hfloor. apply sub_self_not_real, Hidx. }
    apply Hzero, add_nan_l, mul_nan_r, sub_nan_r, Hfrac.
Qed.

Lemma sampleAt_operand (samples : list Z) (j : float) :
  Forall int16 samples -> sample_operand (sampleAt samples j).
Proof.
  intros Hall. unfold sampleAt, sample_operand.
  destruct (is_finite j); [| left; reflexivity].
  destruct (getIdx samples (IntegerValue j)) as [s |] eqn:E;
    [| left; reflexivity].
  right. exists s. split; [| reflexivity].
  unfold getIdx in E. destruct (IntegerValue j <? 0); [discriminate |].
  rewrite Forall_lookup in Hall. exact (Hall _ _ E).
Qed.

Lemma resample_lookup (origSampleRate : Z) (samples : list Z) (i : nat) :
  origSampleRate <> targetRate ->
  (i < length (resample origSampleRate samples))%nat ->
  resample origSampleRate samples !! i
  = Some (ToInt16 (interpolate samples
                     (Number targetRate / Number origSampleRate)%float
                     (Z.of_nat i))).
Proof.
  intros Hne Hi. rewrite length_resample in Hi. unfold resample.
  destruct (Z.eqb_spec origSampleRate targetRate) as [? | _]; [contradiction |].
  rewrite list_lookup_fmap, lookup_seqZ_lt by lia. reflexivity.
Qed.


End Binary64.

Module ResamplerSpec.

(** C5.  Identity law: when the source rate equals the target rate the
    resampler returns its input unchanged, sample for sample. *)
Theorem resample_identity (samples : list Z) :
  resample targetRate samples = samples.
Proof. unfold resample. rewrite Z.eqb_refl. reflexivity. Qed.



(** C6.  Per-sample formula: for a mono input of 16-bit samples and a
    source rate other than the target rate, the output sample at index [i]
    is [round (input[i0] * (1 - frac) + input[i1] * frac)] clamped to the
    16-bit range, where [idx = i / ratio], [i0 = floor idx],
    [i1 = min (i0 + 1) (inputLength - 1)], [frac = idx - i0] and
    [ratio = targetRate / sourceRate].  (The code stores the rounded value
    in an [Int16Array], which wraps; the value is always within the 16-bit
    range, so wrapping and clamping both leave it as it is.) *)
Theorem resample_sample (origSampleRate : Z) (samples : list Z) (i : nat) :
  Forall int16 samples ->
  origSampleRate <> targetRate ->
  (i < length (resample origSampleRate samples))%nat ->
  let ratio := (Number targetRate / Number origSampleRate)%float in
  let idx := (Number (Z.of_nat i) / ratio)%float in
  let i0 := Math_floor idx in
  let i1 := Math_min (i0 + 1)%float (Number (Z.of_nat (length samples) - 1)) in
  let frac := (idx - i0)%float in
  resample origSampleRate samples !! i
  = Some (clamp16 (IntegerValue
            (Math_round (sampleAt samples i0 * (1 - frac)
                         + sampleAt samples i1 * frac)%float))).
Proof.
  intros Hall Hne Hi. cbv zeta.
  rewrite (resample_lookup origSampleRate samples i Hne Hi).
  unfold interpolate, ToInt16. cbv zeta. f_equal.
  set (idx := (Number (Z.of_nat i) / (Number targetRate / Number origSampleRate))%float).
  pose proof (interpolated_int16 idx
                (sampleAt samples (Math_floor idx))
                (sampleAt samples (Math_min (Math_floor idx + 1)%float
                                     (Number (Z.of_nat (length samples) - 1))))
                (sampleAt_operand _ _ Hall) (sampleAt_operand _ _ Hall)) as H.
  rewrite wrap16_id, clamp16_id by exact H. reflexivity.
Qed.

Lemma resample_sample_witness :
  resample 24000 [0; 100; 200] !! 1%nat = Some 50.
Proof.
  pose proof (resample_sample 24000 [0; 100; 200] 1%nat) as H.
  cbv zeta in H. rewrite H.
  - vm_compute. reflexivity.
  - repeat constructor; unfold int16; lia.
  - discriminate.
  - vm_compute. lia.
Defined.

End ResamplerSpec.

(** ** Frame pacer *)

Section PacerFacts.

Import Pacer.

Lemma drop_inputPcm (o : nat) (xs : list Z) :
  drop (2 * o) (inputPcm xs) = inputPcm (drop o xs).
Proof.
  revert xs. induction o as [| o IH]; intros xs; [reflexivity |].
  destruct xs as [| x xs]; [reflexivity |].
  replace (2 * S o)%nat with (S (S (2 * o))) by lia.
  exact (IH xs).
Qed.

Lemma take_inputPcm (n : nat) (xs : list Z) :
  take (2 * n) (inputPcm xs) = inputPcm (take n xs).
Proof.
  revert xs. induction n as [| n IH]; intros xs; [reflexivity |].
  destruct xs as [| x xs]; [reflexivity |].
  replace (2 * S n)%nat with (S (S (2 * n))) by lia.
  change (inputPcm (x :: xs)) with (writeInt16LE x ++ inputPcm xs).
  change (inputPcm (take (S n) (x :: xs)))
    with (writeInt16LE x ++ inputPcm (take n xs)).
  simpl. rewrite IH. reflexivity.
Qed.

(** A frame as the specification describes it: the next [n] samples, and
    zeros after them when fewer than [n] are left. *)
Definition padded (n : nat) (ys : list Z) : list Z :=
  take n ys ++ replicate (n - length (take n ys)) 0.

Lemma length_padded (n : nat) (ys : list Z) : length (padded n ys) = n.
Proof.
  unfold padded. rewrite length_app, length_replicate, length_take. lia.
Qed.

Lemma frameAt_padded (F : Z) (xs : list Z) (o : nat) :
  0 < F -> Forall int16 xs ->
  frameAt F (inputPcm xs) (2 * Z.of_nat o) = padded (Z.to_nat F) (drop o xs).
Proof.
  intros HF Hxs. unfold frameAt, slice.
  set (n := Z.to_nat F).
  replace (Z.to_nat (2 * Z.of_nat o + F * 2 - 2 * Z.of_nat o))
    with (2 * n)%nat by lia.
  replace (Z.to_nat (2 * Z.of_nat o)) with (2 * o)%nat by lia.
  rewrite drop_inputPcm, take_inputPcm.
  set (t := take n (drop o xs)).
  assert (Ht : Forall int16 t) by (apply Forall_take, Forall_drop, Hxs).
  assert (Hlen : (length t <= n)%nat) by (unfold t; rewrite length_take; lia).
  rewrite length_inputPcm.
  assert (Hview : Int16Array_of_bytes
                    (inputPcm (t ++ replicate (n - length t) 0))
                  = t ++ replicate (n - length t) 0).
  { apply view_inputPcm, Forall_app. split; [exact Ht |].
    apply Forall_int16_zeros. }
  destruct (Z.ltb_spec (Z.of_nat (2 * length t)) (F * 2)) as [Hlt | Hge].
  - replace (Z.to_nat (F * 2 - Z.of_nat (2 * length t)))
      with (2 * (n - length t))%nat by lia.
    rewrite <- inputPcm_zeros, <- inputPcm_app, Hview.
    rewrite take_ge by (rewrite length_app, length_replicate; lia).
    reflexivity.
  - assert (Hn : length t = n) by lia.
    rewrite view_inputPcm by exact Ht.
    rewrite take_ge by lia.
    unfold padded. fold t. rewrite Hn, Nat.sub_diag, app_nil_r. reflexivity.
Qed.

Lemma ceil_div_step (a F : Z) :
  0 < F -> ceil_div a F = 1 + ceil_div (a - F) F.
Proof.
  intros HF. unfold ceil_div.
  replace (a + F - 1) with ((a - F + F - 1) + 1 * F) by lia.
  rewrite Z.div_add by lia. lia.
Qed.

Lemma ceil_div_nonpos (a F : Z) :
  0 < F -> - F < a <= 0 -> ceil_div a F = 0.
Proof. intros HF Ha. unfold ceil_div. apply Z.div_small. lia. Qed.

Lemma ceil_div_nonneg (a F : Z) : 0 < F -> 0 <= a -> 0 <= ceil_div a F.
Proof. intros HF Ha. unfold ceil_div. apply Z.div_pos; lia. Qed.

Lemma ceil_div_bounds (a F : Z) :
  0 < F -> a <= ceil_div a F * F < a + F.
Proof.
  intros HF. unfold ceil_div.
  pose proof (Z.div_mod (a + F - 1) F ltac:(lia)).
  pose proof (Z.mod_pos_bound (a + F - 1) F HF). nia.
Qed.

(** Past the end of the buffer the loop sends nothing, whatever the fuel. *)
Lemma sendLoop_done (fuel : nat) (F : Z) (pcm : list Z) (off : Z) :
  Z.of_nat (length pcm) <= off -> sendLoop fuel F pcm off = [].
Proof.
  intros H. destruct fuel as [| fuel]; [reflexivity |]. simpl.
  destruct (Z.ltb_spec off (Z.of_nat (length pcm))); [lia | reflexivity].
Qed.

(** The loop from sample [o] on, with enough fuel: the count of frames, the
    length of each, and the samples they carry in order. *)
Lemma sendLoop_spec (F : Z) (xs : list Z) :
  0 < F -> Forall int16 xs ->
  forall (fuel o : nat),
    (o <= length xs)%nat ->
    (2 * (length xs - o) <= fuel)%nat ->
    let rest := Z.of_nat (length xs - o) in
    let frames := sendLoop fuel F (inputPcm xs) (2 * Z.of_nat o) in
    Z.of_nat (length frames) = ceil_div rest F
    /\ Forall (fun f => Z.of_nat (length f) = F) frames
    /\ concat frames
       = drop o xs ++ replicate (Z.to_nat (ceil_div rest F * F - rest)) 0.
Proof.
  intros HF Hxs. induction fuel as [| fuel IH]; intros o Ho Hfuel.
  - assert (o = length xs) by lia. subst o.
    rewrite Nat.sub_diag. simpl. rewrite drop_all.
    rewrite ceil_div_nonpos by lia. split; [reflexivity |].
    split; [constructor | reflexivity].
  - cbn zeta. simpl sendLoop. rewrite length_inputPcm.
    destruct (Z.ltb_spec (2 * Z.of_nat o) (Z.of_nat (2 * length xs)))
      as [Hlt | Hge].
    + rewrite (frameAt_padded F xs o HF Hxs).
      set (n := Z.to_nat F).
      destruct (le_lt_dec (length xs) (o + n)) as [Hlast | Hmore].
      * (* the last frame *)
        rewrite sendLoop_done by (rewrite length_inputPcm; lia).
        rewrite (ceil_div_step _ F HF), ceil_div_nonpos by lia.
        split; [simpl; lia |].
        split; [constructor; [rewrite length_padded; lia | constructor] |].
        simpl. rewrite app_nil_r. unfold padded.
        rewrite take_ge by (rewrite length_drop; lia).
        rewrite length_drop. f_equal. f_equal. lia.
      * (* a full frame, and more to send *)
        replace (2 * Z.of_nat o + F * 2) with (2 * Z.of_nat (o + n)) by lia.
        destruct (IH (o + n)%nat ltac:(lia) ltac:(lia)) as (Hcount & Hlens & Hcat).
        cbn zeta in Hcount, Hlens, Hcat.
        replace (Z.of_nat (length xs - (o + n)))
          with (Z.of_nat (length xs - o) - F) in Hcount, Hcat by lia.
        rewrite (ceil_div_step (Z.of_nat (length xs - o)) F HF).
        split; [simpl; lia |].
        split; [constructor; [rewrite length_padded; lia | exact Hlens] |].
        simpl. rewrite Hcat. unfold padded.
        rewrite length_take, length_drop.
        replace (n - n `min` (length xs - o))%nat with 0%nat by lia.
        simpl. rewrite app_nil_r, app_assoc.
        rewrite <- (drop_drop xs n o), take_drop.
        f_equal. f_equal. lia.
    + assert (o = length xs) by lia. subst o.
      rewrite Nat.sub_diag. simpl. rewrite drop_all.
      rewrite ceil_div_nonpos by lia. split; [reflexivity |].
      split; [constructor | reflexivity].
Qed.

End PacerFacts.

Module PacerSpec.

Import Pacer.

(** C3.  Framing: for an input of [L] samples and a frame size [F], the
    pacer sends exactly [ceil (L / F)] frames, each of exactly [F] samples;
    laid end to end, in the order sent, the frames are the input followed
    by the zeros that fill the last frame: no sample is dropped, repeated
    or moved. *)
Theorem pacer_framing (F : Z) (resampled : list Z) :
  0 < F ->
  Forall int16 resampled ->
  let L := Z.of_nat (length resampled) in
  let frames := sentFrames F (inputPcm resampled) in
  Z.of_nat (length frames) = ceil_div L F
  /\ Forall (fun f => Z.of_nat (length f) = F) frames
  /\ concat frames
     = resampled ++ replicate (Z.to_nat (ceil_div L F * F - L)) 0.
Proof.
  intros HF Hxs. cbn zeta. unfold sentFrames.
  pose proof (sendLoop_spec F resampled HF Hxs
                (length (inputPcm resampled)) 0%nat) as H.
  rewrite length_inputPcm in H |- *.
  specialize (H ltac:(lia) ltac:(lia)). cbn zeta in H.
  rewrite Nat.sub_0_r in H. exact H.
Qed.

(** The program's own frame size, 480 samples, on a 3-sample input: one
    frame, the three samples and 477 zeros. *)
Lemma pacer_framing_witness :
  Z.of_nat (length (pace [1; -2; 3])) = ceil_div 3 frameSize
  /\ Forall (fun f => Z.of_nat (length f) = frameSize) (pace [1; -2; 3])
  /\ concat (pace [1; -2; 3])
     = [1; -2; 3] ++ replicate (Z.to_nat (ceil_div 3 frameSize * frameSize - 3)) 0.
Proof.
  apply (pacer_framing frameSize [1; -2; 3]).
  - reflexivity.
  - repeat constructor; unfold int16; lia.
Defined.

End PacerSpec.

(** ** Completion watcher *)

Module WatcherSpec.

Import Watcher.






End WatcherSpec.

(** ** Timeline mixer *)

Section MixerFacts.

Import Mixer.

(** What one buffer sample [c] landing on an element [v] leaves there. *)
Definition addAt (v : Z) (c : option Z) : Z :=
  match c with
  | Some s => clamp16 (v + s)
  | None => v
  end.

(** The sample of a buffer placed at [pos] that lands on index [k], if
    any. *)
Definition landing (bp : GptBuffer * Z) (k : nat) : option Z :=
  getIdx (samples bp.1) (Z.of_nat k - bp.2).

(** The samples landing on index [k], in the order the buffers are
    applied. *)
Definition contributions (placed : list (GptBuffer * Z)) (k : nat) : list Z :=
  omap (fun bp => landing bp k) placed.

(** Additions made one after the other, each clamped as it is made. *)
Definition satSum (v : Z) (cs : list Z) : Z :=
  foldl (fun a s => clamp16 (a + s)) v cs.

(** The sum of all contributions, with no clamping. *)
Definition plainSum (v : Z) (cs : list Z) : Z :=
  foldl Z.add v cs.

Lemma orZero_Some (v : Z) : orZero (Some v) = v.
Proof. simpl. destruct (Z.eqb_spec v 0); congruence. Qed.

Lemma length_mixSample (out : list Z) (j s : Z) :
  length (mixSample out j s) = length out.
Proof.
  unfold mixSample, setIdx. destruct (j <? 0); [reflexivity |].
  apply length_insert.
Qed.

Lemma mixSample_lookup (out : list Z) (j s : Z) (k : nat) (v : Z) :
  out !! k = Some v ->
  mixSample out j s !! k
  = Some (if j =? Z.of_nat k then clamp16 (v + s) else v).
Proof.
  intros Hk. unfold mixSample, setIdx, getIdx.
  destruct (Z.ltb_spec j 0) as [Hneg | Hpos].
  - destruct (Z.eqb_spec j (Z.of_nat k)); [lia | exact Hk].
  - destruct (Z.eqb_spec j (Z.of_nat k)) as [-> | Hne].
    + rewrite Nat2Z.id, Hk, orZero_Some.
      rewrite list_lookup_insert_eq by (eapply lookup_lt_Some, Hk).
      f_equal. apply wrap16_id, clamp16_int16.
    + rewrite list_lookup_insert_ne by lia. exact Hk.
Qed.

Lemma length_mixFrom (rest out : list Z) (pos i : Z) :
  length (mixFrom out pos i rest) = length out.
Proof.
  revert out i. induction rest as [| s rest IH]; intros out i; simpl;
    [reflexivity |].
  rewrite IH. apply length_mixSample.
Qed.

Lemma getIdx_cons (s : Z) (rest : list Z) (d : Z) :
  getIdx (s :: rest) d = if d =? 0 then Some s else getIdx rest (d - 1).
Proof.
  unfold getIdx.
  destruct (Z.eqb_spec d 0) as [-> | Hd]; [reflexivity |].
  destruct (Z.ltb_spec d 0), (Z.ltb_spec (d - 1) 0); try lia; [reflexivity |].
  replace (Z.to_nat d) with (S (Z.to_nat (d - 1))) by lia. reflexivity.
Qed.

Lemma getIdx_neg (l : list Z) (d : Z) : d < 0 -> getIdx l d = None.
Proof. intros H. unfold getIdx. destruct (Z.ltb_spec d 0); [reflexivity | lia]. Qed.

(** The inner loop, element by element. *)
Lemma mixFrom_lookup (rest out : list Z) (pos i : Z) (k : nat) (v : Z) :
  out !! k = Some v ->
  mixFrom out pos i rest !! k
  = Some (addAt v (getIdx rest (Z.of_nat k - pos - i))).
Proof.
  revert out i v. induction rest as [| s rest IH]; intros out i v Hk; simpl.
  - rewrite Hk. unfold getIdx.
    destruct (Z.of_nat k - pos - i <? 0); [reflexivity |].
    rewrite lookup_nil. reflexivity.
  - rewrite (IH _ (i + 1) _ (mixSample_lookup out (pos + i) s k v Hk)).
    rewrite getIdx_cons.
    replace (Z.of_nat k - pos - (i + 1)) with (Z.of_nat k - pos - i - 1) by lia.
    destruct (Z.eqb_spec (pos + i) (Z.of_nat k)) as [E | E].
    + replace (Z.of_nat k - pos - i) with 0 by lia.
      change (0 =? 0) with true. cbv iota.
      rewrite (getIdx_neg rest (0 - 1)) by lia. reflexivity.
    + destruct (Z.eqb_spec (Z.of_nat k - pos - i) 0); [lia | reflexivity].
Qed.

Lemma mixBuffer_lookup (out : list Z) (pos : Z) (buf : list Z) (k : nat) (v : Z) :
  out !! k = Some v ->
  mixBuffer out pos buf !! k = Some (addAt v (getIdx buf (Z.of_nat k - pos))).
Proof.
  intros Hk. unfold mixBuffer. rewrite (mixFrom_lookup buf out pos 0 k v Hk).
  rewrite Z.sub_0_r. reflexivity.
Qed.

Lemma length_mixAll (placed : list (GptBuffer * Z)) (out : list Z) :
  length (mixAll out placed) = length out.
Proof.
  revert out. induction placed as [| bp placed IH]; intros out; simpl;
    [reflexivity |].
  unfold mixAll in IH |- *. simpl. rewrite IH. apply length_mixFrom.
Qed.

Lemma satSum_addAt (placed : list (GptBuffer * Z)) (k : nat) (v : Z) :
  foldl (fun a bp => addAt a (landing bp k)) v placed
  = satSum v (contributions placed k).
Proof.
  revert v. induction placed as [| bp placed IH]; intros v; simpl;
    [reflexivity |].
  unfold contributions in *. simpl.
  destruct (landing bp k) as [s |]; simpl; apply IH.
Qed.

(** The second [forEach], element by element: the contributions are added
    in buffer order, each addition clamped. *)
Lemma mixAll_lookup (placed : list (GptBuffer * Z)) (out : list Z) (k : nat) (v : Z) :
  out !! k = Some v ->
  mixAll out placed !! k = Some (satSum v (contributions placed k)).
Proof.
  rewrite <- satSum_addAt.
  revert out v. induction placed as [| bp placed IH]; intros out v Hk; simpl.
  - exact Hk.
  - unfold mixAll in IH |- *. simpl.
    apply IH, mixBuffer_lookup, Hk.
Qed.

Lemma maxIndex_ge (placed : list (GptBuffer * Z)) (init : Z) :
  init <= maxIndex init placed.
Proof.
  revert init. induction placed as [| bp placed IH]; intros init; simpl;
    [lia |].
  unfold maxIndex in IH |- *. simpl.
  etransitivity; [| apply IH]. lia.
Qed.

Lemma Int16Array_of_bytes_int16 (bytes : list Z) :
  Forall int16 (Int16Array_of_bytes bytes).
Proof.
  assert (H : forall n bs, (length bs < n)%nat ->
                           Forall int16 (Int16Array_of_bytes bs)).
  { induction n as [| n IH]; intros bs Hn; [lia |].
    destruct bs as [| lo [| hi rest]]; simpl; try constructor.
    - apply wrap16_int16.
    - apply IH. simpl in Hn. lia. }
  apply (H (S (length bytes))). lia.
Qed.

(** The output before the buffers are mixed in: the input, then zeros up
    to [maxIndex]. *)
Definition initialOutput (inputPcm : list Z) (placed : list (GptBuffer * Z))
  : list Z :=
  let inputSamples := Int16Array_of_bytes inputPcm in
  inputSamples
    ++ replicate (Z.to_nat (maxIndex (Z.of_nat (length inputSamples)) placed)
                  - length inputSamples) 0.

Lemma mixPlaced_total (inputPcm : list Z) (placed : list (GptBuffer * Z)) :
  mixPlaced inputPcm placed
  = Some (mixAll (initialOutput inputPcm placed) placed).
Proof.
  unfold mixPlaced, TypedArray_set, initialOutput. cbn zeta.
  set (input := Int16Array_of_bytes inputPcm).
  pose proof (maxIndex_ge placed (Z.of_nat (length input))) as Hge.
  rewrite length_replicate.
  destruct (Nat.ltb_spec (Z.to_nat (maxIndex (Z.of_nat (length input)) placed))
              (length input)) as [Hlt | Hle]; [lia |].
  simpl. rewrite drop_replicate. reflexivity.
Qed.

Lemma length_initialOutput (inputPcm : list Z) (placed : list (GptBuffer * Z)) :
  Z.of_nat (length (initialOutput inputPcm placed))
  = maxIndex (Z.of_nat (length (Int16Array_of_bytes inputPcm))) placed.
Proof.
  unfold initialOutput. cbn zeta.
  pose proof (maxIndex_ge placed
                (Z.of_nat (length (Int16Array_of_bytes inputPcm)))).
  rewrite length_app, length_replicate. lia.
Qed.

Lemma zip_offsets (startTime : Z) (gptBuffers : list GptBuffer) :
  zip gptBuffers (offsets startTime gptBuffers)
  = map (fun b => (b, offsetOf startTime (time b))) gptBuffers.
Proof.
  unfold offsets. induction gptBuffers as [| b bs IH]; simpl;
    [reflexivity | f_equal; exact IH].
Qed.

End MixerFacts.

Section MixerSums.

Import Mixer.









Lemma offsetOf_after (startTime d : Z) :
  offsetOf startTime (startTime + d) = offsetOf 0 d.
Proof. unfold offsetOf. f_equal. f_equal. f_equal. f_equal. f_equal. f_equal. lia. Qed.


End MixerSums.

Module MixerSpec.

Import Mixer.

(** C8.  Identity: with no inbound buffer the mix is the input sequence
    itself, sample for sample and of the same length. *)
Theorem mixer_identity (input : list Z) (startTime : Z) :
  Forall int16 input ->
  mixer (inputPcm input) startTime [] = Some input.
Proof.
  intros Hin. unfold mixer. simpl zip.
  rewrite mixPlaced_total. unfold initialOutput. cbn zeta.
  rewrite (view_inputPcm input Hin). simpl maxIndex.
  replace (Z.to_nat (Z.of_nat (length input)) - length input)%nat
    with 0%nat by lia.
  simpl. rewrite app_nil_r. reflexivity.
Qed.

Lemma mixer_identity_witness :
  mixer (inputPcm [12; -32768; 0; 32767]) 5 [] = Some [12; -32768; 0; 32767].
Proof.
  apply (mixer_identity [12; -32768; 0; 32767] 5).
  repeat constructor; unfold int16; lia.
Defined.

(** The mix expected in the end-to-end scenario. *)
Definition scenario_output : list Z :=
  replicate (Z.to_nat 24000) 0 ++ replicate 10 1000
    ++ replicate (Z.to_nat 23990) 0.

Fixpoint list_eqb (l1 l2 : list Z) : bool :=
  match l1, l2 with
  | [], [] => true
  | x :: l1', y :: l2' => (x =? y) && list_eqb l1' l2'
  | _, _ => false
  end.

Lemma list_eqb_eq (l1 l2 : list Z) : list_eqb l1 l2 = true -> l1 = l2.
Proof.
  revert l2. induction l1 as [| x l1 IH]; intros [| y l2]; simpl;
    try discriminate; [reflexivity |].
  intros H. apply andb_prop in H as [Hxy Hrest].
  apply Z.eqb_eq in Hxy. f_equal; [exact Hxy | exact (IH l2 Hrest)].
Qed.

Lemma scenario_mix (t : Z) :
  mixPlaced (inputPcm (replicate (Z.to_nat 48000) 0))
            [({| samples := replicate 10 1000; time := t |}, 24000)]
  = Some scenario_output.
Proof.
  rewrite mixPlaced_total. apply (f_equal Some), list_eqb_eq.
  vm_compute. reflexivity.
Qed.

Lemma three_part_lookup (a b c : nat) (x y : Z) (j : Z) :
  0 <= j < Z.of_nat a + Z.of_nat b + Z.of_nat c ->
  getIdx (replicate a x ++ replicate b y ++ replicate c x) j
  = Some (if (Z.of_nat a <=? j) && (j <? Z.of_nat a + Z.of_nat b)
          then y else x).
Proof.
  intros Hj. unfold getIdx.
  destruct (Z.ltb_spec j 0); [lia |].
  destruct (Z.leb_spec (Z.of_nat a) j) as [H1 | H1]; cbv [andb].
  - rewrite lookup_app_r by (rewrite length_replicate; lia).
    rewrite length_replicate.
    destruct (Z.ltb_spec j (Z.of_nat a + Z.of_nat b)) as [H2 | H2].
    + rewrite lookup_app_l by (rewrite length_replicate; lia).
      apply lookup_replicate_2. lia.
    + rewrite lookup_app_r by (rewrite length_replicate; lia).
      apply lookup_replicate_2. rewrite length_replicate. lia.
  - rewrite lookup_app_l by (rewrite length_replicate; lia).
    apply lookup_replicate_2. lia.
Qed.

Lemma scenario_lookup (j : Z) :
  0 <= j < 48000 ->
  getIdx scenario_output j
  = Some (if (24000 <=? j) && (j <=? 24009) then 1000 else 0).
Proof.
  intros Hj. unfold scenario_output.
  rewrite three_part_lookup; rewrite !Z2Nat.id by discriminate.
  - f_equal.
    destruct (Z.leb_spec 24000 j), (Z.ltb_spec j (24000 + Z.of_nat 10)),
             (Z.leb_spec j 24009); try reflexivity; exfalso;
      change (Z.of_nat 10) with 10 in *; lia.
  - change (Z.of_nat 10) with 10. lia.
Qed.

Lemma scenario_length : Z.of_nat (length scenario_output) = 48000.
Proof.
  unfold scenario_output.
  rewrite !length_app, !length_replicate, !Nat2Z.inj_add.
  rewrite !Z2Nat.id by discriminate. reflexivity.
Qed.

(** C1.  End-to-end scenario: the input is one second of silence (48000
    zero samples) and a single buffer of 10 samples of value 1000 arrives
    500 ms after the start; the mix has 48000 samples, those at indices
    24000 to 24009 are 1000 and every other one is 0. *)
Theorem end_to_end_scenario (startTime : Z) :
  exists out,
    mixer (inputPcm (replicate (Z.to_nat 48000) 0)) startTime
          [{| samples := replicate 10 1000;
              time := startTime + 500000000 |}]
    = Some out
    /\ Z.of_nat (length out) = 48000
    /\ forall j, 0 <= j < 48000 ->
         getIdx out j
         = Some (if (24000 <=? j) && (j <=? 24009) then 1000 else 0).
Proof.
  exists scenario_output. split; [| split].
  - unfold mixer.
    change (zip ?l (offsets startTime ?l))
      with [({| samples := replicate 10 1000; time := startTime + 500000000 |},
             offsetOf startTime (startTime + 500000000))].
    rewrite offsetOf_after.
    replace (offsetOf 0 500000000) with 24000 by (vm_compute; reflexivity).
    apply scenario_mix.
  - exact scenario_length.
  - exact scenario_lookup.
Qed.






End MixerSpec.

(** ** Downmix *)

Module DownmixSpec.

Import Downmix.

Definition stereo16 : Format :=
  {| sampleRate := 44100; bitDepth := 16; channels := 2 |}.

Lemma accumulate_failed (fmt : Format) (buffer : list Z) (i : Z) (cs : list Z) :
  foldl (fun a c =>
           a' ← a;
           s ← channelSample fmt buffer ((i * channels fmt + c) * bytesPerSample fmt);
           Some (a' + s)%float)
        None cs = None.
Proof. induction cs as [| c cs IH]; simpl; [reflexivity | exact IH]. Qed.

(** The channel loop adds up the channel samples, in channel order. *)
Lemma accumulate_sum (fmt : Format) (buffer : list Z) (i : Z) (cs : list Z) :
  forall acc,
    accumulate fmt buffer i acc cs
    = vals ← mapM (fun c => channelSample fmt buffer
                              ((i * channels fmt + c) * bytesPerSample fmt)) cs;
      Some (sumFrom acc vals).
Proof.
  unfold accumulate.
  induction cs as [| c cs IH]; intros acc; simpl; [reflexivity |].
  destruct (channelSample fmt buffer ((i * channels fmt + c) * bytesPerSample fmt))
    as [s |]; simpl.
  - rewrite IH.
    destruct (mapM _ cs) as [vals |]; reflexivity.
  - apply accumulate_failed.
Qed.


End DownmixSpec.

(** ** Binary64: rounding of quotients and of exact sums *)

Section Binary64Division.

(** ** Rounding from any position *)

Lemma shr_fexp_loc (m e : Z) (l : location) :
  0 <= m ->
  let n := fexp prec emax (Zdigits2 m + e) - e in
  exists mrs,
    shr_fexp prec emax m e l = (mrs, e + Z.max n 0)
    /\ shr_m mrs = m / 2 ^ Z.max n 0.
Proof.
  intros Hm n. unfold shr_fexp, shr. fold n.
  assert (Hrec : shr_m (shr_record_of_loc m l) = m)
    by (destruct l as [| []]; reflexivity).
  destruct n as [| p | p] eqn:En.
  - eexists. split; [rewrite Z.add_0_r; reflexivity |].
    simpl. rewrite Z.div_1_r. exact Hrec.
  - eexists. split; [reflexivity |].
    rewrite shr_iter_m by (rewrite Hrec; exact Hm). rewrite Hrec. reflexivity.
  - eexists. split; [rewrite Z.add_0_r; reflexivity |].
    simpl. rewrite Z.div_1_r. exact Hrec.
Qed.

Lemma Zdigits2_succ (m : Z) : 0 <= m -> Zdigits2 (m + 1) <= Zdigits2 m + 1.
Proof.
  intros Hm. pose proof (Zdigits2_nonneg m) as Hd.
  apply Zdigits2_le; [| lia]. split; [lia |].
  rewrite Z.pow_add_r, Z.pow_1_r by lia.
  destruct m as [| p | p]; [simpl; lia | | lia].
  pose proof (digits2_pos_bounds p) as [_ Hhi]. simpl Zdigits2. lia.
Qed.

Lemma Zdigits2_mono (a b : Z) : 0 <= a <= b -> Zdigits2 a <= Zdigits2 b.
Proof.
  intros [Ha Hab]. pose proof (Zdigits2_nonneg b) as Hd.
  apply Zdigits2_le; [| exact Hd]. split; [exact Ha |].
  destruct b as [| p | p]; [lia | | lia].
  pose proof (digits2_pos_bounds p) as [_ Hhi]. simpl Zdigits2. lia.
Qed.

(** Rounding a non-negative mantissa with the rest at any position: the
    result is a zero or a finite number whose exponent is at least the
    given one, less than two units of its exponent below the mantissa and
    at most one above. *)
Lemma binary_round_aux_crude (sx : bool) (q e : Z) (l : location) :
  0 <= q ->
  let D := Zdigits2 q + e in
  Z.max e (fexp prec emax (D + 1)) <= 971 ->
  exists m3 e3,
    binary_round_aux prec emax sx q e l
    = match m3 with
      | Z.pos p => S754_finite sx p e3
      | _ => S754_zero sx
      end
    /\ 0 <= m3
    /\ e <= e3 <= Z.max e (fexp prec emax (D + 1))
    /\ q - 2 ^ (e3 - e + 1) < m3 * 2 ^ (e3 - e) <= q + 2 ^ (e3 - e).
Proof.
  intros Hq D Hmax. unfold binary_round_aux.
  destruct (shr_fexp_loc q e l Hq) as (mrs1 & E1 & Hm1).
  fold D in E1, Hm1.
  set (k1 := Z.max (fexp prec emax D - e) 0) in *.
  assert (Hk1 : 0 <= k1) by (unfold k1; lia).
  rewrite E1.
  set (m2 := round_nearest_even (shr_m mrs1) (loc_of_shr_record mrs1)).
  pose proof (round_nearest_even_range (shr_m mrs1) (loc_of_shr_record mrs1)) as Hm2.
  fold m2 in Hm2. rewrite Hm1 in Hm2.
  set (m1 := q / 2 ^ k1) in *.
  assert (Hpow1 : 0 < 2 ^ k1) by (apply Z.pow_pos_nonneg; lia).
  assert (Hm1pos : 0 <= m1) by (apply Z.div_pos; lia).
  pose proof (Z.div_mod q (2 ^ k1) ltac:(lia)) as Hdm.
  pose proof (Z.mod_pos_bound q (2 ^ k1) Hpow1) as Hmod.
  fold m1 in Hdm.
  destruct (shr_fexp_loc m2 (e + k1) loc_Exact ltac:(lia)) as (mrs3 & E3 & Hm3).
  rewrite E3.
  set (k2 := Z.max (fexp prec emax (Zdigits2 m2 + (e + k1)) - (e + k1)) 0) in *.
  assert (Hk2 : 0 <= k2) by (unfold k2; lia).
  assert (Hpow2 : 0 < 2 ^ k2) by (apply Z.pow_pos_nonneg; lia).
  set (m3 := m2 / 2 ^ k2) in *.
  assert (Hm3pos : 0 <= m3) by (apply Z.div_pos; lia).
  pose proof (Z.div_mod m2 (2 ^ k2) ltac:(lia)) as Hdm3.
  pose proof (Z.mod_pos_bound m2 (2 ^ k2) Hpow2) as Hmod3.
  fold m3 in Hdm3.
  pose proof (Zdigits2_nonneg q) as Hdq.
  set (d := Zdigits2 q) in *.
  assert (Hdig : Zdigits2 m2 <= Z.max (d - k1) 0 + 1).
  { etransitivity; [apply (Zdigits2_mono m2 (m1 + 1)); lia |].
    etransitivity; [apply Zdigits2_succ; lia |].
    enough (Zdigits2 m1 <= Z.max (d - k1) 0) by lia.
    apply Zdigits2_le; [| lia]. split; [lia |].
    assert (Hqd : q < 2 ^ d).
    { unfold d. destruct q as [| p | p]; [simpl; lia | | lia].
      apply digits2_pos_bounds. }
    destruct (Z_le_gt_dec k1 d) as [Hle | Hgt].
    - rewrite Z.max_l by lia.
      apply Z.div_lt_upper_bound; [lia |].
      rewrite <- Z.pow_add_r by lia. replace (k1 + (d - k1)) with d by lia.
      exact Hqd.
    - rewrite Z.max_r by lia. simpl.
      assert (m1 = 0).
      { apply Z.div_small. split; [lia |].
        eapply Z.lt_le_trans; [exact Hqd |]. apply Z.pow_le_mono_r; lia. }
      lia. }
  assert (He3 : e + k1 + k2 <= Z.max e (fexp prec emax (D + 1))).
  { unfold k2, k1 in *. rewrite !fexp64 in *. unfold D in *. lia. }
  exists m3, (e + k1 + k2).
  split.
  { rewrite Hm3. fold m3.
    destruct m3 as [| p | p]; [reflexivity | | lia].
    destruct (Z.leb_spec (e + k1 + k2) (emax - prec)) as [_ | Hbad];
      [reflexivity |].
    change (emax - prec) with 971 in Hbad. lia. }
  split; [exact Hm3pos |].
  split; [lia |].
  replace (e + k1 + k2 - e) with (k1 + k2) by lia.
  replace (k1 + k2 + 1) with (1 + (k1 + k2)) by lia.
  rewrite !Z.pow_add_r, Z.pow_1_r by lia.
  nia.
Qed.

(** ** Shifting out zero bits is exact *)

Lemma shr_1_even (a : Z) :
  0 <= a ->
  shr_1 (Build_shr_record (a * 2) false false) = Build_shr_record a false false.
Proof.
  intros Ha. destruct a as [| p | p]; [reflexivity | | lia].
  replace (Z.pos p * 2) with (Z.pos p~0) by lia. reflexivity.
Qed.

Lemma shr_iter_even (p : positive) :
  forall a, 0 <= a ->
    SpecFloat.iter_pos shr_1 p (Build_shr_record (a * 2 ^ Z.pos p) false false)
    = Build_shr_record a false false.
Proof.
  induction p as [p IH | p IH |]; intros a Ha.
  - replace (a * 2 ^ Z.pos p~1) with (a * 2 ^ Z.pos p * 2 ^ Z.pos p * 2).
    + assert (0 <= a * 2 ^ Z.pos p) by (apply Z.mul_nonneg_nonneg; lia).
      assert (0 <= a * 2 ^ Z.pos p * 2 ^ Z.pos p)
        by (apply Z.mul_nonneg_nonneg; lia).
      cbn [SpecFloat.iter_pos].
      rewrite shr_1_even, IH, IH by assumption. reflexivity.
    + replace (Z.pos p~1) with (Z.pos p + Z.pos p + 1) by lia.
      rewrite !Z.pow_add_r, Z.pow_1_r by lia. lia.
  - replace (a * 2 ^ Z.pos p~0) with (a * 2 ^ Z.pos p * 2 ^ Z.pos p).
    + assert (0 <= a * 2 ^ Z.pos p) by (apply Z.mul_nonneg_nonneg; lia).
      cbn [SpecFloat.iter_pos].
      rewrite IH, IH by assumption. reflexivity.
    + replace (Z.pos p~0) with (Z.pos p + Z.pos p) by lia.
      rewrite !Z.pow_add_r by lia. lia.
  - cbn [SpecFloat.iter_pos]. change (2 ^ 1) with 2. apply shr_1_even, Ha.
Qed.

(** Rounding a mantissa whose bits to be shifted out are all zero. *)
Lemma binary_round_aux_divisible (sx : bool) (m m1 : positive) (e n1 : Z) :
  n1 = fexp prec emax (Z.pos (digits2_pos m) + e) - e ->
  0 < n1 ->
  Z.pos m = Z.pos m1 * 2 ^ n1 ->
  e + n1 <= 971 ->
  binary_round_aux prec emax sx (Z.pos m) e loc_Exact
  = S754_finite sx m1 (e + n1).
Proof.
  intros Hn1 Hpos Hm He. unfold binary_round_aux.
  assert (Hdig : Z.pos (digits2_pos m) = Z.pos (digits2_pos m1) + n1).
  { apply digits2_pos_unique. rewrite Hm.
    pose proof (digits2_pos_bounds m1) as [Hlo Hhi].
    replace (Z.pos (digits2_pos m1) + n1 - 1)
      with ((Z.pos (digits2_pos m1) - 1) + n1) by lia.
    rewrite !Z.pow_add_r by lia.
    assert (0 < 2 ^ n1) by (apply Z.pow_pos_nonneg; lia). nia. }
  assert (E1 : shr_fexp prec emax (Z.pos m) e loc_Exact
               = (Build_shr_record (Z.pos m1) false false, e + n1)).
  { unfold shr_fexp, shr. simpl Zdigits2. rewrite <- Hn1.
    destruct n1 as [| p | p]; try lia.
    simpl shr_record_of_loc. rewrite Hm, shr_iter_even by lia. reflexivity. }
  rewrite E1. simpl round_nearest_even.
  assert (E2 : shr_fexp prec emax (Z.pos m1) (e + n1) loc_Exact
               = (Build_shr_record (Z.pos m1) false false, e + n1)).
  { unfold shr_fexp, shr. simpl Zdigits2.
    replace (fexp prec emax (Z.pos (digits2_pos m1) + (e + n1)) - (e + n1))
      with 0; [reflexivity |].
    replace (Z.pos (digits2_pos m1) + (e + n1))
      with (Z.pos (digits2_pos m) + e) by lia. lia. }
  rewrite E2. simpl shr_m.
  destruct (Z.leb_spec (e + n1) (emax - prec)) as [_ | Hbad]; [reflexivity |].
  change (emax - prec) with 971 in Hbad. lia.
Qed.

(** A positive integer below [2 ^ 53], however it is written as a mantissa
    and an exponent, is rounded to itself. *)
Lemma binary_round_integer (sx : bool) (m : positive) (e S : Z) :
  (inject_Z (Z.pos m) * pow2 e == inject_Z S)%Q ->
  S < 2 ^ 53 ->
  SFreal (binary_round prec emax sx m e)
  /\ (SFval (binary_round prec emax sx m e)
      == (if sx then -1 else 1) * inject_Z S)%Q.
Proof.
  intros HS Hlt.
  assert (Hmag : (inject_Z (Z.pos m) * pow2 e < pow2 53)%Q).
  { rewrite HS, <- pow2_inject by lia. rewrite <- Zlt_Qlt. exact Hlt. }
  pose proof (digits_below m e 53 Hmag) as HD.
  set (D := Z.pos (digits2_pos m) + e) in *.
  destruct (Z_le_gt_dec (fexp prec emax D) e) as [Hfit | Hshift].
  - destruct (binary_round_spec sx m e 53 Hmag ltac:(lia))
      as (r & Er & Hreal & y & Hval & _ & Hexact).
    rewrite Er. split; [exact Hreal |].
    destruct (Hexact Hfit) as [Hy _]. rewrite Hval, Hy, HS. reflexivity.
  - unfold binary_round. rewrite shl_align_id by (fold D; lia).
    set (n1 := fexp prec emax D - e).
    assert (Hf : fexp prec emax D <= 0) by (rewrite fexp64; lia).
    assert (He : e < 0) by lia.
    (* the mantissa is S shifted left by - e *)
    assert (Hm : Z.pos m = S * 2 ^ (- e)).
    { apply inject_Z_injective.
      rewrite inject_Z_mult, pow2_inject by lia.
      rewrite <- HS, <- Qmult_assoc, <- pow2_add.
      replace (e + - e) with 0 by lia. rewrite pow2_0. ring. }
    assert (HSpos : 0 < S).
    { assert (0 < 2 ^ (- e)) by (apply Z.pow_pos_nonneg; lia). nia. }
    set (m1 := S * 2 ^ (- fexp prec emax D)).
    assert (Hm1 : 0 < m1).
    { unfold m1. apply Z.mul_pos_pos; [lia |]. apply Z.pow_pos_nonneg; lia. }
    assert (Hsplit : Z.pos m = Z.pos (Z.to_pos m1) * 2 ^ n1).
    { rewrite Z2Pos.id by exact Hm1. unfold m1, n1. rewrite Hm.
      rewrite <- Z.mul_assoc, <- Z.pow_add_r by lia.
      f_equal. f_equal. lia. }
    rewrite (binary_round_aux_divisible sx m (Z.to_pos m1) e n1)
      by (unfold n1; fold D; rewrite ?fexp64 in *; lia || exact Hsplit || reflexivity).
    split; [exact I |].
    rewrite SFval_finite, Z2Pos.id by exact Hm1.
    unfold m1, n1. replace (e + (fexp prec emax D - e)) with (fexp prec emax D) by lia.
    rewrite inject_Z_mult, pow2_inject by lia.
    rewrite <- Qmult_assoc, <- pow2_add.
    replace (- fexp prec emax D + fexp prec emax D) with 0 by lia.
    rewrite pow2_0. ring.
Qed.

Lemma binary_normalize_integer (M e S : Z) (szero : bool) :
  (inject_Z M * pow2 e == inject_Z S)%Q ->
  Z.abs S < 2 ^ 53 ->
  SFreal (binary_normalize prec emax M e szero)
  /\ (SFval (binary_normalize prec emax M e szero) == inject_Z S)%Q.
Proof.
  intros HS Hlt. unfold binary_normalize. destruct M as [| m | m].
  - split; [exact I |]. simpl SFval. rewrite <- HS.
    change (inject_Z 0) with 0%Q. ring.
  - destruct (binary_round_integer false m e S HS ltac:(lia)) as [Hr Hv].
    split; [exact Hr |]. rewrite Hv. ring.
  - assert (HS' : (inject_Z (Z.pos m) * pow2 e == inject_Z (- S))%Q).
    { rewrite inject_Z_opp, <- HS.
      change (Z.neg m) with (- Z.pos m). rewrite inject_Z_opp. ring. }
    destruct (binary_round_integer true m e (- S) HS' ltac:(lia)) as [Hr Hv].
    split; [exact Hr |]. rewrite Hv, inject_Z_opp. ring.
Qed.

(** The sum of two integer Numbers, when it is below [2 ^ 53] in magnitude,
    is computed exactly. *)
Lemma SFadd_integer (x y : spec_float) (a b : Z) :
  SFreal x -> SFreal y ->
  (SFval x == inject_Z a)%Q -> (SFval y == inject_Z b)%Q ->
  Z.abs (a + b) < 2 ^ 53 ->
  SFreal (SFadd prec emax x y)
  /\ (SFval (SFadd prec emax x y) == inject_Z (a + b))%Q.
Proof.
  intros Hx Hy Ha Hb Hlt. rewrite inject_Z_plus, <- Ha, <- Hb.
  destruct x as [sx | sx | | sx mx ex]; try contradiction;
  destruct y as [sy | sy | | sy my ey]; try contradiction.
  - unfold SFadd. destruct sx, sy; cbv iota;
      (split; [exact I | change (SFval (S754_zero _)) with 0%Q; ring]).
  - unfold SFadd. split; [exact I |].
    change (SFval (S754_zero sx)) with 0%Q. ring.
  - unfold SFadd. split; [exact I |].
    change (SFval (S754_zero sy)) with 0%Q. ring.
  - unfold SFadd. cbv zeta.
    set (ez := Z.min ex ey).
    set (M := cond_Zopp sx (Z.pos (fst (shl_align mx ex ez)))
              + cond_Zopp sy (Z.pos (fst (shl_align my ey ez)))).
    assert (HM : (inject_Z M * pow2 ez == inject_Z (a + b))%Q).
    { unfold M. rewrite !inject_Z_plus, Qmult_plus_distr_l.
      rewrite !SFval_aligned by (unfold ez; lia). rewrite Ha, Hb. reflexivity. }
    destruct (binary_normalize_integer M ez (a + b) false HM Hlt) as [Hr Hv].
    split; [exact Hr |]. rewrite Hv, inject_Z_plus, Ha, Hb. reflexivity.
Qed.

Lemma add_float_integer (x y : float) (a b : Z) :
  Freal x -> Freal y ->
  (Fval x == inject_Z a)%Q -> (Fval y == inject_Z b)%Q ->
  Z.abs (a + b) < 2 ^ 53 ->
  Freal (x + y)%float /\ (Fval (x + y)%float == inject_Z (a + b))%Q.
Proof. unfold Freal, Fval. rewrite add_spec. apply SFadd_integer. Qed.

(** ** Division *)

Lemma pow2_ge_1 (K : Z) : 0 <= K -> (1 <= pow2 K)%Q.
Proof. intros H. rewrite <- pow2_0. apply pow2_le. exact H. Qed.

Lemma err_double (B : Z) : (2 * err B == 4 * pow2 (fexp prec emax (B + 1)))%Q.
Proof. unfold err. rewrite pow2_succ. ring. Qed.

Lemma binary_round_aux_loc_spec (sx : bool) (q e : Z) (l : location)
  (Xp : Q) (B : Z) :
  0 <= q ->
  (inject_Z q * pow2 e <= Xp < (inject_Z q + 1) * pow2 e)%Q ->
  (Xp < pow2 B)%Q ->
  e <= fexp prec emax (B + 1) ->
  B <= 960 ->
  exists r,
    binary_round_aux prec emax sx q e l = r
    /\ SFreal r
    /\ (exists y, SFval r == (if sx then -1 else 1) * y
                  /\ - (2 * err B) < y - Xp < 2 * err B)%Q.
Proof.
  intros Hq [HXlo HXhi] Hmag He HB.
  set (D := Zdigits2 q + e).
  assert (HD : Z.max e (fexp prec emax (D + 1)) <= fexp prec emax (B + 1)).
  { destruct q as [| p | p]; [| | lia].
    - unfold D. simpl Zdigits2. rewrite !fexp64 in *. lia.
    - assert (Hp : (inject_Z (Z.pos p) * pow2 e < pow2 B)%Q) by lra.
      pose proof (digits_below p e B Hp).
      pose proof (fexp_mono (D + 1) (B + 1)). unfold D in *. simpl Zdigits2 in *.
      lia. }
  destruct (binary_round_aux_crude sx q e l Hq)
    as (m3 & e3 & Eq & Hm3 & He3 & Hlow & Hhigh);
    [fold D; pose proof (fexp64 (B + 1)) as HfB; lia |].
  fold D in He3.
  eexists. split; [exact Eq |].
  set (K := e3 - e) in *.
  assert (HK : 0 <= K) by (unfold K; lia).
  assert (HeK : e3 = K + e) by (unfold K; lia).
  assert (Hy : (- (2 * err B) < inject_Z m3 * pow2 e3 - Xp < 2 * err B)%Q).
  { rewrite err_double.
    assert (Hbig : (pow2 e3 <= pow2 (fexp prec emax (B + 1)))%Q)
      by (apply pow2_le; lia).
    rewrite HeK in Hbig |- *. rewrite pow2_add in Hbig |- *.
    pose proof (pow2_pos e) as Hpe. pose proof (pow2_ge_1 K HK) as HpK.
    rewrite Zlt_Qlt in Hlow. rewrite Zle_Qle in Hhigh.
    replace (K + 1) with (1 + K) in Hlow by lia.
    rewrite Z.pow_add_r, Z.pow_1_r in Hlow by lia.
    unfold Z.sub in Hlow.
    rewrite inject_Z_plus, inject_Z_opp, !inject_Z_mult in Hlow.
    rewrite inject_Z_plus, inject_Z_mult in Hhigh.
    rewrite pow2_inject in Hlow, Hhigh by exact HK.
    change (inject_Z 2) with 2%Q in Hlow.
    set (iq := inject_Z q) in *. set (i3 := inject_Z m3) in *.
    set (pK := pow2 K) in *. set (pe := pow2 e) in *.
    set (pb := pow2 (fexp prec emax (B + 1))) in *.
    assert (H1 : ((iq - 2 * pK) * pe < i3 * pK * pe)%Q) by nra.
    assert (H2 : (i3 * pK * pe <= (iq + pK) * pe)%Q) by nra.
    assert (H3 : (pe <= pK * pe)%Q) by nra.
    split; nra. }
  destruct m3 as [| p | p]; [| | lia].
  - split; [exact I |]. exists 0%Q.
    split; [simpl; ring |].
    change (inject_Z 0) with 0%Q in Hy. lra.
  - split; [exact I |]. exists (inject_Z (Z.pos p) * pow2 e3)%Q.
    split; [apply SFval_finite | exact Hy].
Qed.

Lemma new_location_exact (nb : Z) : new_location nb 0 = loc_Exact.
Proof.
  unfold new_location, new_location_even, new_location_odd.
  destruct (Z.even nb); reflexivity.
Qed.

(** The quotient mantissa, its exponent and the position of the rest. *)
Lemma SFdiv_core_spec (mx my : positive) (ex ey : Z) :
  exists q e' l r,
    SFdiv_core_binary prec emax (Z.pos mx) ex (Z.pos my) ey = (q, e', l)
    /\ 0 <= q
    /\ e' <= fexp prec emax (Z.pos (digits2_pos mx) + ex
                             - (Z.pos (digits2_pos my) + ey))
    /\ e' <= ex - ey
    /\ 0 <= r < Z.pos my
    /\ Z.pos mx * 2 ^ (ex - ey - e') = Z.pos my * q + r
    /\ (r = 0 -> l = loc_Exact).
Proof.
  unfold SFdiv_core_binary. simpl Zdigits2.
  set (e' := Z.min (fexp prec emax (Z.pos (digits2_pos mx) + ex
                                    - (Z.pos (digits2_pos my) + ey)))
                   (ex - ey)).
  set (s := ex - ey - e').
  assert (Hs : 0 <= s) by (unfold s, e'; lia).
  set (m' := match s with
             | 0 => Z.pos mx
             | Z.pos _ => Z.shiftl (Z.pos mx) s
             | Z.neg _ => 0
             end).
  assert (Hm' : m' = Z.pos mx * 2 ^ s).
  { unfold m'. destruct s as [| p | p] eqn:Es; [simpl; lia | | lia].
    apply Z.shiftl_mul_pow2. lia. }
  pose proof (Z_div_mod m' (Z.pos my) ltac:(lia)) as Hdiv.
  destruct (Z.div_eucl m' (Z.pos my)) as [q r].
  destruct Hdiv as [Hqr Hr].
  exists q, e', (new_location (Z.pos my) r), r.
  split; [reflexivity |].
  assert (Hm'pos : 0 <= m').
  { rewrite Hm'. apply Z.mul_nonneg_nonneg; [lia |].
    apply Z.pow_nonneg. lia. }
  split; [nia |].
  split; [unfold e'; lia |]. split; [unfold e'; lia |].
  split; [exact Hr |]. split; [fold s; rewrite <- Hm'; exact Hqr |].
  intros ->. apply new_location_exact.
Qed.

Lemma mantissa_Q_bounds (m : positive) (e : Z) :
  (pow2 (Z.pos (digits2_pos m) - 1 + e) <= inject_Z (Z.pos m) * pow2 e
   < pow2 (Z.pos (digits2_pos m) + e))%Q.
Proof.
  pose proof (digits2_pos_bounds m) as [Hlo Hhi].
  pose proof (pow2_pos e) as Hpe.
  rewrite !pow2_add.
  rewrite <- (pow2_inject (Z.pos (digits2_pos m) - 1)) by lia.
  rewrite <- (pow2_inject (Z.pos (digits2_pos m))) by lia.
  rewrite Zle_Qle in Hlo. rewrite Zlt_Qlt in Hhi.
  split; [apply Qmult_le_compat_r; lra | apply Qmult_lt_compat_r; lra].
Qed.

(** What [SFdiv] does on two finite numbers, in terms of the positive
    quotient [Xp]. *)
Lemma SFdiv_finite_core (mx my : positive) (ex ey : Z) (Xp : Q) (B : Z) :
  (Xp * (inject_Z (Z.pos my) * pow2 ey) == inject_Z (Z.pos mx) * pow2 ex)%Q ->
  (Xp < pow2 B)%Q ->
  exists q e' l r,
    SFdiv_core_binary prec emax (Z.pos mx) ex (Z.pos my) ey = (q, e', l)
    /\ 0 <= q
    /\ e' <= fexp prec emax B
    /\ 0 <= r < Z.pos my
    /\ (r = 0 -> l = loc_Exact)
    /\ (Xp * inject_Z (Z.pos my)
        == (inject_Z (Z.pos my) * inject_Z q + inject_Z r) * pow2 e')%Q
    /\ (inject_Z q * pow2 e' <= Xp < (inject_Z q + 1) * pow2 e')%Q.
Proof.
  intros HX Hmag.
  destruct (SFdiv_core_spec mx my ex ey)
    as (q & e' & l & r & Eq & Hq & He' & Hes & Hr & Hdiv & Hex).
  exists q, e', l, r.
  split; [exact Eq |]. split; [exact Hq |].
  pose proof (pow2_pos ex) as Hpex. pose proof (pow2_pos ey) as Hpey.
  pose proof (pow2_pos e') as Hpe'.
  assert (Hmy : (0 < inject_Z (Z.pos my))%Q)
    by (change 0%Q with (inject_Z 0); rewrite <- Zlt_Qlt; lia).
  assert (Hmx : (0 < inject_Z (Z.pos mx))%Q)
    by (change 0%Q with (inject_Z 0); rewrite <- Zlt_Qlt; lia).
  assert (HXpos : (0 < Xp)%Q).
  { assert (Hprod : (0 < Xp * (inject_Z (Z.pos my) * pow2 ey))%Q)
      by (rewrite HX; nra).
    set (Y := (inject_Z (Z.pos my) * pow2 ey)%Q) in *.
    assert (HY : (0 < Y)%Q) by (unfold Y; nra).
    destruct (Qlt_le_dec 0 Xp) as [? | Hle]; [assumption | exfalso].
    assert (Xp * Y <= 0)%Q by nra. lra. }
  split.
  { (* the exponent *)
    etransitivity; [exact He' |]. apply fexp_mono.
    pose proof (mantissa_Q_bounds mx ex) as [Hxlo _].
    pose proof (mantissa_Q_bounds my ey) as [_ Hyhi].
    enough (Z.pos (digits2_pos mx) - 1 + ex < B + (Z.pos (digits2_pos my) + ey))
      by lia.
    apply pow2_lt_inv. rewrite (pow2_add B).
    set (Y := (inject_Z (Z.pos my) * pow2 ey)%Q) in *.
    assert (0 < Y)%Q by (unfold Y; nra).
    eapply Qle_lt_trans; [exact Hxlo |]. rewrite <- HX.
    pose proof (pow2_pos B). nra. }
  split; [exact Hr |]. split; [exact Hex |].
  assert (Hcore : (Xp * inject_Z (Z.pos my)
                   == (inject_Z (Z.pos my) * inject_Z q + inject_Z r) * pow2 e')%Q).
  { rewrite <- inject_Z_mult, <- inject_Z_plus, <- Hdiv.
    apply (Qmult_inj_r _ _ (pow2 ey)); [lra |].
    rewrite inject_Z_mult, pow2_inject by lia.
    transitivity (Xp * (inject_Z (Z.pos my) * pow2 ey))%Q; [ring |].
    rewrite HX.
    transitivity (inject_Z (Z.pos mx) * (pow2 (ex - ey - e') * pow2 e' * pow2 ey))%Q;
      [| ring].
    rewrite <- !pow2_add. replace (ex - ey - e' + e' + ey) with ex by lia.
    reflexivity. }
  split; [exact Hcore |].
  destruct Hr as [Hr0 Hr1]. rewrite Zle_Qle in Hr0. rewrite Zlt_Qlt in Hr1.
  change (inject_Z 0) with 0%Q in Hr0.
  set (imy := inject_Z (Z.pos my)) in *. set (iq := inject_Z q) in *.
  set (ir := inject_Z r) in *. set (pe := pow2 e') in *.
  split.
  - assert (imy * (iq * pe) <= imy * Xp)%Q by nra.
    apply (Qmult_le_l _ _ imy); [exact Hmy | exact H].
  - assert (imy * Xp < imy * ((iq + 1) * pe))%Q by nra.
    apply (Qmult_lt_l _ _ imy); [exact Hmy | exact H].
Qed.

Lemma Qsign_cases (s : bool) (X : Q) :
  (X == (if s then -1 else 1) * (if s then - X else X))%Q.
Proof. destruct s; ring. Qed.

(** Division of a real number by a finite one: the result is within
    [2 * err B] of the quotient [X], and is the quotient itself when that
    is an integer multiple of a power of two not below the last place. *)
Lemma SFdiv_spec (x : spec_float) (sy : bool) (my : positive) (ey : Z)
  (X : Q) (B : Z) :
  SFreal x ->
  (X * SFval (S754_finite sy my ey) == SFval x)%Q ->
  (- pow2 B < X < pow2 B)%Q ->
  B <= 960 ->
  let r := SFdiv prec emax x (S754_finite sy my ey) in
  SFreal r
  /\ (- (2 * err B) < SFval r - X < 2 * err B)%Q
  /\ (forall C t, (X == inject_Z C * pow2 t)%Q -> fexp prec emax B <= t ->
                  (SFval r == X)%Q).
Proof.
  intros Hx HX Hmag HB r.
  pose proof (err_pos B) as Herr.
  pose proof (pow2_pos ey) as Hpey.
  assert (Hmy : (0 < inject_Z (Z.pos my))%Q)
    by (change 0%Q with (inject_Z 0); rewrite <- Zlt_Qlt; lia).
  set (Y := (inject_Z (Z.pos my) * pow2 ey)%Q).
  assert (HY : (0 < Y)%Q) by (unfold Y; nra).
  rewrite SFval_finite in HX. fold Y in HX.
  destruct x as [sx | sx | | sx mx ex]; try contradiction.
  - (* a zero divided *)
    assert (HX0 : (X == 0)%Q).
    { change (SFval (S754_zero sx)) with 0%Q in HX.
      destruct (Qeq_dec X 0) as [? | Hne]; [assumption | exfalso].
      destruct (Q_dec X 0) as [[Hlt | Hgt] | ?]; [| | tauto];
        destruct sy; cbv iota in HX; nra. }
    unfold r, SFdiv.
    split; [exact I |]. change (SFval (S754_zero _)) with 0%Q.
    split; [lra |]. intros; lra.
  - rewrite SFval_finite in HX.
    set (Xn := (inject_Z (Z.pos mx) * pow2 ex)%Q) in *.
    set (sg := xorb sx sy).
    set (Xp := (if sg then - X else X)%Q).
    assert (HXp : (Xp * Y == Xn)%Q).
    { unfold Xp, sg. destruct sx, sy; cbv iota in HX |- *; simpl xorb; cbv iota; lra. }
    assert (HXsg : (X == (if sg then -1 else 1) * Xp)%Q) by apply Qsign_cases.
    assert (HXpmag : (Xp < pow2 B)%Q) by (unfold Xp; destruct sg; lra).
    destruct (SFdiv_finite_core mx my ex ey Xp B HXp HXpmag)
      as (q & e' & l & rr & Eq & Hq & He' & Hr & Hexl & Hcore & Hbr).
    unfold r, SFdiv. rewrite Eq. fold sg.
    destruct (binary_round_aux_loc_spec sg q e' l Xp B Hq Hbr HXpmag)
      as (r0 & Er0 & Hreal & y & Hval & Hy);
      [pose proof (fexp_mono B (B + 1)); lia | exact HB |].
    rewrite Er0. split; [exact Hreal |].
    split; [rewrite Hval, HXsg; destruct sg; lra |].
    (* the exact case *)
    intros C t HC Ht.
    set (c := if sg then - C else C).
    assert (Hc : (Xp == inject_Z c * pow2 t)%Q).
    { unfold Xp, c. destruct sg; [rewrite inject_Z_opp, HC; ring | exact HC]. }
    pose proof (pow2_pos t) as Hpt. pose proof (pow2_pos e') as Hpe'.
    assert (HXppos : (0 < Xp)%Q).
    { destruct (Qlt_le_dec 0 Xp) as [? | Hle]; [assumption | exfalso].
      assert (Xp * Y <= 0)%Q by nra.
      assert (0 < Xn)%Q by (unfold Xn; pose proof (pow2_pos ex);
        assert (0 < inject_Z (Z.pos mx))%Q
          by (change 0%Q with (inject_Z 0); rewrite <- Zlt_Qlt; lia); nra).
      lra. }
    assert (Hcpos : 0 < c).
    { rewrite Zlt_Qlt. change (inject_Z 0) with 0%Q.
      destruct (Qlt_le_dec 0 (inject_Z c)) as [? | Hle]; [assumption | exfalso].
      assert (inject_Z c * pow2 t <= 0)%Q by nra. lra. }
    set (j := t - e').
    assert (Hj : 0 <= j) by (unfold j; lia).
    assert (HZ : c * 2 ^ j * Z.pos my = Z.pos my * q + rr).
    { apply inject_Z_injective.
      apply (Qmult_inj_r _ _ (pow2 e')); [lra |].
      rewrite inject_Z_plus, !inject_Z_mult, pow2_inject by exact Hj.
      rewrite <- Hcore, Hc.
      transitivity (inject_Z c * (pow2 j * pow2 e') * inject_Z (Z.pos my))%Q;
        [ring |].
      rewrite <- pow2_add. replace (j + e') with t by (unfold j; lia). ring. }
    assert (Hpj : 0 < 2 ^ j) by (apply Z.pow_pos_nonneg; lia).
    assert (Hrr : rr = 0 /\ q = c * 2 ^ j).
    { destruct (Z.div_mod_unique (Z.pos my) q (c * 2 ^ j) rr 0) as [-> ->];
        [left; lia | left; lia | lia | split; reflexivity]. }
    destruct Hrr as [-> Hqc]. rewrite (Hexl eq_refl) in Er0.
    assert (Hq0 : 0 < q) by nia.
    assert (HXq : (Xp == inject_Z q * pow2 e')%Q).
    { rewrite Hc, Hqc, inject_Z_mult, pow2_inject by exact Hj.
      transitivity (inject_Z c * (pow2 j * pow2 e'))%Q; [| ring].
      rewrite <- pow2_add. replace (j + e') with t by (unfold j; lia).
      reflexivity. }
    destruct q as [| qp | qp]; try lia.
    assert (HD : Z.pos (digits2_pos qp) + e' <= B)
      by (apply digits_below; rewrite <- HXq; exact HXpmag).
    set (D := Z.pos (digits2_pos qp) + e') in *.
    pose proof (fexp_mono D B HD) as HfD.
    assert (He'971 : fexp prec emax B <= 971) by (rewrite fexp64; lia).
    rewrite <- Er0, HXsg.
    destruct (Z_le_gt_dec (fexp prec emax D) e') as [Hfit | Hshift].
    + rewrite binary_round_aux_exact by (fold D; lia).
      rewrite SFval_finite, HXq. reflexivity.
    + set (n1 := fexp prec emax D - e').
      set (m1 := c * 2 ^ (j - n1)).
      assert (Hn1 : 0 < n1 <= j) by (unfold n1, j; lia).
      assert (Hm1 : 0 < m1).
      { unfold m1. apply Z.mul_pos_pos; [lia |]. apply Z.pow_pos_nonneg; lia. }
      assert (Hsplit : Z.pos qp = Z.pos (Z.to_pos m1) * 2 ^ n1).
      { rewrite Z2Pos.id by exact Hm1. unfold m1. rewrite Hqc.
        rewrite <- Z.mul_assoc, <- Z.pow_add_r by lia.
        f_equal. f_equal. lia. }
      rewrite (binary_round_aux_divisible sg qp (Z.to_pos m1) e' n1)
        by (unfold n1; fold D; lia || exact Hsplit || reflexivity).
      rewrite SFval_finite, Z2Pos.id by exact Hm1.
      rewrite HXq, Hsplit, Z2Pos.id by exact Hm1.
      rewrite inject_Z_mult, pow2_inject, pow2_add by lia. ring.
Qed.

Lemma div_float (x y : float) (X : Q) (B : Z) :
  Freal x -> Freal y -> ~ (Fval y == 0)%Q ->
  (X * Fval y == Fval x)%Q ->
  (- pow2 B < X < pow2 B)%Q ->
  B <= 960 ->
  Freal (x / y)%float
  /\ (- (2 * err B) < Fval (x / y)%float - X < 2 * err B)%Q
  /\ (forall C t, (X == inject_Z C * pow2 t)%Q -> fexp prec emax B <= t ->
                  (Fval (x / y)%float == X)%Q).
Proof.
  unfold Freal, Fval. rewrite div_spec. intros Hx Hy Hy0.
  destruct (Prim2SF y) as [sy | sy | | sy my ey]; try contradiction.
  - exfalso. apply Hy0. reflexivity.
  - apply SFdiv_spec. exact Hx.
Qed.

End Binary64Division.

(** ** Downmix: the sum and the mean of a frame *)

Section DownmixArithmetic.

Import Downmix.

(** A real Number within half a unit of the integer [k] (the upper
    half excluded) is an integer already, or [Math.round] makes it
    [Number k]. *)
Lemma Math_round_cases (v : float) (k : Z) :
  Freal v ->
  (inject_Z k - (1 # 2) <= Fval v < inject_Z k + (1 # 2))%Q ->
  (Math_round v = v /\ (Fval v == inject_Z k)%Q /\ IntegerValue v = k)
  \/ Math_round v = Number k.
Proof.
  unfold Freal, Fval, Math_round, IntegerValue.
  destruct (Prim2SF v) as [s | s | | s m e] eqn:E; try contradiction;
    intros _ Hv; cbv iota.
  - left. change (SFval (S754_zero s)) with 0%Q in Hv |- *.
    assert (H1 : (inject_Z (2 * k - 1) <= inject_Z 0)%Q).
    { unfold Z.sub. rewrite inject_Z_plus, inject_Z_mult, inject_Z_opp.
      change (inject_Z 2) with 2%Q. change (inject_Z 1) with 1%Q.
      change (inject_Z 0) with 0%Q. lra. }
    assert (H2 : (inject_Z 0 < inject_Z (2 * k + 1))%Q).
    { rewrite inject_Z_plus, inject_Z_mult.
      change (inject_Z 2) with 2%Q. change (inject_Z 1) with 1%Q.
      change (inject_Z 0) with 0%Q. lra. }
    rewrite <- Zle_Qle in H1. rewrite <- Zlt_Qlt in H2.
    assert (k = 0) as -> by lia. repeat split; reflexivity.
  - destruct (Z.leb_spec 0 e) as [He | He].
    + left.
      set (z := cond_Zopp s (Z.pos m * 2 ^ e)).
      assert (Heq : (inject_Z z == SFval (S754_finite s m e))%Q).
      { unfold z. rewrite inject_cond_Zopp, SFval_finite, inject_Z_mult, pow2_inject
          by exact He. reflexivity. }
      rewrite <- Heq in Hv |- *.
      assert (H1 : (inject_Z (2 * k - 1) <= inject_Z (2 * z))%Q).
      { unfold Z.sub. rewrite inject_Z_plus, !inject_Z_mult, inject_Z_opp.
        change (inject_Z 2) with 2%Q. change (inject_Z 1) with 1%Q. lra. }
      assert (H2 : (inject_Z (2 * z) < inject_Z (2 * k + 1))%Q).
      { rewrite inject_Z_plus, !inject_Z_mult.
        change (inject_Z 2) with 2%Q. change (inject_Z 1) with 1%Q. lra. }
      rewrite <- Zle_Qle in H1. rewrite <- Zlt_Qlt in H2.
      assert (z = k) as -> by lia. repeat split; reflexivity.
    + right. set (n := - e). assert (Hn : 0 < n) by (unfold n; lia).
      replace (1 - e) with (n + 1) by (unfold n; lia).
      set (sv := cond_Zopp s (Z.pos m)).
      assert (Hpow : 0 < 2 ^ n) by (apply Z.pow_pos_nonneg; lia).
      assert (Hbounds : (2 * k - 1) * 2 ^ n <= 2 * sv < (2 * k + 1) * 2 ^ n).
      { unfold SFval in Hv. fold sv in Hv.
        replace e with (- n) in Hv by (unfold n; lia).
        pose proof (pow2_neg_inv n) as Hinv.
        pose proof (pow2_pos n) as Hpn. pose proof (pow2_pos (- n)) as Hqn.
        rewrite Zle_Qle, Zlt_Qlt. unfold Z.sub.
        rewrite !inject_Z_mult, !inject_Z_plus, !inject_Z_mult, inject_Z_opp,
          pow2_inject by lia.
        change (inject_Z 2) with 2%Q. change (inject_Z 1) with 1%Q.
        set (iv := inject_Z sv) in *. set (ik := inject_Z k) in *.
        set (pn := pow2 n) in *. set (qn := pow2 (- n)) in *.
        assert (Hiv : (iv == (iv * qn) * pn)%Q).
        { transitivity (iv * (qn * pn))%Q; [rewrite Hinv |]; ring. }
        destruct Hv as [Hlo Hhi].
        split; rewrite Hiv; nra. }
      rewrite Z.pow_add_r, Z.pow_1_r by lia.
      assert (Hquot : (2 * sv + 2 ^ n) / (2 ^ n * 2) = k).
      { symmetry. apply (Z.div_unique _ _ _ (2 * sv + 2 ^ n - k * (2 ^ n * 2)));
          lia. }
      rewrite Hquot. reflexivity.
Qed.

Lemma rounded_value (v : float) (k : Z) :
  Freal v -> int16 k ->
  (inject_Z k - (1 # 2) <= Fval v < inject_Z k + (1 # 2))%Q ->
  IntegerValue (Math_round v) = k.
Proof.
  intros Hr Hk Hv.
  destruct (Math_round_cases v k Hr Hv) as [(-> & _ & H) | ->];
    [exact H | apply IntegerValue_Number, Hk].
Qed.

Definition sumZ (zs : list Z) : Z := foldl Z.add 0 zs.

Lemma foldl_add_shift (zs : list Z) (a : Z) :
  foldl Z.add a zs = a + sumZ zs.
Proof.
  unfold sumZ. revert a. induction zs as [| z zs IH]; intros a; simpl; [lia |].
  rewrite (IH (a + z)), (IH (0 + z)). lia.
Qed.

Lemma sumZ_cons (z : Z) (zs : list Z) : sumZ (z :: zs) = z + sumZ zs.
Proof.
  unfold sumZ at 1. change (foldl Z.add 0 (z :: zs)) with (foldl Z.add (0 + z) zs).
  rewrite foldl_add_shift. lia.
Qed.

Lemma sumZ_bounds (zs : list Z) :
  Forall int16 zs ->
  -32768 * Z.of_nat (length zs) <= sumZ zs <= 32767 * Z.of_nat (length zs).
Proof.
  induction 1 as [| z zs Hz _ IH]; [unfold sumZ; simpl; lia |].
  rewrite sumZ_cons. unfold int16 in Hz.
  change (length (z :: zs)) with (S (length zs)). lia.
Qed.

(** A Number holding the 16-bit integer [z]. *)
Definition holds16 (v : float) (z : Z) : Prop :=
  Freal v /\ (Fval v == inject_Z z)%Q /\ int16 z.

Lemma holds16_Number (z : Z) : int16 z -> holds16 (Number z) z.
Proof.
  intros Hz. unfold int16 in Hz.
  destruct (Number_exact z ltac:(lia)) as [Hr Hv].
  split; [exact Hr | split; [exact Hv | exact Hz]].
Qed.

(** ... and [Math.round] of it holds [k]. *)
Lemma rounded_holds16 (v : float) (k : Z) :
  Freal v -> int16 k ->
  (inject_Z k - (1 # 2) <= Fval v < inject_Z k + (1 # 2))%Q ->
  holds16 (Math_round v) k.
Proof.
  intros Hr Hk Hv.
  destruct (Math_round_cases v k Hr Hv) as [(-> & H & _) | ->].
  - split; [exact Hr | split; [exact H | exact Hk]].
  - apply holds16_Number, Hk.
Qed.

Lemma holds16_int16 (vals : list float) (zs : list Z) :
  Forall2 holds16 vals zs -> Forall int16 zs.
Proof.
  induction 1 as [| v z vals zs (_ & _ & Hz) _ IH]; constructor; assumption.
Qed.

(** The running sum of Numbers holding 16-bit integers is exact. *)
Lemma sumFrom_exact (vals : list float) (zs : list Z) :
  Forall2 holds16 vals zs ->
  forall (acc : float) (a : Z),
    Freal acc -> (Fval acc == inject_Z a)%Q ->
    Z.abs a + 32768 * Z.of_nat (length zs) < 2 ^ 53 ->
    Freal (sumFrom acc vals)
    /\ (Fval (sumFrom acc vals) == inject_Z (a + sumZ zs))%Q.
Proof.
  induction 1 as [| v z vals zs (Hzr & Hzv & Hz) _ IH]; intros acc a Hr Hv Hb.
  - simpl. split; [exact Hr |]. rewrite Hv. unfold sumZ. simpl.
    rewrite Z.add_0_r. reflexivity.
  - unfold sumFrom. simpl foldl. fold (sumFrom (acc + v)%float vals).
    change (length (z :: zs)) with (S (length zs)) in Hb. unfold int16 in Hz.
    destruct (add_float_integer acc v a z Hr Hzr Hv Hzv ltac:(lia))
      as [Hr' Hv'].
    destruct (IH (acc + v)%float (a + z) Hr' Hv' ltac:(lia)) as [Hr2 Hv2].
    split; [exact Hr2 |]. rewrite Hv2, sumZ_cons.
    rewrite Z.add_assoc. reflexivity.
Qed.

Lemma Qmake_mul (S n : Z) :
  0 < n -> ((S # Z.to_pos n) * inject_Z n == inject_Z S)%Q.
Proof.
  intros Hn. unfold Qeq, Qmult, inject_Z. simpl.
  rewrite Pos.mul_1_r, Z2Pos.id by exact Hn. ring.
Qed.

Lemma err16 : (2 * err 16 == 1 # 17179869184)%Q.
Proof. vm_compute. reflexivity. Qed.

(** Line 74: the mean of an exact integer sum over [n] channels, rounded
    by [Math.round] and stored, is the exact mean rounded to the nearest
    integer, a tie going up. *)
Lemma mean_rounded (acc : float) (S n : Z) :
  Freal acc -> (Fval acc == inject_Z S)%Q ->
  1 <= n < 65536 ->
  -32768 * n <= S <= 32767 * n ->
  ToInt16 (Math_round (acc / Number n)%float) = (2 * S + n) / (2 * n).
Proof.
  intros Hr Hv Hn HS.
  destruct (Number_exact n ltac:(lia)) as [Hnr Hnv].
  set (X := (S # Z.to_pos n)%Q).
  pose proof (Qmake_mul S n ltac:(lia)) as HX. fold X in HX.
  assert (HiN : (1 <= inject_Z n <= 65535)%Q).
  { change 1%Q with (inject_Z 1). change 65535%Q with (inject_Z 65535).
    rewrite <- !Zle_Qle. lia. }
  assert (HiS : (-32768 * inject_Z n <= inject_Z S <= 32767 * inject_Z n)%Q).
  { change (-32768)%Q with (inject_Z (-32768)).
    change 32767%Q with (inject_Z 32767).
    rewrite <- !inject_Z_mult, <- !Zle_Qle. lia. }
  assert (HXb : (-32768 <= X <= 32767)%Q).
  { split.
    - apply (Qmult_le_r _ _ (inject_Z n)); [lra |]. rewrite HX. lra.
    - apply (Qmult_le_r _ _ (inject_Z n)); [lra |]. rewrite HX. lra. }
  destruct (div_float acc (Number n) X 16 Hr Hnr) as (Hqr & Hq & Hexact);
    [rewrite Hnv; lra | rewrite Hnv, Hv; exact HX
    | change (pow2 16) with 65536%Q; lra | lia |].
  rewrite err16 in Hq.
  set (v := (acc / Number n)%float) in *.
  set (k := (2 * S + n) / (2 * n)).
  pose proof (Z.div_mod (2 * S + n) (2 * n) ltac:(lia)) as Hdm.
  pose proof (Z.mod_pos_bound (2 * S + n) (2 * n) ltac:(lia)) as Hmod.
  fold k in Hdm. set (r' := (2 * S + n) mod (2 * n)) in *.
  assert (Hk : int16 k).
  { unfold int16, k. split.
    - apply Z.div_le_lower_bound; lia.
    - enough ((2 * S + n) / (2 * n) < 32768) by lia.
      apply Z.div_lt_upper_bound; lia. }
  assert (Hval : IntegerValue (Math_round v) = k).
  { apply rounded_value; [exact Hqr | exact Hk |].
    assert (Hup : (2 * (X * inject_Z n) + 1 <= (2 * inject_Z k + 1) * inject_Z n)%Q).
    { rewrite HX.
      change 2%Q with (inject_Z 2). change 1%Q with (inject_Z 1).
      rewrite <- !inject_Z_mult, <- !inject_Z_plus, <- inject_Z_mult, <- Zle_Qle.
      nia. }
    split.
    - destruct (Z.eq_dec r' 0) as [Hr0 | Hr0].
      + (* the mean is a half-integer: the division is exact *)
        assert (HC : (X == inject_Z (2 * k - 1) * pow2 (-1))%Q).
        { apply (Qmult_inj_r _ _ (inject_Z n)); [lra |]. rewrite HX.
          change (pow2 (-1)) with (1 # 2)%Q.
          assert (H2S : 2 * S = (2 * k - 1) * n) by lia.
          apply (Qmult_inj_r _ _ 2); [discriminate |].
          change 2%Q with (inject_Z 2) at 1.
          rewrite <- inject_Z_mult. replace (S * 2) with ((2 * k - 1) * n) by lia.
          rewrite inject_Z_mult. field. }
        rewrite (Hexact (2 * k - 1) (-1) HC ltac:(rewrite fexp64; lia)).
        rewrite HC. unfold Z.sub.
        rewrite inject_Z_plus, inject_Z_mult, inject_Z_opp.
        change (pow2 (-1)) with (1 # 2)%Q.
        change (inject_Z 2) with 2%Q. change (inject_Z 1) with 1%Q. lra.
      + assert (Hlow : ((2 * inject_Z k - 1) * inject_Z n + 1 <= 2 * (X * inject_Z n))%Q).
        { rewrite HX.
          change 2%Q with (inject_Z 2). change 1%Q with (inject_Z 1).
          unfold Qminus. rewrite <- inject_Z_opp.
          rewrite <- !inject_Z_mult, <- !inject_Z_plus, <- !inject_Z_mult,
            <- inject_Z_plus, <- Zle_Qle.
          nia. }
        set (iN := inject_Z n) in *. set (ik := inject_Z k) in *.
        set (fv := Fval v) in *.
        assert (H : ((ik - (1 # 2)) * (2 * iN) <= fv * (2 * iN))%Q) by nra.
        apply (Qmult_le_r _ _ (2 * iN)); [lra | exact H].
    - set (iN := inject_Z n) in *. set (ik := inject_Z k) in *.
      set (fv := Fval v) in *.
      assert (H : (fv * (2 * iN) < (ik + (1 # 2)) * (2 * iN))%Q) by nra.
      apply (Qmult_lt_r _ _ (2 * iN)); [lra | exact H]. }
  unfold ToInt16. rewrite Hval. apply wrap16_id, Hk.
Qed.

Lemma Freal_zero : Freal 0%float /\ (Fval 0%float == inject_Z 0)%Q.
Proof. split; vm_compute; [exact I | reflexivity]. Qed.

(** Lines 65-74 for a frame whose channel samples hold 16-bit integers:
    the stored element is their exact mean, rounded to the nearest integer,
    a tie going up. *)
Lemma frame_mean (fmt : Format) (buffer : list Z) (i : Z)
  (vals : list float) (zs : list Z) :
  1 <= channels fmt < 65536 ->
  channelValues fmt buffer i = Some vals ->
  Forall2 holds16 vals zs ->
  downmixFrame fmt buffer i
  = Some ((2 * sumZ zs + channels fmt) / (2 * channels fmt)).
Proof.
  intros Hn Hvals H16.
  assert (Hlen : Z.of_nat (length zs) = channels fmt).
  { unfold channelValues in Hvals.
    apply length_mapM in Hvals. apply Forall2_length in H16.
    rewrite <- H16, <- Hvals, length_seqZ. lia. }
  unfold downmixFrame. rewrite DownmixSpec.accumulate_sum.
  unfold channelValues in Hvals. rewrite Hvals. simpl.
  destruct Freal_zero as [H0r H0v].
  destruct (sumFrom_exact vals zs H16 0%float 0 H0r H0v ltac:(lia))
    as [Hsr Hsv].
  pose proof (sumZ_bounds zs (holds16_int16 vals zs H16)) as Hsb.
  rewrite Z.add_0_l in Hsv. rewrite Hlen in Hsb.
  rewrite (mean_rounded _ (sumZ zs) (channels fmt) Hsr Hsv Hn Hsb).
  reflexivity.
Qed.

Lemma readInt16LE_int16 (buffer : list Z) (offset z : Z) :
  readInt16LE buffer offset = Some z -> int16 z.
Proof.
  unfold readInt16LE. destruct (offset <? 0); [discriminate |].
  destruct (buffer !! Z.to_nat offset) as [lo |]; [| discriminate].
  destruct (buffer !! S (Z.to_nat offset)) as [hi |]; [| discriminate].
  simpl. intros [= <-]. apply wrap16_int16.
Qed.

(** With 16-bit source samples the channel samples are the integers read. *)
Lemma channelValues_16 (fmt : Format) (buffer : list Z) (i : Z) (cs zs : list Z) :
  bitDepth fmt <> 32 ->
  mapM (fun c => readInt16LE buffer ((i * channels fmt + c) * bytesPerSample fmt)) cs
  = Some zs ->
  exists vals,
    mapM (fun c => channelSample fmt buffer
                     ((i * channels fmt + c) * bytesPerSample fmt)) cs = Some vals
    /\ Forall2 holds16 vals zs.
Proof.
  intros Hd. revert zs. induction cs as [| c cs IH]; intros zs H.
  - injection H as <-. exists []. split; [reflexivity | constructor].
  - simpl in H.
    destruct (readInt16LE buffer ((i * channels fmt + c) * bytesPerSample fmt))
      as [z |] eqn:Ez; [| discriminate].
    destruct (mapM _ cs) as [zs' |] eqn:Ezs; [| discriminate].
    simpl in H. injection H as <-.
    destruct (IH zs' eq_refl) as (vals & Hvals & H16).
    exists (Number z :: vals). split.
    + assert (Hc : channelSample fmt buffer
                     ((i * channels fmt + c) * bytesPerSample fmt)
                   = Some (Number z)).
      { unfold channelSample.
        destruct (Z.eqb_spec (bitDepth fmt) 32) as [? | _]; [contradiction |].
        rewrite Ez. reflexivity. }
      change (mapM ?f (c :: cs)) with (y ← f c; k ← mapM f cs; mret (y :: k)).
      cbv beta. rewrite Hc. simpl. rewrite Hvals. reflexivity.
    + constructor; [| exact H16].
      apply holds16_Number, (readInt16LE_int16 _ _ _ Ez).
Qed.

End DownmixArithmetic.

(** ** Binary64: comparison, clamping and exact products *)

Section Binary64Comparison.

(** ** Comparison *)

(** The magnitude of a canonical mantissa. *)
Lemma canonical_bounds (m : positive) (e : Z) :
  bounded prec emax m e = true ->
  Z.pos m < 2 ^ 53 /\ -1074 <= e /\ (-1074 < e -> 2 ^ 52 <= Z.pos m).
Proof.
  intros Hb. unfold bounded, canonical_mantissa in Hb.
  apply andb_prop in Hb as [Hc _]. apply Z.eqb_eq in Hc.
  rewrite fexp64 in Hc.
  pose proof (digits2_pos_bounds m) as [Hlo Hhi].
  split; [| split; [lia |]].
  - eapply Z.lt_le_trans; [exact Hhi |]. apply Z.pow_le_mono_r; lia.
  - intros He. assert (Hd : Z.pos (digits2_pos m) = 53) by lia.
    rewrite Hd in Hlo. exact Hlo.
Qed.

Lemma canonical_lt (m1 m2 : positive) (e1 e2 : Z) :
  bounded prec emax m1 e1 = true -> bounded prec emax m2 e2 = true ->
  e1 < e2 ->
  (inject_Z (Z.pos m1) * pow2 e1 < inject_Z (Z.pos m2) * pow2 e2)%Q.
Proof.
  intros H1 H2 He.
  destruct (canonical_bounds m1 e1 H1) as (Hm1 & He1 & _).
  destruct (canonical_bounds m2 e2 H2) as (_ & _ & Hm2).
  specialize (Hm2 ltac:(lia)).
  pose proof (pow2_pos e1) as Hp1. pose proof (pow2_pos e2) as Hp2.
  apply (Qlt_le_trans _ (inject_Z (2 ^ 53) * pow2 e1)).
  { apply Qmult_lt_compat_r; [exact Hp1 |]. rewrite <- Zlt_Qlt. exact Hm1. }
  apply (Qle_trans _ (inject_Z (2 ^ 52) * pow2 e2)).
  - rewrite !pow2_inject, <- !pow2_add by lia. apply pow2_le. lia.
  - apply Qmult_le_compat_r; [| apply Qlt_le_weak, Hp2].
    rewrite <- Zle_Qle. exact Hm2.
Qed.

(** The order of two canonical magnitudes is the order of their exponents,
    then of their mantissas. *)
Lemma magnitude_compare (m1 m2 : positive) (e1 e2 : Z) :
  bounded prec emax m1 e1 = true -> bounded prec emax m2 e2 = true ->
  let a1 := (inject_Z (Z.pos m1) * pow2 e1)%Q in
  let a2 := (inject_Z (Z.pos m2) * pow2 e2)%Q in
  match (match e1 ?= e2 with
         | Lt => Lt
         | Gt => Gt
         | Eq => Pos.compare_cont Eq m1 m2
         end) with
  | Lt => (a1 < a2)%Q
  | Eq => (a1 == a2)%Q
  | Gt => (a2 < a1)%Q
  end.
Proof.
  intros H1 H2 a1 a2. unfold a1, a2.
  destruct (Z.compare_spec e1 e2) as [-> | He | He].
  - change (Pos.compare_cont Eq m1 m2) with (m1 ?= m2)%positive.
    pose proof (pow2_pos e2) as Hp.
    destruct (Pos.compare_spec m1 m2) as [-> | Hm | Hm].
    + reflexivity.
    + apply Qmult_lt_compat_r; [exact Hp |]. rewrite <- Zlt_Qlt. lia.
    + apply Qmult_lt_compat_r; [exact Hp |]. rewrite <- Zlt_Qlt. lia.
  - apply canonical_lt; assumption.
  - apply canonical_lt; assumption || lia.
Qed.

Lemma magnitude_pos (m : positive) (e : Z) :
  (0 < inject_Z (Z.pos m) * pow2 e)%Q.
Proof.
  apply Qmult_lt_0_compat; [| apply pow2_pos].
  change 0%Q with (inject_Z 0). rewrite <- Zlt_Qlt. lia.
Qed.

(** [<] on two real Numbers is [<] on their values. *)
Lemma SFltb_real (x y : spec_float) :
  valid_binary x = true -> valid_binary y = true ->
  SFreal x -> SFreal y ->
  if SFltb x y then (SFval x < SFval y)%Q else (SFval y <= SFval x)%Q.
Proof.
  intros Vx Vy Hx Hy.
  destruct x as [sx | sx | | sx mx ex]; try contradiction;
  destruct y as [sy | sy | | sy my ey]; try contradiction.
  - simpl. lra.
  - pose proof (magnitude_pos my ey) as Hp.
    pose proof (SFval_finite sy my ey) as Hv.
    change (SFval (S754_zero sx)) with 0%Q.
    unfold SFltb, SFcompare. destruct sy; cbv iota in Hv |- *; lra.
  - pose proof (magnitude_pos mx ex) as Hp.
    pose proof (SFval_finite sx mx ex) as Hv.
    change (SFval (S754_zero sy)) with 0%Q.
    unfold SFltb, SFcompare. destruct sx; cbv iota in Hv |- *; lra.
  - pose proof (magnitude_pos mx ex) as Hpx.
    pose proof (magnitude_pos my ey) as Hpy.
    pose proof (magnitude_compare mx my ex ey Vx Vy) as Hc.
    cbv zeta in Hc.
    pose proof (SFval_finite sx mx ex) as Hvx.
    pose proof (SFval_finite sy my ey) as Hvy.
    unfold SFltb, SFcompare.
    destruct sx, sy; cbv iota in Hvx, Hvy |- *;
      try lra;
      destruct (ex ?= ey); try destruct (Pos.compare_cont Eq mx my);
      cbv iota beta delta [CompOpp] in Hc |- *; lra.
Qed.

Lemma SFeqb_refl (x : spec_float) : x <> S754_nan -> SFeqb x x = true.
Proof.
  destruct x as [s | s | | s m e]; intros H; try congruence.
  - reflexivity.
  - destruct s; reflexivity.
  - unfold SFeqb, SFcompare. rewrite Z.compare_refl.
    change (Pos.compare_cont Eq m m) with (m ?= m)%positive.
    rewrite Pos.compare_refl. destruct s; reflexivity.
Qed.

Lemma is_nan_false (x : float) : ~ Fnan x -> is_nan x = false.
Proof.
  intros H. unfold is_nan. rewrite FloatAxioms.eqb_spec, SFeqb_refl; [reflexivity | exact H].
Qed.

Lemma is_nan_true (x : float) : Fnan x -> is_nan x = true.
Proof.
  intros H. unfold is_nan. rewrite FloatAxioms.eqb_spec, H. reflexivity.
Qed.

(** Line 70, [Math.min(1, x)] and [Math.max(-1, m)] away from [NaN]. *)
Lemma Math_min_one (x : float) :
  ~ Fnan x -> Math_min 1 x = if (1 <? x)%float then 1%float else x.
Proof.
  intros H. unfold Math_min. rewrite (is_nan_false x H).
  change (is_nan 1) with false. change (get_sign 1) with false.
  cbv iota beta delta [orb].
  destruct (1 <? x)%float; [reflexivity |].
  destruct (x <? 1)%float; reflexivity.
Qed.

Lemma Math_max_negone (m : float) :
  ~ Fnan m -> Math_max (-1) m = if (m <? -1)%float then (-1)%float else m.
Proof.
  intros H. unfold Math_max. rewrite (is_nan_false m H).
  change (is_nan (-1)) with false. change (get_sign (-1)) with true.
  cbv iota beta delta [orb].
  destruct (m <? -1)%float; [reflexivity |].
  destruct (-1 <? m)%float; reflexivity.
Qed.

(** The value in [-1, 1] nearest to [q]. *)
Definition clampUnit (q : Q) : Q :=
  if Qlt_le_dec 1 q then 1%Q else if Qlt_le_dec q (-1) then (-1)%Q else q.

(** The same for a Number that is not [NaN], the infinities included. *)
Definition clamped (x : float) : Q :=
  match Prim2SF x with
  | S754_infinity s => if s then (-1)%Q else 1%Q
  | _ => clampUnit (Fval x)
  end.

Lemma Freal_negone : Freal (-1)%float /\ (Fval (-1)%float == -1)%Q.
Proof. split; vm_compute; [exact I | reflexivity]. Qed.

(** Line 70: the clamped sample is [x], [1] or [-1], and stands for the
    clamped value. *)
Lemma clamp_spec (x : float) :
  ~ Fnan x ->
  let c := Math_max (-1) (Math_min 1 x) in
  Freal c /\ (c = x \/ c = 1%float \/ c = (-1)%float)
  /\ (Fval c == clamped x)%Q.
Proof.
  intros Hn c. unfold c. rewrite (Math_min_one x Hn).
  destruct Freal_one as [H1r H1v]. destruct Freal_negone as [Hmr Hmv].
  unfold clamped, clampUnit.
  destruct (Prim2SF x) as [s | s | | s m e] eqn:E.
  - (* zero *)
    assert (Hr : Freal x) by (unfold Freal; rewrite E; exact I).
    assert (Hv : (Fval x == 0)%Q) by (unfold Fval; rewrite E; reflexivity).
    assert (L1 : (1 <? x)%float = false).
    { rewrite FloatAxioms.ltb_spec, E. reflexivity. }
    rewrite L1, (Math_max_negone x Hn).
    assert (L2 : (x <? -1)%float = false).
    { rewrite FloatAxioms.ltb_spec, E. reflexivity. }
    rewrite L2. split; [exact Hr |]. split; [left; reflexivity |].
    destruct (Qlt_le_dec 1 (Fval x)); [lra |].
    destruct (Qlt_le_dec (Fval x) (-1)); [lra | reflexivity].
  - (* an infinity *)
    destruct s.
    + assert (L1 : (1 <? x)%float = false) by (rewrite FloatAxioms.ltb_spec, E; reflexivity).
      rewrite L1, (Math_max_negone x Hn).
      assert (L2 : (x <? -1)%float = true) by (rewrite FloatAxioms.ltb_spec, E; reflexivity).
      rewrite L2. split; [exact Hmr |]. split; [right; right; reflexivity |].
      exact Hmv.
    + assert (L1 : (1 <? x)%float = true) by (rewrite FloatAxioms.ltb_spec, E; reflexivity).
      rewrite L1.
      change (Math_max (-1) 1) with 1%float.
      split; [exact H1r |]. split; [right; left; reflexivity | exact H1v].
  - contradiction (Hn E).
  - assert (Hr : Freal x) by (unfold Freal; rewrite E; exact I).
    pose proof (SFltb_real (Prim2SF 1) (Prim2SF x) (Prim2SF_valid 1)
                  (Prim2SF_valid x) H1r Hr) as C1.
    rewrite <- FloatAxioms.ltb_spec in C1. fold (Fval 1) (Fval x) in C1.
    destruct (1 <? x)%float.
    + change (Math_max (-1) 1) with 1%float.
      split; [exact H1r |]. split; [right; left; reflexivity |].
      destruct (Qlt_le_dec 1 (Fval x)); [exact H1v | lra].
    + rewrite (Math_max_negone x Hn).
      pose proof (SFltb_real (Prim2SF x) (Prim2SF (-1)) (Prim2SF_valid x)
                    (Prim2SF_valid (-1)) Hr Hmr) as C2.
      rewrite <- FloatAxioms.ltb_spec in C2. fold (Fval (-1)) (Fval x) in C2.
      destruct (x <? -1)%float.
      * split; [exact Hmr |]. split; [right; right; reflexivity |].
        destruct (Qlt_le_dec 1 (Fval x)); [lra |].
        destruct (Qlt_le_dec (Fval x) (-1)); [exact Hmv | lra].
      * split; [exact Hr |]. split; [left; reflexivity |].
        destruct (Qlt_le_dec 1 (Fval x)); [lra |].
        destruct (Qlt_le_dec (Fval x) (-1)); [| reflexivity].
        lra.
Qed.

(** ** Exact products *)

(** A number [C * 2 ^ t] with [C] below [2 ^ 53] and [t] not below the
    least exponent is rounded to itself. *)
Lemma binary_round_aux_repr (sx : bool) (m : positive) (e C t : Z) :
  (inject_Z (Z.pos m) * pow2 e == inject_Z C * pow2 t)%Q ->
  C < 2 ^ 53 -> -1074 <= t <= 900 ->
  SFreal (binary_round_aux prec emax sx (Z.pos m) e loc_Exact)
  /\ (SFval (binary_round_aux prec emax sx (Z.pos m) e loc_Exact)
      == (if sx then -1 else 1) * (inject_Z (Z.pos m) * pow2 e))%Q.
Proof.
  intros HC Hlt Ht.
  pose proof (pow2_pos t) as Hpt.
  assert (Hmag : (inject_Z (Z.pos m) * pow2 e < pow2 (53 + t))%Q).
  { rewrite HC, pow2_add, <- (pow2_inject 53) by lia.
    apply Qmult_lt_compat_r; [exact Hpt |]. rewrite <- Zlt_Qlt. exact Hlt. }
  pose proof (digits_below m e (53 + t) Hmag) as HD.
  set (D := Z.pos (digits2_pos m) + e) in *.
  assert (Hf : fexp prec emax D <= t) by (rewrite fexp64; lia).
  destruct (Z_le_gt_dec (fexp prec emax D) e) as [Hfit | Hshift].
  - destruct (binary_round_aux_spec sx m e (53 + t) Hmag ltac:(lia))
      as (r & Er & Hreal & y & Hval & _ & Hexact).
    rewrite Er. split; [exact Hreal |].
    rewrite Hval, (Hexact Hfit). reflexivity.
  - set (n1 := fexp prec emax D - e).
    assert (Hm : Z.pos m = C * 2 ^ (t - e)).
    { apply inject_Z_injective.
      rewrite inject_Z_mult, pow2_inject by lia.
      replace (t - e) with (t + - e) by lia. rewrite pow2_add, Qmult_assoc, <- HC.
      rewrite <- Qmult_assoc, <- pow2_add.
      replace (e + - e) with 0 by lia. rewrite pow2_0. ring. }
    assert (HCpos : 0 < C).
    { assert (0 < 2 ^ (t - e)) by (apply Z.pow_pos_nonneg; lia). nia. }
    set (m1 := C * 2 ^ (t - fexp prec emax D)).
    assert (Hm1 : 0 < m1).
    { unfold m1. apply Z.mul_pos_pos; [lia |]. apply Z.pow_pos_nonneg; lia. }
    assert (Hsplit : Z.pos m = Z.pos (Z.to_pos m1) * 2 ^ n1).
    { rewrite Z2Pos.id by exact Hm1. unfold m1, n1. rewrite Hm.
      rewrite <- Z.mul_assoc, <- Z.pow_add_r by lia.
      f_equal. f_equal. lia. }
    rewrite (binary_round_aux_divisible sx m (Z.to_pos m1) e n1)
      by (unfold n1; fold D; lia || exact Hsplit || reflexivity).
    split; [exact I |].
    rewrite SFval_finite, Z2Pos.id by exact Hm1.
    rewrite HC. unfold m1, n1.
    replace (e + (fexp prec emax D - e)) with (fexp prec emax D) by lia.
    rewrite inject_Z_mult, pow2_inject by lia.
    rewrite <- (Qmult_assoc (inject_Z C)), <- pow2_add.
    replace (t - fexp prec emax D + fexp prec emax D) with t by lia.
    reflexivity.
Qed.

Lemma Qabs_sign (s : bool) (a : Q) (C : Z) (p : Q) :
  (0 < a)%Q -> (0 < p)%Q ->
  ((if s then -1 else 1) * a == inject_Z C * p)%Q ->
  (a == inject_Z (Z.abs C) * p)%Q.
Proof.
  intros Ha Hp H.
  destruct (Z_lt_le_dec C 0) as [Hneg | Hpos].
  - rewrite Z.abs_neq, inject_Z_opp by lia.
    assert (HC : (inject_Z C < 0)%Q)
      by (change 0%Q with (inject_Z 0); rewrite <- Zlt_Qlt; exact Hneg).
    destruct s; [lra |]. nra.
  - rewrite Z.abs_eq by lia.
    assert (HC : (0 <= inject_Z C)%Q)
      by (change 0%Q with (inject_Z 0); rewrite <- Zle_Qle; exact Hpos).
    destruct s; [nra | lra].
Qed.

(** A product that is [C * 2 ^ t], with [C] below [2 ^ 53] in magnitude and
    [t] not below the least exponent, is computed exactly. *)
Lemma SFmul_exact (x y : spec_float) (C t : Z) :
  SFreal x -> SFreal y ->
  (SFval x * SFval y == inject_Z C * pow2 t)%Q ->
  Z.abs C < 2 ^ 53 -> -1074 <= t <= 900 ->
  SFreal (SFmul prec emax x y)
  /\ (SFval (SFmul prec emax x y) == SFval x * SFval y)%Q.
Proof.
  intros Hx Hy HC Hlt Ht.
  destruct x as [sx | sx | | sx mx ex]; try contradiction;
  destruct y as [sy | sy | | sy my ey]; try contradiction;
    try (unfold SFmul; split; [exact I |];
         change (SFval (S754_zero _)) with 0%Q; ring).
  unfold SFmul.
  pose proof (SFval_finite sx mx ex) as Hvx.
  pose proof (SFval_finite sy my ey) as Hvy.
  assert (Hprod : (inject_Z (Z.pos (mx * my)) * pow2 (ex + ey)
                   == (inject_Z (Z.pos mx) * pow2 ex)
                      * (inject_Z (Z.pos my) * pow2 ey))%Q).
  { rewrite Pos2Z.inj_mul, inject_Z_mult, pow2_add. ring. }
  pose proof (magnitude_pos (mx * my) (ex + ey)) as Hpos.
  assert (Hsigned : ((if xorb sx sy then -1 else 1)
                     * (inject_Z (Z.pos (mx * my)) * pow2 (ex + ey))
                     == SFval (S754_finite sx mx ex) * SFval (S754_finite sy my ey))%Q).
  { rewrite Hvx, Hvy, Hprod. destruct sx, sy; simpl xorb; cbv iota; ring. }
  assert (Habs : (inject_Z (Z.pos (mx * my)) * pow2 (ex + ey)
                  == inject_Z (Z.abs C) * pow2 t)%Q).
  { apply (Qabs_sign (xorb sx sy)); [exact Hpos | apply pow2_pos |].
    rewrite Hsigned. exact HC. }
  destruct (binary_round_aux_repr (xorb sx sy) (mx * my) (ex + ey) (Z.abs C) t
              Habs Hlt Ht) as [Hr Hv].
  split; [exact Hr |]. rewrite Hv. exact Hsigned.
Qed.

Lemma mul_float_exact (x y : float) (C t : Z) :
  Freal x -> Freal y ->
  (Fval x * Fval y == inject_Z C * pow2 t)%Q ->
  Z.abs C < 2 ^ 53 -> -1074 <= t <= 900 ->
  Freal (x * y)%float /\ (Fval (x * y)%float == Fval x * Fval y)%Q.
Proof. unfold Freal, Fval. rewrite mul_spec. apply SFmul_exact. Qed.

End Binary64Comparison.

(** ** Downmix: 32-bit float samples *)

Section FloatSamples.

Import Downmix.

(** ** 32-bit samples *)

(** A real Number that a binary32 value converts to: a 24-bit mantissa at
    an exponent of the binary32 range. *)
Definition single (x : float) : Prop :=
  Freal x ->
  exists M E, Z.abs M < 2 ^ 24 /\ -149 <= E <= 104
              /\ (Fval x == inject_Z M * pow2 E)%Q.

Lemma normalize_single (M E : Z) (s : bool) :
  Z.abs M < 2 ^ 24 -> -149 <= E <= 104 ->
  single (SF2Prim (binary_normalize prec emax M E s)).
Proof.
  intros HM HE _.
  assert (Hmag : (- pow2 (24 + E) < inject_Z M * pow2 E < pow2 (24 + E))%Q).
  { pose proof (pow2_pos E) as Hp.
    rewrite pow2_add, <- (pow2_inject 24) by lia.
    assert (H1 : (- inject_Z (2 ^ 24) < inject_Z M)%Q)
      by (rewrite <- inject_Z_opp, <- Zlt_Qlt; lia).
    assert (H2 : (inject_Z M < inject_Z (2 ^ 24))%Q)
      by (rewrite <- Zlt_Qlt; lia).
    split; nra. }
  destruct (binary_normalize_spec M E (24 + E) s Hmag ltac:(lia))
    as (r & Er & Hreal & _ & Hexact).
  assert (Hfit : fexp prec emax (Zdigits2 M + E) <= E).
  { rewrite fexp64, Zdigits2_abs.
    pose proof (Zdigits2_le (Z.abs M) 24 ltac:(lia) ltac:(lia)). lia. }
  destruct (Hexact Hfit) as [Hval Hvalid].
  exists M, E. split; [exact HM |]. split; [exact HE |].
  unfold Fval. rewrite Er, (Prim2SF_SF2Prim r Hvalid). exact Hval.
Qed.

Lemma float_of_bits32_single (w : Z) : single (float_of_bits32 w).
Proof.
  unfold float_of_bits32.
  set (s := Z.testbit w 31).
  assert (He : 0 <= Z.land (Z.shiftr w 23) 255 < 256).
  { change 255 with (Z.ones 8). rewrite Z.land_ones by lia.
    apply Z.mod_pos_bound. lia. }
  assert (Hm : 0 <= Z.land w 8388607 < 8388608).
  { change 8388607 with (Z.ones 23). rewrite Z.land_ones by lia.
    apply Z.mod_pos_bound. lia. }
  set (e := Z.land (Z.shiftr w 23) 255) in *.
  set (m := Z.land w 8388607) in *.
  cbv zeta.
  destruct (Z.eqb_spec e 255) as [_ | Hne].
  - destruct (m =? 0); [destruct s |]; intros H; vm_compute in H; contradiction.
  - destruct (Z.eqb_spec e 0) as [_ | Hn0].
    + apply normalize_single; [destruct s; simpl cond_Zopp; lia | lia].
    + apply normalize_single; [destruct s; simpl cond_Zopp; lia | lia].
Qed.

Lemma readFloatLE_single (buffer : list Z) (offset : Z) (x : float) :
  readFloatLE buffer offset = Some x -> single x.
Proof.
  unfold readFloatLE. destruct (offset <? 0); [discriminate |].
  destruct (buffer !! Z.to_nat offset) as [b0 |]; [| discriminate].
  destruct (buffer !! (Z.to_nat offset + 1)%nat) as [b1 |]; [| discriminate].
  destruct (buffer !! (Z.to_nat offset + 2)%nat) as [b2 |]; [| discriminate].
  destruct (buffer !! (Z.to_nat offset + 3)%nat) as [b3 |]; [| discriminate].
  simpl. intros [= <-]. apply float_of_bits32_single.
Qed.

(** Line 70: the integer a float sample becomes. *)
Definition sample32 (x : float) : float :=
  Math_round (Math_max (-1) (Math_min 1 x) * 32767)%float.

(** Rounding to the nearest integer, a tie going up. *)
Definition roundHalfUp (q : Q) : Z := Qfloor (q + (1 # 2)).

(** What the rule asks of a float sample: clamp to [-1, 1], scale by
    32767, round. *)
Definition scaled32 (x : float) : Z := roundHalfUp (clamped x * 32767).

Lemma clampUnit_bounds (q : Q) : (-1 <= clampUnit q <= 1)%Q.
Proof.
  unfold clampUnit.
  destruct (Qlt_le_dec 1 q); [lra |].
  destruct (Qlt_le_dec q (-1)); lra.
Qed.

Lemma clamped_bounds (x : float) : (-1 <= clamped x <= 1)%Q.
Proof.
  unfold clamped.
  destruct (Prim2SF x) as [s | s | | s m e];
    try apply clampUnit_bounds.
  destruct s; lra.
Qed.

Lemma roundHalfUp_bounds (q : Q) :
  (inject_Z (roundHalfUp q) - (1 # 2) <= q < inject_Z (roundHalfUp q) + (1 # 2))%Q.
Proof.
  unfold roundHalfUp.
  pose proof (Qfloor_le (q + (1 # 2))) as Hlo.
  pose proof (Qlt_floor (q + (1 # 2))) as Hhi.
  rewrite inject_Z_plus in Hhi. change (inject_Z 1) with 1%Q in Hhi.
  split; lra.
Qed.

Lemma roundHalfUp_int16 (q : Q) :
  (-32767 <= q <= 32767)%Q -> int16 (roundHalfUp q).
Proof.
  intros Hq. pose proof (roundHalfUp_bounds q) as [Hlo Hhi].
  set (k := roundHalfUp q) in *.
  assert (H1 : (inject_Z (-32768) < inject_Z k)%Q).
  { change (inject_Z (-32768)) with (-32768)%Q. lra. }
  assert (H2 : (inject_Z k < inject_Z 32768)%Q).
  { change (inject_Z 32768) with 32768%Q. lra. }
  rewrite <- Zlt_Qlt in H1, H2. unfold int16. lia.
Qed.

Lemma Freal_32767 : Freal 32767%float /\ (Fval 32767%float == 32767)%Q.
Proof. split; vm_compute; [exact I | reflexivity]. Qed.

(** Line 70 away from [NaN]: the sample is the clamped value scaled by
    32767, exactly, and rounded. *)
Lemma sample32_holds (x : float) :
  ~ Fnan x -> single x -> holds16 (sample32 x) (scaled32 x).
Proof.
  intros Hn Hs.
  destruct (clamp_spec x Hn) as (Hcr & Hcases & Hcv).
  set (c := Math_max (-1) (Math_min 1 x)) in *.
  destruct Freal_32767 as [Hkr Hkv].
  assert (Hrep : exists M E, Z.abs M < 2 ^ 24 /\ -149 <= E <= 104
                             /\ (Fval c == inject_Z M * pow2 E)%Q).
  { destruct Hcases as [Hc | [Hc | Hc]].
    - rewrite Hc in Hcr |- *. exact (Hs Hcr).
    - exists 1, 0. rewrite Hc. split; [reflexivity |]. split; [lia |].
      vm_compute. reflexivity.
    - exists (-1), 0. rewrite Hc. split; [reflexivity |]. split; [lia |].
      vm_compute. reflexivity. }
  destruct Hrep as (M & E & HM & HE & HcM).
  assert (Hprod : (Fval c * Fval 32767%float == inject_Z (M * 32767) * pow2 E)%Q).
  { rewrite HcM, Hkv, inject_Z_mult. change (inject_Z 32767) with 32767%Q. ring. }
  destruct (mul_float_exact c 32767%float (M * 32767) E Hcr Hkr Hprod
              ltac:(lia) ltac:(lia)) as [Hpr Hpv].
  rewrite Hcv, Hkv in Hpv.
  pose proof (clamped_bounds x) as Hb.
  unfold sample32. fold c. unfold scaled32.
  apply rounded_holds16; [exact Hpr | apply roundHalfUp_int16; lra |].
  rewrite Hpv. apply roundHalfUp_bounds.
Qed.

(** ** [NaN] samples *)

Lemma sample32_nan (x : float) : Fnan x -> Fnan (sample32 x).
Proof.
  intros H. unfold sample32, Math_min. rewrite (is_nan_true x H).
  change (is_nan 1) with false. cbv iota beta delta [orb].
  change (Math_max (-1) nan) with nan.
  change (nan * 32767)%float with nan. exact eq_refl.
Qed.

Lemma div_nan_l (x y : float) : Fnan x -> Fnan (x / y)%float.
Proof. unfold Fnan. intros H. rewrite div_spec, H. reflexivity. Qed.

Lemma Math_round_nan (x : float) : Fnan x -> Math_round x = x.
Proof. unfold Fnan, Math_round. intros ->. reflexivity. Qed.

Lemma ToInt16_nan (x : float) : Fnan x -> ToInt16 x = 0.
Proof. unfold Fnan, ToInt16, IntegerValue. intros ->. reflexivity. Qed.

Lemma sumFrom_nan_acc (vals : list float) (acc : float) :
  Fnan acc -> Fnan (sumFrom acc vals).
Proof.
  revert acc. induction vals as [| v vals IH]; intros acc H; [exact H |].
  apply IH, add_nan_l, H.
Qed.

Lemma sumFrom_nan (vals : list float) (acc : float) :
  Exists Fnan vals -> Fnan (sumFrom acc vals).
Proof.
  intros H. revert acc. induction H as [v vals Hv | v vals _ IH]; intros acc.
  - change (Fnan (sumFrom (acc + v) vals)).
    apply sumFrom_nan_acc, add_nan_r, Hv.
  - change (Fnan (sumFrom (acc + v) vals)). apply IH.
Qed.

Lemma Fnan_dec (x : float) : Fnan x \/ ~ Fnan x.
Proof.
  unfold Fnan. destruct (Prim2SF x); (left; reflexivity) || (right; discriminate).
Qed.

Lemma is_nan_Fnan (x : float) : is_nan x = true <-> Fnan x.
Proof.
  split; [| apply is_nan_true].
  intros H. destruct (Fnan_dec x) as [Hn | Hn]; [exact Hn |].
  rewrite (is_nan_false x Hn) in H. discriminate.
Qed.

Lemma existsb_is_nan (xs : list float) :
  if existsb is_nan xs then Exists Fnan xs else Forall (fun x => ~ Fnan x) xs.
Proof.
  induction xs as [| x xs IH]; [constructor |].
  simpl existsb. destruct (is_nan x) eqn:E.
  - left. apply is_nan_Fnan, E.
  - simpl orb. destruct (existsb is_nan xs).
    + right. exact IH.
    + constructor; [| exact IH].
      intros H. apply is_nan_Fnan in H. congruence.
Qed.

(** ** The frame *)

(** The mean of the integers [zs]. *)
Definition mean (zs : list Z) : Q :=
  inject_Z (sumZ zs) / inject_Z (Z.of_nat (length zs)).

Lemma roundHalfUp_mean (zs : list Z) :
  zs <> [] ->
  roundHalfUp (mean zs)
  = (2 * sumZ zs + Z.of_nat (length zs)) / (2 * Z.of_nat (length zs)).
Proof.
  intros Hne. unfold roundHalfUp, mean.
  set (S := sumZ zs). set (n := Z.of_nat (length zs)).
  assert (Hn : 0 < n) by (unfold n; destruct zs; [congruence | simpl; lia]).
  assert (Heq : (inject_Z S / inject_Z n + (1 # 2)
                 == (2 * S + n) # Z.to_pos (2 * n))%Q).
  { assert (Hi : ~ (inject_Z n == 0)%Q).
    { change 0%Q with (inject_Z 0). rewrite inject_Z_injective. lia. }
    apply (Qmult_inj_r _ _ (inject_Z (2 * n))).
    { change 0%Q with (inject_Z 0). rewrite inject_Z_injective. lia. }
    rewrite (Qmake_mul (2 * S + n) (2 * n)) by lia.
    rewrite inject_Z_plus, !inject_Z_mult. change (inject_Z 2) with 2%Q.
    field. exact Hi. }
  rewrite Heq. unfold Qfloor. rewrite Z2Pos.id by lia. reflexivity.
Qed.

(** With 32-bit source samples the channel samples are the floats read,
    clamped, scaled and rounded. *)
Lemma channelValues_32 (fmt : Format) (buffer : list Z) (i : Z)
  (cs : list Z) (xs : list float) :
  bitDepth fmt = 32 ->
  mapM (fun c => readFloatLE buffer ((i * channels fmt + c) * bytesPerSample fmt)) cs
  = Some xs ->
  mapM (fun c => channelSample fmt buffer
                   ((i * channels fmt + c) * bytesPerSample fmt)) cs
  = Some (map sample32 xs)
  /\ Forall single xs.
Proof.
  intros Hd. revert xs. induction cs as [| c cs IH]; intros xs H.
  - injection H as <-. split; [reflexivity | constructor].
  - change (mapM ?f (c :: cs)) with (y ← f c; k ← mapM f cs; mret (y :: k)) in H.
    cbv beta in H.
    destruct (readFloatLE buffer ((i * channels fmt + c) * bytesPerSample fmt))
      as [x |] eqn:Ex; [| discriminate].
    destruct (mapM _ cs) as [xs' |] eqn:Exs; [| discriminate].
    simpl in H. injection H as <-.
    destruct (IH xs' eq_refl) as (Hvals & Hsingle).
    split; [| constructor; [exact (readFloatLE_single _ _ _ Ex) | exact Hsingle]].
    assert (Hc : channelSample fmt buffer
                   ((i * channels fmt + c) * bytesPerSample fmt)
                 = Some (sample32 x)).
    { unfold channelSample. rewrite Hd. change (32 =? 32) with true. cbv iota.
      rewrite Ex. reflexivity. }
    change (mapM ?f (c :: cs)) with (y ← f c; k ← mapM f cs; mret (y :: k)).
    cbv beta. rewrite Hc. simpl. rewrite Hvals. reflexivity.
Qed.

Lemma holds16_samples (xs : list float) :
  Forall (fun x => ~ Fnan x) xs -> Forall single xs ->
  Forall2 holds16 (map sample32 xs) (map scaled32 xs).
Proof.
  induction 1 as [| x xs Hx _ IH]; intros Hs; [constructor |].
  apply Forall_cons_1 in Hs as [Hsx Hsxs]. simpl.
  constructor; [apply sample32_holds; assumption | apply IH, Hsxs].
Qed.

(** A frame with a [NaN] sample is stored as 0. *)
Lemma frame_nan (fmt : Format) (buffer : list Z) (i : Z) (vals : list float) :
  channelValues fmt buffer i = Some vals ->
  Exists Fnan vals ->
  downmixFrame fmt buffer i = Some 0.
Proof.
  intros Hvals Hnan.
  unfold downmixFrame. rewrite DownmixSpec.accumulate_sum.
  unfold channelValues in Hvals. rewrite Hvals. simpl.
  pose proof (div_nan_l _ (Number (channels fmt)) (sumFrom_nan vals 0%float Hnan))
    as Hq.
  rewrite (Math_round_nan _ Hq), (ToInt16_nan _ Hq). reflexivity.
Qed.

End FloatSamples.

(** ** Reads inside and outside the buffer *)

Section DownmixReads.

Import Downmix.

Lemma readInt16LE_inside (buffer : list Z) (offset : Z) :
  0 <= offset -> offset + 2 <= Z.of_nat (length buffer) ->
  is_Some (readInt16LE buffer offset).
Proof.
  intros H0 H1. unfold readInt16LE.
  destruct (Z.ltb_spec offset 0); [lia |].
  destruct (lookup_lt_is_Some_2 buffer (Z.to_nat offset) ltac:(lia)) as [lo ->].
  destruct (lookup_lt_is_Some_2 buffer (S (Z.to_nat offset)) ltac:(lia)) as [hi ->].
  simpl. eexists. reflexivity.
Qed.

Lemma readInt16LE_outside (buffer : list Z) (offset : Z) :
  Z.of_nat (length buffer) < offset + 2 -> readInt16LE buffer offset = None.
Proof.
  intros H. unfold readInt16LE.
  destruct (Z.ltb_spec offset 0); [reflexivity |].
  destruct (buffer !! Z.to_nat offset) as [lo |]; [| reflexivity].
  rewrite (proj2 (lookup_ge_None buffer (S (Z.to_nat offset)))) by lia.
  reflexivity.
Qed.

Lemma readFloatLE_inside (buffer : list Z) (offset : Z) :
  0 <= offset -> offset + 4 <= Z.of_nat (length buffer) ->
  is_Some (readFloatLE buffer offset).
Proof.
  intros H0 H1. unfold readFloatLE.
  destruct (Z.ltb_spec offset 0); [lia |].
  destruct (lookup_lt_is_Some_2 buffer (Z.to_nat offset) ltac:(lia)) as [b0 ->].
  destruct (lookup_lt_is_Some_2 buffer (Z.to_nat offset + 1) ltac:(lia)) as [b1 ->].
  destruct (lookup_lt_is_Some_2 buffer (Z.to_nat offset + 2) ltac:(lia)) as [b2 ->].
  destruct (lookup_lt_is_Some_2 buffer (Z.to_nat offset + 3) ltac:(lia)) as [b3 ->].
  simpl. eexists. reflexivity.
Qed.

Lemma readFloatLE_outside (buffer : list Z) (offset : Z) :
  Z.of_nat (length buffer) < offset + 4 -> readFloatLE buffer offset = None.
Proof.
  intros H. unfold readFloatLE.
  destruct (Z.ltb_spec offset 0); [reflexivity |].
  destruct (buffer !! Z.to_nat offset) as [b0 |]; [| reflexivity].
  destruct (buffer !! (Z.to_nat offset + 1)%nat) as [b1 |]; [| reflexivity].
  destruct (buffer !! (Z.to_nat offset + 2)%nat) as [b2 |]; [| reflexivity].
  rewrite (proj2 (lookup_ge_None buffer (Z.to_nat offset + 3))) by lia.
  reflexivity.
Qed.

(** The sample widths the program decodes as they are stored. *)
Definition decoded (fmt : Format) : Prop :=
  bitDepth fmt = 16 \/ bitDepth fmt = 32.

Lemma decoded_bytes (fmt : Format) :
  decoded fmt ->
  (bitDepth fmt = 16 /\ bytesPerSample fmt = 2)
  \/ (bitDepth fmt = 32 /\ bytesPerSample fmt = 4).
Proof.
  unfold bytesPerSample. intros [H | H]; rewrite H; [left | right];
    split; reflexivity.
Qed.

Lemma channelSample_inside (fmt : Format) (buffer : list Z) (offset : Z) :
  decoded fmt ->
  0 <= offset -> offset + bytesPerSample fmt <= Z.of_nat (length buffer) ->
  is_Some (channelSample fmt buffer offset).
Proof.
  intros Hd H0 H1. unfold channelSample.
  destruct (decoded_bytes fmt Hd) as [[Hb Hs] | [Hb Hs]]; rewrite Hb, Hs in *.
  - change (16 =? 32) with false. cbv iota.
    destruct (readInt16LE_inside buffer offset H0 H1) as [z ->].
    simpl. eexists. reflexivity.
  - change (32 =? 32) with true. cbv iota.
    destruct (readFloatLE_inside buffer offset H0 H1) as [x ->].
    simpl. eexists. reflexivity.
Qed.

Lemma channelSample_outside (fmt : Format) (buffer : list Z) (offset : Z) :
  decoded fmt ->
  Z.of_nat (length buffer) < offset + bytesPerSample fmt ->
  channelSample fmt buffer offset = None.
Proof.
  intros Hd H1. unfold channelSample.
  destruct (decoded_bytes fmt Hd) as [[Hb Hs] | [Hb Hs]]; rewrite Hb, Hs in *.
  - change (16 =? 32) with false. cbv iota.
    rewrite (readInt16LE_outside buffer offset H1). reflexivity.
  - change (32 =? 32) with true. cbv iota.
    rewrite (readFloatLE_outside buffer offset H1). reflexivity.
Qed.

Lemma downmixFrame_is_Some (fmt : Format) (buffer : list Z) (i : Z) :
  (forall c, 0 <= c < channels fmt ->
     is_Some (channelSample fmt buffer
                ((i * channels fmt + c) * bytesPerSample fmt))) ->
  is_Some (downmixFrame fmt buffer i).
Proof.
  intros H. unfold downmixFrame. rewrite DownmixSpec.accumulate_sum.
  destruct (mapM_is_Some_2
              (fun c => channelSample fmt buffer
                          ((i * channels fmt + c) * bytesPerSample fmt))
              (seqZ 0 (channels fmt))) as [vals ->].
  - apply Forall_forall. intros c Hc. apply elem_of_seqZ in Hc.
    apply H. lia.
  - simpl. eexists. reflexivity.
Qed.

Lemma downmixFrame_None (fmt : Format) (buffer : list Z) (i c : Z) :
  0 <= c < channels fmt ->
  channelSample fmt buffer ((i * channels fmt + c) * bytesPerSample fmt) = None ->
  downmixFrame fmt buffer i = None.
Proof.
  intros Hc Hnone. unfold downmixFrame. rewrite DownmixSpec.accumulate_sum.
  rewrite (mapM_None_2
             (fun c => channelSample fmt buffer
                         ((i * channels fmt + c) * bytesPerSample fmt))
             (seqZ 0 (channels fmt))); [reflexivity |].
  apply Exists_exists. exists c. split; [| exact Hnone].
  apply elem_of_seqZ. lia.
Qed.

Lemma downmixFrame_int16 (fmt : Format) (buffer : list Z) (i k : Z) :
  downmixFrame fmt buffer i = Some k -> int16 k.
Proof.
  unfold downmixFrame.
  destruct (accumulate fmt buffer i 0%float (seqZ 0 (channels fmt)));
    [| discriminate].
  simpl. intros [= <-]. apply wrap16_int16.
Qed.

(** A frame that fails makes the whole loop fail. *)
Lemma downmix_frame_fails (fmt : Format) (buffer : list Z) (i : Z) :
  let len := Z.of_nat (length buffer) in
  let frameBytes := bytesPerSample fmt * channels fmt in
  0 < frameBytes ->
  0 <= i < (len + frameBytes - 1) / frameBytes ->
  downmixFrame fmt buffer i = None ->
  downmix fmt buffer = None.
Proof.
  intros len frameBytes Hfb Hi Hnone. unfold downmix. fold len frameBytes.
  destruct (Z.eqb_spec frameBytes 0) as [? | _]; [lia |].
  rewrite (mapM_None_2 (downmixFrame fmt buffer)); [reflexivity |].
  apply Exists_exists. exists i. split; [| exact Hnone].
  apply elem_of_seqZ. lia.
Qed.

(** With a whole number [n] of readable frames the loop stores [n]
    elements, one for each frame. *)
Lemma downmix_whole (fmt : Format) (buffer : list Z) (n : nat) :
  decoded fmt -> 1 <= channels fmt ->
  Z.of_nat (length buffer)
  = Z.of_nat n * (bytesPerSample fmt * channels fmt) ->
  exists out,
    downmix fmt buffer = Some out
    /\ length out = n
    /\ forall i, (i < n)%nat -> downmixFrame fmt buffer (Z.of_nat i) = out !! i.
Proof.
  intros Hd Hch Hlen.
  set (fb := bytesPerSample fmt * channels fmt) in *.
  assert (Hbps : 2 <= bytesPerSample fmt)
    by (destruct (decoded_bytes fmt Hd) as [[_ ->] | [_ ->]]; lia).
  assert (Hfb : 0 < fb) by (unfold fb; nia).
  assert (Hframes : Forall (is_Some ∘ downmixFrame fmt buffer)
                      (seqZ 0 (Z.of_nat n))).
  { apply Forall_forall. intros i Hi. apply elem_of_seqZ in Hi.
    apply downmixFrame_is_Some. intros c Hc.
    apply channelSample_inside; [exact Hd | nia |].
    rewrite Hlen. unfold fb. nia. }
  destruct (mapM_is_Some_2 _ _ Hframes) as [all Hall].
  assert (Hlenall : length all = n).
  { apply length_mapM in Hall. rewrite length_seqZ in Hall. lia. }
  exists all. split; [| split; [exact Hlenall |]].
  - unfold downmix. fold fb.
    destruct (Z.eqb_spec fb 0) as [? | _]; [lia |].
    rewrite Hlen.
    replace ((Z.of_nat n * fb + fb - 1) / fb) with (Z.of_nat n)
      by (apply (Z.div_unique _ _ _ (fb - 1)); lia).
    rewrite Hall. simpl. rewrite Z.div_mul by lia.
    rewrite take_ge by lia. reflexivity.
  - intros i Hi. apply mapM_Some_1 in Hall.
    destruct (lookup_lt_is_Some_2 all i ltac:(lia)) as [k Hk].
    rewrite Hk.
    destruct (Forall2_lookup_r _ _ _ _ _ Hall Hk) as (j & Hj & Hf).
    apply lookup_seqZ in Hj as [-> _]. rewrite Z.add_0_l in Hf. exact Hf.
Qed.


Lemma roundHalfUp_scaled_bounds (q : Q) :
  (-32767 <= q <= 32767)%Q -> -32767 <= roundHalfUp q <= 32767.
Proof.
  intros Hq. pose proof (roundHalfUp_bounds q) as [Hlo Hhi].
  set (k := roundHalfUp q) in *.
  assert (H1 : (inject_Z (-32768) < inject_Z k)%Q).
  { change (inject_Z (-32768)) with (-32768)%Q. lra. }
  assert (H2 : (inject_Z k < inject_Z 32768)%Q).
  { change (inject_Z 32768) with 32768%Q. lra. }
  rewrite <- Zlt_Qlt in H1, H2. lia.
Qed.

Lemma mapM_length_seqZ {A} (f : Z -> option A) (n : Z) (l : list A) :
  0 <= n -> mapM f (seqZ 0 n) = Some l -> Z.of_nat (length l) = n.
Proof.
  intros Hn H. apply length_mapM in H. rewrite length_seqZ in H. lia.
Qed.

(** A 16-bit frame, from the integers read for its channels. *)
Lemma frame16_rounded_mean (fmt : Format) (buffer : list Z) (i : Z) (zs : list Z) :
  bitDepth fmt <> 32 ->
  1 <= channels fmt < 65536 ->
  mapM (fun c => readInt16LE buffer
                   ((i * channels fmt + c) * bytesPerSample fmt))
       (seqZ 0 (channels fmt)) = Some zs ->
  downmixFrame fmt buffer i = Some (roundHalfUp (mean zs)).
Proof.
  intros Hd Hn Hzs.
  destruct (channelValues_16 fmt buffer i _ zs Hd Hzs) as (vals & Hvals & H16).
  assert (Hlen : Z.of_nat (length zs) = channels fmt)
    by (eapply mapM_length_seqZ; [| exact Hzs]; lia).
  assert (Hne : zs <> []) by (intros ->; simpl in Hlen; lia).
  rewrite (frame_mean fmt buffer i vals zs Hn Hvals H16).
  rewrite (roundHalfUp_mean zs Hne), Hlen. reflexivity.
Qed.

Lemma sumZ_range (zs : list Z) (lo hi : Z) :
  Forall (fun z => lo <= z <= hi) zs ->
  lo * Z.of_nat (length zs) <= sumZ zs <= hi * Z.of_nat (length zs).
Proof.
  induction 1 as [| z zs Hz _ IH]; [unfold sumZ; simpl; lia |].
  rewrite sumZ_cons. change (length (z :: zs)) with (S (length zs)). nia.
Qed.

(** The rounded mean of integers within [lo, hi] is within [lo, hi]. *)
Lemma roundHalfUp_mean_range (zs : list Z) (lo hi : Z) :
  zs <> [] -> Forall (fun z => lo <= z <= hi) zs ->
  lo <= roundHalfUp (mean zs) <= hi.
Proof.
  intros Hne Hall. rewrite (roundHalfUp_mean zs Hne).
  pose proof (sumZ_range zs lo hi Hall) as HS.
  set (n := Z.of_nat (length zs)) in *.
  assert (Hn : 0 < n) by (unfold n; destruct zs; [congruence | simpl; lia]).
  split.
  - apply Z.div_le_lower_bound; nia.
  - enough ((2 * sumZ zs + n) / (2 * n) < hi + 1) by lia.
    apply Z.div_lt_upper_bound; nia.
Qed.

End DownmixReads.

Module DownmixProps.

Import Downmix.
Import DownmixSpec.

(** X1.  Frames of integer samples (lines 65-74; every depth of whole bytes
    other than 32 is read with [readInt16LE]): when the channel reads of
    frame [i] give the integers [zs], the element stored is their mean
    rounded to the nearest integer, a tie going up, with no rounding error
    from the floating-point sum and division. *)
Theorem frame_mean_16 (fmt : Format) (buffer : list Z) (i : Z) (zs : list Z) :
  bitDepth fmt <> 32 -> bitDepth fmt mod 8 = 0 ->
  1 <= channels fmt < 65536 ->
  mapM (fun c => readInt16LE buffer
                   ((i * channels fmt + c) * bytesPerSample fmt))
       (seqZ 0 (channels fmt)) = Some zs ->
  downmixFrame fmt buffer i = Some (roundHalfUp (mean zs))
  /\ int16 (roundHalfUp (mean zs)).
Proof.
  intros Hd _ Hn Hzs.
  pose proof (frame16_rounded_mean fmt buffer i zs Hd Hn Hzs) as Hframe.
  split; [exact Hframe | exact (downmixFrame_int16 _ _ _ _ Hframe)].
Qed.

Lemma frame_mean_16_witness :
  downmixFrame stereo16 (writeInt16LE (-100) ++ writeInt16LE 99) 0
  = Some (roundHalfUp (mean [-100; 99]))
  /\ int16 (roundHalfUp (mean [-100; 99])).
Proof.
  apply (frame_mean_16 stereo16 (writeInt16LE (-100) ++ writeInt16LE 99) 0
           [-100; 99]).
  - discriminate.
  - reflexivity.
  - simpl. lia.
  - vm_compute. reflexivity.
Defined.

(** X2.  Frames of integer samples: the element stored lies between the least
    and the greatest channel sample of the frame; channels that agree give
    their common value. *)
Theorem frame_range_16 (fmt : Format) (buffer : list Z) (i : Z)
  (zs : list Z) (lo hi : Z) :
  bitDepth fmt <> 32 -> bitDepth fmt mod 8 = 0 ->
  1 <= channels fmt < 65536 ->
  mapM (fun c => readInt16LE buffer
                   ((i * channels fmt + c) * bytesPerSample fmt))
       (seqZ 0 (channels fmt)) = Some zs ->
  Forall (fun z => lo <= z <= hi) zs ->
  exists y, downmixFrame fmt buffer i = Some y /\ lo <= y <= hi.
Proof.
  intros Hd _ Hn Hzs Hall.
  exists (roundHalfUp (mean zs)).
  split; [exact (frame16_rounded_mean fmt buffer i zs Hd Hn Hzs) |].
  apply roundHalfUp_mean_range; [| exact Hall].
  assert (Hlen : Z.of_nat (length zs) = channels fmt)
    by (eapply mapM_length_seqZ; [| exact Hzs]; lia).
  intros ->. simpl in Hlen. lia.
Qed.

Lemma frame_range_16_witness :
  exists y,
    downmixFrame stereo16 (writeInt16LE (-100) ++ writeInt16LE 99) 0 = Some y
    /\ -100 <= y <= 99.
Proof.
  apply (frame_range_16 stereo16 (writeInt16LE (-100) ++ writeInt16LE 99) 0
           [-100; 99] (-100) 99).
  - discriminate.
  - reflexivity.
  - simpl. lia.
  - vm_compute. reflexivity.
  - repeat constructor; lia.
Defined.

(** X3.  32-bit float samples (line 70): a float that is not [NaN] becomes the
    integer nearest to its value clamped to [-1, 1] and multiplied by 32767
    (a tie going up); the product is computed exactly, the infinities count
    as 1 and -1, and the result is within [-32767, 32767]. *)
Theorem float_sample_scaled (fmt : Format) (buffer : list Z) (offset : Z)
  (x : float) :
  bitDepth fmt = 32 ->
  readFloatLE buffer offset = Some x ->
  ~ Fnan x ->
  exists v,
    channelSample fmt buffer offset = Some v
    /\ Freal v
    /\ (Fval v == inject_Z (scaled32 x))%Q
    /\ -32767 <= scaled32 x <= 32767.
Proof.
  intros Hd Hx Hn. exists (sample32 x).
  pose proof (sample32_holds x Hn (readFloatLE_single _ _ _ Hx))
    as (Hr & Hv & _).
  split; [| split; [exact Hr | split; [exact Hv |]]].
  - unfold channelSample. rewrite Hd. change (32 =? 32) with true. cbv iota.
    rewrite Hx. reflexivity.
  - unfold scaled32. apply roundHalfUp_scaled_bounds.
    pose proof (clamped_bounds x). lra.
Qed.

Definition mono32 : Format :=
  {| sampleRate := 48000; bitDepth := 32; channels := 1 |}.

(** The float 0.5, bytes [00 00 00 3F]: 16383.5 is rounded up to 16384. *)
Lemma float_sample_scaled_witness :
  scaled32 0.5%float = 16384
  /\ exists v,
       channelSample mono32 [0; 0; 0; 63] 0 = Some v
       /\ Freal v
       /\ (Fval v == inject_Z (scaled32 0.5%float))%Q
       /\ -32767 <= scaled32 0.5%float <= 32767.
Proof.
  split; [vm_compute; reflexivity |].
  apply (float_sample_scaled mono32 [0; 0; 0; 63] 0 0.5%float).
  - reflexivity.
  - vm_compute. reflexivity.
  - unfold Fnan. vm_compute. discriminate.
Defined.

(** X4.  32-bit frames (lines 65-74): when none of the floats read for frame
    [i] is [NaN], the element stored is the mean of the scaled samples,
    rounded to the nearest integer, a tie going up. *)
Theorem frame_mean_32 (fmt : Format) (buffer : list Z) (i : Z)
  (xs : list float) :
  bitDepth fmt = 32 ->
  1 <= channels fmt < 65536 ->
  mapM (fun c => readFloatLE buffer
                   ((i * channels fmt + c) * bytesPerSample fmt))
       (seqZ 0 (channels fmt)) = Some xs ->
  Forall (fun x => ~ Fnan x) xs ->
  downmixFrame fmt buffer i = Some (roundHalfUp (mean (map scaled32 xs))).
Proof.
  intros Hd Hn Hxs Hnan.
  destruct (channelValues_32 fmt buffer i _ xs Hd Hxs) as (Hvals & Hsingle).
  assert (Hlen : Z.of_nat (length xs) = channels fmt)
    by (eapply mapM_length_seqZ; [| exact Hxs]; lia).
  assert (Hne : map scaled32 xs <> [])
    by (destruct xs; [simpl in Hlen; lia | discriminate]).
  rewrite (frame_mean fmt buffer i (map sample32 xs) (map scaled32 xs) Hn Hvals
             (holds16_samples xs Hnan Hsingle)).
  rewrite (roundHalfUp_mean _ Hne), length_map, Hlen. reflexivity.
Qed.

Definition stereo32 : Format :=
  {| sampleRate := 48000; bitDepth := 32; channels := 2 |}.

(** The floats 0.5 and -2: 16384 and -32767, whose mean -8191.5 is rounded
    up to -8191. *)
Lemma frame_mean_32_witness :
  roundHalfUp (mean (map scaled32 [0.5%float; (-2)%float])) = -8191
  /\ downmixFrame stereo32 [0; 0; 0; 63; 0; 0; 0; 192] 0
     = Some (roundHalfUp (mean (map scaled32 [0.5%float; (-2)%float]))).
Proof.
  split; [vm_compute; reflexivity |].
  apply (frame_mean_32 stereo32 [0; 0; 0; 63; 0; 0; 0; 192] 0
           [0.5%float; (-2)%float]).
  - reflexivity.
  - simpl. lia.
  - vm_compute. reflexivity.
  - repeat constructor; unfold Fnan; vm_compute; discriminate.
Defined.

(** X5.  A [NaN] among the floats of a frame makes the accumulator [NaN], and
    the element stored for the frame is 0. *)
Theorem frame_nan_zero (fmt : Format) (buffer : list Z) (i : Z)
  (xs : list float) :
  bitDepth fmt = 32 ->
  mapM (fun c => readFloatLE buffer
                   ((i * channels fmt + c) * bytesPerSample fmt))
       (seqZ 0 (channels fmt)) = Some xs ->
  Exists Fnan xs ->
  downmixFrame fmt buffer i = Some 0.
Proof.
  intros Hd Hxs Hnan.
  destruct (channelValues_32 fmt buffer i _ xs Hd Hxs) as (Hvals & _).
  apply (frame_nan fmt buffer i (map sample32 xs) Hvals).
  apply Exists_fmap. eapply Exists_impl; [exact Hnan |].
  intros x Hx. apply sample32_nan, Hx.
Qed.

(** The floats 1 and [NaN] (bytes [00 00 C0 7F]). *)
Lemma frame_nan_zero_witness :
  downmixFrame stereo32 [0; 0; 128; 63; 0; 0; 192; 127] 0 = Some 0.
Proof.
  apply (frame_nan_zero stereo32 [0; 0; 128; 63; 0; 0; 192; 127] 0
           [1%float; nan]).
  - reflexivity.
  - vm_compute. reflexivity.
  - right. left. reflexivity.
Defined.

(** X6.  Lines 62-75 on a buffer that holds a whole number [n] of 16-bit or
    32-bit frames: the loop raises nothing and [samples] has [n] elements,
    element [i] being what frame [i] gives, a 16-bit value. *)
Theorem downmix_whole_frames (fmt : Format) (buffer : list Z) (n : nat) :
  decoded fmt -> 1 <= channels fmt ->
  Z.of_nat (length buffer)
  = Z.of_nat n * (bytesPerSample fmt * channels fmt) ->
  exists out,
    downmix fmt buffer = Some out
    /\ length out = n
    /\ Forall int16 out
    /\ forall i, (i < n)%nat -> downmixFrame fmt buffer (Z.of_nat i) = out !! i.
Proof.
  intros Hd Hch Hlen.
  destruct (downmix_whole fmt buffer n Hd Hch Hlen) as (out & Hout & Hn & Hi).
  exists out. split; [exact Hout |]. split; [exact Hn |].
  split; [| exact Hi].
  apply Forall_lookup. intros i k Hk.
  assert (Hlt : (i < n)%nat) by (rewrite <- Hn; eapply lookup_lt_Some, Hk).
  apply (downmixFrame_int16 fmt buffer (Z.of_nat i)).
  rewrite (Hi i Hlt). exact Hk.
Qed.

Lemma downmix_whole_frames_witness :
  exists out,
    downmix stereo16 (writeInt16LE 100 ++ writeInt16LE 200
                      ++ writeInt16LE (-7) ++ writeInt16LE 7) = Some out
    /\ length out = 2%nat
    /\ Forall int16 out
    /\ forall i, (i < 2)%nat ->
         downmixFrame stereo16 (writeInt16LE 100 ++ writeInt16LE 200
                                ++ writeInt16LE (-7) ++ writeInt16LE 7)
                      (Z.of_nat i) = out !! i.
Proof.
  apply (downmix_whole_frames stereo16
           (writeInt16LE 100 ++ writeInt16LE 200
            ++ writeInt16LE (-7) ++ writeInt16LE 7) 2).
  - left. reflexivity.
  - simpl. lia.
  - reflexivity.
Defined.

(** X7.  A trailing partial frame is not dropped: the loop runs into it, the
    read of its last channel falls outside the buffer and raises, and no
    sample array is produced. *)
Theorem downmix_partial_frame (fmt : Format) (buffer : list Z) :
  decoded fmt -> 1 <= channels fmt ->
  Z.of_nat (length buffer) mod (bytesPerSample fmt * channels fmt) <> 0 ->
  downmix fmt buffer = None.
Proof.
  intros Hd Hch Hmod.
  set (fb := bytesPerSample fmt * channels fmt) in *.
  set (len := Z.of_nat (length buffer)) in *.
  assert (Hbps : 2 <= bytesPerSample fmt)
    by (destruct (decoded_bytes fmt Hd) as [[_ ->] | [_ ->]]; lia).
  assert (Hfb : 0 < fb) by (unfold fb; nia).
  pose proof (Z.div_mod len fb ltac:(lia)) as Hdm.
  pose proof (Z.mod_pos_bound len fb Hfb) as Hr.
  assert (Hlen0 : 0 <= len) by (unfold len; lia).
  assert (Hq : 0 <= len / fb) by (apply Z.div_pos; lia).
  assert (Hceil : (len + fb - 1) / fb = len / fb + 1).
  { symmetry. apply (Z.div_unique _ _ _ (len mod fb - 1)); lia. }
  apply (downmix_frame_fails fmt buffer (len / fb)).
  - exact Hfb.
  - fold len fb. rewrite Hceil. lia.
  - apply (downmixFrame_None fmt buffer (len / fb) (channels fmt - 1));
      [lia |].
    apply channelSample_outside; [exact Hd |].
    fold len. unfold fb in *. nia.
Qed.

Lemma downmix_partial_frame_witness :
  downmix stereo16 (writeInt16LE 100 ++ writeInt16LE 200 ++ writeInt16LE 7)
  = None.
Proof.
  apply (downmix_partial_frame stereo16
           (writeInt16LE 100 ++ writeInt16LE 200 ++ writeInt16LE 7)).
  - left. reflexivity.
  - simpl. lia.
  - vm_compute. discriminate.
Defined.

(** X8.  8-bit input: every sample is read with [readInt16LE], two bytes from
    a one-byte stride, so the read at the last byte of the buffer falls
    outside it; any input that is not empty makes the loop raise. *)
Theorem downmix_8bit_raises (fmt : Format) (buffer : list Z) :
  bitDepth fmt = 8 -> 1 <= channels fmt -> buffer <> [] ->
  downmix fmt buffer = None.
Proof.
  intros Hd Hch Hne.
  assert (Hbps : bytesPerSample fmt = 1)
    by (unfold bytesPerSample; rewrite Hd; reflexivity).
  set (len := Z.of_nat (length buffer)).
  assert (Hlen : 1 <= len) by (unfold len; destruct buffer; [congruence | simpl; lia]).
  set (ch := channels fmt) in *.
  pose proof (Z.div_mod (len - 1) ch ltac:(lia)) as Hdm.
  pose proof (Z.mod_pos_bound (len - 1) ch ltac:(lia)) as Hr.
  assert (Hq : 0 <= (len - 1) / ch) by (apply Z.div_pos; lia).
  apply (downmix_frame_fails fmt buffer ((len - 1) / ch)).
  - rewrite Hbps. fold ch. lia.
  - fold len. rewrite Hbps. fold ch. rewrite Z.mul_1_l.
    replace (len + ch - 1) with (len - 1 + 1 * ch) by lia.
    rewrite Z.div_add by lia. lia.
  - apply (downmixFrame_None fmt buffer ((len - 1) / ch) ((len - 1) mod ch));
      [fold ch; lia |].
    unfold channelSample. rewrite Hd, Hbps. change (8 =? 32) with false.
    cbv iota. fold ch.
    rewrite readInt16LE_outside; [reflexivity |]. fold len. lia.
Qed.

Definition mono8 : Format :=
  {| sampleRate := 8000; bitDepth := 8; channels := 1 |}.

Lemma downmix_8bit_raises_witness : downmix mono8 [128; 130; 127] = None.
Proof.
  apply (downmix_8bit_raises mono8 [128; 130; 127]).
  - reflexivity.
  - simpl. lia.
  - discriminate.
Defined.

End DownmixProps.

(** ** Bytes and the samples laid over them *)

Section PcmBytes.

Import Downmix.

(** A byte of a [Buffer]. *)
Definition is_byte (b : Z) : Prop := 0 <= b < 256.

Lemma writeInt16LE_bytes (v : Z) : Forall is_byte (writeInt16LE v).
Proof.
  unfold writeInt16LE, is_byte.
  change 255 with (Z.ones 8). rewrite !Z.land_ones by lia.
  repeat constructor; apply Z.mod_pos_bound; lia.
Qed.

Lemma inputPcm_bytes (xs : list Z) : Forall is_byte (inputPcm xs).
Proof.
  unfold inputPcm. induction xs as [| x xs IH]; [constructor |].
  change (flat_map writeInt16LE (x :: xs))
    with (writeInt16LE x ++ flat_map writeInt16LE xs).
  apply Forall_app. split; [apply writeInt16LE_bytes | exact IH].
Qed.

(** Every byte pair is written back from the 16-bit value it stands for;
    checked on each of the 65536 pairs. *)
Lemma pairs_roundtrip_all :
  holds_from (fun w => match writeInt16LE (int16_of_bytes (w mod 256) (w / 256)) with
                       | [lo; hi] => (lo =? w mod 256) && (hi =? w / 256)
                       | _ => false
                       end)
             0 (Z.to_nat 65536) = true.
Proof. vm_compute. reflexivity. Qed.

Lemma pairs_roundtrip (lo hi : Z) :
  is_byte lo -> is_byte hi -> writeInt16LE (int16_of_bytes lo hi) = [lo; hi].
Proof.
  unfold is_byte. intros Hlo Hhi.
  pose proof (holds_from_spec _ _ _ pairs_roundtrip_all (lo + hi * 256)) as Hall.
  cbv beta in Hall.
  replace ((lo + hi * 256) mod 256) with lo in Hall
    by (rewrite Z.mod_add, Z.mod_small; lia).
  replace ((lo + hi * 256) / 256) with hi in Hall
    by (rewrite Z.div_add, Z.div_small; lia).
  specialize (Hall ltac:(rewrite Z2Nat.id by discriminate; lia)).
  unfold writeInt16LE in Hall |- *.
  apply andb_prop in Hall as [H1 H2].
  apply Z.eqb_eq in H1, H2. rewrite H1, H2. reflexivity.
Qed.

Lemma length_Int16Array_of_bytes (bytes : list Z) :
  length (Int16Array_of_bytes bytes) = (length bytes / 2)%nat.
Proof.
  assert (H : forall n bs, (length bs < n)%nat ->
                length (Int16Array_of_bytes bs) = (length bs / 2)%nat).
  { induction n as [| n IH]; intros bs Hn; [lia |].
    destruct bs as [| lo [| hi rest]]; [reflexivity | reflexivity |].
    simpl Int16Array_of_bytes. simpl length.
    rewrite IH by (simpl in Hn; lia).
    change (S (S (length rest))) with (1 * 2 + length rest)%nat.
    rewrite Nat.div_add_l by lia. reflexivity. }
  apply (H (S (length bytes))). lia.
Qed.

(** Element [i] of the view is the 16-bit integer read at byte [2 i]. *)
Lemma Int16Array_of_bytes_lookup (bytes : list Z) (i : nat) :
  (2 * i + 2 <= length bytes)%nat ->
  Int16Array_of_bytes bytes !! i = readInt16LE bytes (2 * Z.of_nat i).
Proof.
  revert bytes. induction i as [| i IH]; intros bytes Hi.
  - destruct bytes as [| lo [| hi rest]]; simpl in Hi; try lia. reflexivity.
  - destruct bytes as [| lo [| hi rest]]; simpl in Hi; try lia.
    simpl Int16Array_of_bytes. rewrite lookup_cons_ne_0, Nat.pred_succ by lia.
    rewrite IH by lia. unfold readInt16LE.
    destruct (Z.ltb_spec (2 * Z.of_nat i) 0),
             (Z.ltb_spec (2 * Z.of_nat (S i)) 0); try lia.
    replace (Z.to_nat (2 * Z.of_nat (S i)))
      with (S (S (Z.to_nat (2 * Z.of_nat i)))) by lia.
    reflexivity.
Qed.

(** The bytes written for the view of a byte sequence of even length are
    the bytes. *)
Lemma inputPcm_view (bytes : list Z) :
  Forall is_byte bytes -> Nat.Even (length bytes) ->
  inputPcm (Int16Array_of_bytes bytes) = bytes.
Proof.
  assert (H : forall n bs, (length bs < n)%nat -> Forall is_byte bs ->
                Nat.Even (length bs) ->
                inputPcm (Int16Array_of_bytes bs) = bs).
  { induction n as [| n IH]; intros bs Hn Hb He; [lia |].
    destruct bs as [| lo [| hi rest]]; [reflexivity | |].
    - destruct He as [k Hk]. simpl in Hk. lia.
    - apply Forall_cons_1 in Hb as [Hlo Hb].
      apply Forall_cons_1 in Hb as [Hhi Hb].
      simpl Int16Array_of_bytes.
      change (inputPcm (?x :: ?l)) with (writeInt16LE x ++ inputPcm l).
      rewrite (pairs_roundtrip lo hi Hlo Hhi).
      rewrite IH; [reflexivity | simpl in Hn; lia | exact Hb |].
      destruct He as [k Hk]. exists (k - 1)%nat. simpl in Hk. lia. }
  intros Hb He. apply (H (S (length bytes))); [lia | exact Hb | exact He].
Qed.

Lemma readInt16LE_inputPcm (xs : list Z) (i : nat) (x : Z) :
  Forall int16 xs -> xs !! i = Some x ->
  readInt16LE (inputPcm xs) (2 * Z.of_nat i) = Some x.
Proof.
  intros Hxs Hx.
  rewrite <- Int16Array_of_bytes_lookup.
  - rewrite (view_inputPcm xs Hxs). exact Hx.
  - rewrite length_inputPcm. apply lookup_lt_Some in Hx. lia.
Qed.

(** Mono 16-bit input: the value of a one-channel frame is the integer
    read. *)
Lemma roundHalfUp_mean_one (z : Z) : roundHalfUp (mean [z]) = z.
Proof.
  rewrite roundHalfUp_mean by discriminate.
  unfold sumZ. simpl foldl. simpl length.
  symmetry. apply (Z.div_unique _ _ _ 1); lia.
Qed.

Lemma downmix_mono16_view (fmt : Format) (buffer : list Z) :
  bitDepth fmt = 16 -> channels fmt = 1 ->
  Nat.Even (length buffer) ->
  downmix fmt buffer = Some (Int16Array_of_bytes buffer).
Proof.
  intros Hd Hch [n Hn].
  assert (Hbps : bytesPerSample fmt = 2)
    by (unfold bytesPerSample; rewrite Hd; reflexivity).
  destruct (downmix_whole fmt buffer n) as (out & Hout & Hlen & Hi).
  { left. exact Hd. }
  { lia. }
  { rewrite Hbps, Hch. lia. }
  rewrite Hout. f_equal. apply list_eq. intros i.
  destruct (le_lt_dec n i) as [Hge | Hlt].
  - rewrite !(proj2 (lookup_ge_None _ _)); [reflexivity | |].
    + rewrite length_Int16Array_of_bytes, Hn.
      replace (2 * n)%nat with (n * 2)%nat by lia.
      rewrite Nat.div_mul by lia. exact Hge.
    + lia.
  - rewrite <- (Hi i Hlt), Int16Array_of_bytes_lookup by lia.
    destruct (readInt16LE_inside buffer (2 * Z.of_nat i) ltac:(lia) ltac:(lia))
      as [z Hz].
    rewrite Hz, <- (roundHalfUp_mean_one z).
    apply frame16_rounded_mean; [rewrite Hd; discriminate | lia |].
    rewrite Hch, Hbps. change (seqZ 0 1) with [0].
    change (mapM ?f [0]) with (y ← f 0; k ← Some []; mret (y :: k)).
    cbv beta.
    replace ((Z.of_nat i * 1 + 0) * 2) with (2 * Z.of_nat i) by lia.
    rewrite Hz. reflexivity.
Qed.

End PcmBytes.

Module PcmProps.

Import Downmix.

(** X11.  Lines 96-99 and 182: the bytes written for 16-bit samples are two per
    sample, each a byte; the 16-bit integer read back at byte [2 i] is
    sample [i]; and the [Int16Array] laid over the bytes is the sample
    sequence. *)
Theorem pcm_round_trip (xs : list Z) :
  Forall int16 xs ->
  length (inputPcm xs) = (2 * length xs)%nat
  /\ Forall is_byte (inputPcm xs)
  /\ Int16Array_of_bytes (inputPcm xs) = xs
  /\ forall (i : nat) (x : Z),
       xs !! i = Some x -> readInt16LE (inputPcm xs) (2 * Z.of_nat i) = Some x.
Proof.
  intros Hxs.
  split; [apply length_inputPcm |].
  split; [apply inputPcm_bytes |].
  split; [apply view_inputPcm, Hxs |].
  intros i x. apply readInt16LE_inputPcm, Hxs.
Qed.

Definition two_samples : list Z := [-2; 258].

Lemma pcm_round_trip_witness :
  length (inputPcm two_samples) = (2 * length two_samples)%nat
  /\ Forall is_byte (inputPcm two_samples)
  /\ Int16Array_of_bytes (inputPcm two_samples) = two_samples
  /\ forall (i : nat) (x : Z),
       two_samples !! i = Some x
       -> readInt16LE (inputPcm two_samples) (2 * Z.of_nat i) = Some x.
Proof.
  apply (pcm_round_trip two_samples).
  repeat constructor; unfold int16; lia.
Defined.

(** X9.  Mono 16-bit input (lines 58-75): a buffer of even length is downmixed
    to the 16-bit integers it holds, in order; the mean of one channel is
    the sample itself. *)
Theorem downmix_mono16 (fmt : Format) (buffer : list Z) :
  bitDepth fmt = 16 -> channels fmt = 1 ->
  Nat.Even (length buffer) ->
  downmix fmt buffer = Some (Int16Array_of_bytes buffer).
Proof. apply downmix_mono16_view. Qed.

Definition mono16 : Format :=
  {| sampleRate := 48000; bitDepth := 16; channels := 1 |}.

Lemma downmix_mono16_witness :
  downmix mono16 [254; 255; 2; 1] = Some (Int16Array_of_bytes [254; 255; 2; 1]).
Proof.
  apply (downmix_mono16 mono16 [254; 255; 2; 1]).
  - reflexivity.
  - reflexivity.
  - exists 2%nat. reflexivity.
Defined.

(** X10.  Lines 58-99 for a 48 kHz mono 16-bit source with an even byte count:
    downmix and resampling change nothing, and the PCM bytes streamed are
    the bytes of the source. *)
Theorem passthrough_48k_mono16 (fmt : Format) (buffer : list Z) :
  sampleRate fmt = targetRate -> bitDepth fmt = 16 -> channels fmt = 1 ->
  Forall is_byte buffer -> Nat.Even (length buffer) ->
  exists samples,
    downmix fmt buffer = Some samples
    /\ inputPcm (resample (sampleRate fmt) samples) = buffer.
Proof.
  intros Hr Hd Hch Hb He. exists (Int16Array_of_bytes buffer).
  split; [apply downmix_mono16_view; assumption |].
  rewrite Hr. unfold resample. rewrite Z.eqb_refl.
  apply inputPcm_view; assumption.
Qed.

Lemma passthrough_48k_mono16_witness :
  exists samples,
    downmix mono16 [254; 255; 2; 1] = Some samples
    /\ inputPcm (resample (sampleRate mono16) samples) = [254; 255; 2; 1].
Proof.
  apply (passthrough_48k_mono16 mono16 [254; 255; 2; 1]).
  - reflexivity.
  - reflexivity.
  - reflexivity.
  - repeat constructor; unfold is_byte; lia.
  - exists 2%nat. reflexivity.
Defined.

End PcmProps.

(** ** The mixer's output, index by index *)

Section MixerIndices.

Import Mixer.

(** The buffer placed at [bp.2] covers index [k]. *)
Definition covers (bp : GptBuffer * Z) (k : nat) : Prop :=
  bp.2 <= Z.of_nat k < bp.2 + Z.of_nat (length (samples bp.1)).

Lemma landing_None (bp : GptBuffer * Z) (k : nat) :
  ~ covers bp k -> landing bp k = None.
Proof.
  unfold covers, landing, getIdx. intros H.
  destruct (Z.ltb_spec (Z.of_nat k - bp.2) 0); [reflexivity |].
  apply lookup_ge_None. lia.
Qed.

Lemma landing_Some (bp : GptBuffer * Z) (k : nat) :
  covers bp k -> is_Some (landing bp k).
Proof.
  unfold covers, landing, getIdx. intros H.
  destruct (Z.ltb_spec (Z.of_nat k - bp.2) 0); [lia |].
  apply lookup_lt_is_Some_2. lia.
Qed.

Lemma contributions_nil (placed : list (GptBuffer * Z)) (k : nat) :
  Forall (fun bp => ~ covers bp k) placed -> contributions placed k = [].
Proof.
  unfold contributions. induction 1 as [| bp placed Hbp _ IH]; [reflexivity |].
  simpl. rewrite (landing_None bp k Hbp). exact IH.
Qed.

(** The element the mixing starts from at index [k]. *)
Definition inputAt (pcm : list Z) (k : nat) : Z :=
  default 0 (Int16Array_of_bytes pcm !! k).

Lemma initialOutput_lookup (pcm : list Z) (placed : list (GptBuffer * Z)) (k : nat) :
  (k < length (initialOutput pcm placed))%nat ->
  initialOutput pcm placed !! k = Some (inputAt pcm k).
Proof.
  intros Hk. unfold initialOutput, inputAt in *. cbn zeta in *.
  destruct (Int16Array_of_bytes pcm !! k) as [v |] eqn:E.
  - rewrite (lookup_app_l_Some _ _ _ _ E). reflexivity.
  - apply lookup_ge_None in E. rewrite lookup_app_r by exact E.
    apply lookup_replicate_2.
    rewrite length_app, length_replicate in Hk. lia.
Qed.

Lemma inputAt_int16 (pcm : list Z) (k : nat) : int16 (inputAt pcm k).
Proof.
  unfold inputAt. destruct (Int16Array_of_bytes pcm !! k) as [v |] eqn:E.
  - pose proof (Int16Array_of_bytes_int16 pcm) as Hall.
    rewrite Forall_lookup in Hall. exact (Hall k v E).
  - unfold int16. simpl. lia.
Qed.

(** The mixer's output, element by element. *)
Lemma mixer_lookup (pcm : list Z) (startTime : Z) (gptBuffers : list GptBuffer)
  (out : list Z) (k : nat) :
  mixer pcm startTime gptBuffers = Some out ->
  (k < length out)%nat ->
  out !! k
  = Some (satSum (inputAt pcm k)
            (contributions (zip gptBuffers (offsets startTime gptBuffers)) k)).
Proof.
  unfold mixer. rewrite mixPlaced_total. intros [= <-] Hk.
  rewrite length_mixAll in Hk.
  apply mixAll_lookup, initialOutput_lookup, Hk.
Qed.

Lemma mixer_length (pcm : list Z) (startTime : Z) (gptBuffers : list GptBuffer)
  (out : list Z) :
  mixer pcm startTime gptBuffers = Some out ->
  Z.of_nat (length out)
  = maxIndex (Z.of_nat (length (Int16Array_of_bytes pcm)))
             (zip gptBuffers (offsets startTime gptBuffers)).
Proof.
  unfold mixer. rewrite mixPlaced_total. intros [= <-].
  rewrite length_mixAll. apply length_initialOutput.
Qed.

(** [maxIndex] is the greatest of its initial value and the ends of the
    buffers. *)
Lemma maxIndex_upper (placed : list (GptBuffer * Z)) (init : Z) :
  Forall (fun bp => bp.2 + Z.of_nat (length (samples bp.1))
                    <= maxIndex init placed) placed.
Proof.
  revert init. induction placed as [| bp placed IH]; intros init;
    [constructor |].
  change (maxIndex init (bp :: placed))
    with (maxIndex (Z.max init (bp.2 + Z.of_nat (length (samples bp.1)))) placed).
  constructor; [| apply IH].
  etransitivity; [| apply maxIndex_ge]. lia.
Qed.

Lemma maxIndex_attained (placed : list (GptBuffer * Z)) (init : Z) :
  maxIndex init placed = init
  \/ Exists (fun bp => maxIndex init placed
                       = bp.2 + Z.of_nat (length (samples bp.1))) placed.
Proof.
  revert init. induction placed as [| bp placed IH]; intros init;
    [left; reflexivity |].
  change (maxIndex init (bp :: placed))
    with (maxIndex (Z.max init (bp.2 + Z.of_nat (length (samples bp.1)))) placed).
  destruct (IH (Z.max init (bp.2 + Z.of_nat (length (samples bp.1)))))
    as [Heq | Hex].
  - rewrite Heq.
    destruct (Z.max_spec init (bp.2 + Z.of_nat (length (samples bp.1))))
      as [[_ ->] | [_ ->]]; [right; left; reflexivity | left; reflexivity].
  - right. right. exact Hex.
Qed.

(** Additions that never leave the 16-bit range are plain additions. *)
Lemma satSum_plain (cs : list Z) (v : Z) :
  (forall n, int16 (plainSum v (take n cs))) ->
  satSum v cs = plainSum v cs.
Proof.
  revert v. induction cs as [| s cs IH]; intros v H; [reflexivity |].
  change (satSum v (s :: cs)) with (satSum (clamp16 (v + s)) cs).
  change (plainSum v (s :: cs)) with (plainSum (v + s) cs).
  pose proof (H 1%nat) as H1. simpl in H1.
  rewrite (clamp16_id _ H1). apply IH.
  intros n. exact (H (S n)).
Qed.

End MixerIndices.

Module MixerProps.

Import Mixer.

(** X16.  Lines 184-193: the mix is as long as the input or as the farthest end
    of a buffer, whichever is greater; so it is never shorter than the
    input and every buffer fits before its end. *)
Theorem mixer_output_length (pcm : list Z) (startTime : Z)
  (gptBuffers : list GptBuffer) :
  exists out,
    mixer pcm startTime gptBuffers = Some out
    /\ (length (Int16Array_of_bytes pcm) <= length out)%nat
    /\ Forall (fun b => offsetOf startTime (time b)
                        + Z.of_nat (length (samples b))
                        <= Z.of_nat (length out)) gptBuffers
    /\ (length out = length (Int16Array_of_bytes pcm)
        \/ Exists (fun b => Z.of_nat (length out)
                            = offsetOf startTime (time b)
                              + Z.of_nat (length (samples b))) gptBuffers).
Proof.
  destruct (mixer pcm startTime gptBuffers) as [out |] eqn:E.
  2: { unfold mixer in E. rewrite mixPlaced_total in E. discriminate. }
  exists out. split; [reflexivity |].
  pose proof (mixer_length pcm startTime gptBuffers out E) as Hlen.
  rewrite zip_offsets in Hlen.
  set (placed := map (fun b => (b, offsetOf startTime (time b))) gptBuffers) in *.
  set (init := Z.of_nat (length (Int16Array_of_bytes pcm))) in *.
  split; [| split].
  - pose proof (maxIndex_ge placed init). lia.
  - pose proof (maxIndex_upper placed init) as Hup.
    unfold placed in Hup. rewrite Forall_fmap in Hup.
    eapply Forall_impl; [exact Hup |].
    intros b Hb. simpl in Hb. fold placed in Hb. lia.
  - destruct (maxIndex_attained placed init) as [Heq | Hex].
    + left. lia.
    + right. unfold placed in Hex. rewrite Exists_fmap in Hex.
      eapply Exists_impl; [exact Hex |].
      intros b Hb. simpl in Hb. fold placed in Hb. lia.
Qed.

(** X17.  Lines 194-202: an index that no buffer covers keeps the input sample,
    or 0 beyond the end of the input. *)
Theorem mixer_untouched (pcm : list Z) (startTime : Z)
  (gptBuffers : list GptBuffer) (out : list Z) (k : nat) :
  mixer pcm startTime gptBuffers = Some out ->
  (k < length out)%nat ->
  Forall (fun b => ~ (offsetOf startTime (time b) <= Z.of_nat k
                      < offsetOf startTime (time b)
                        + Z.of_nat (length (samples b)))) gptBuffers ->
  out !! k = Some (default 0 (Int16Array_of_bytes pcm !! k)).
Proof.
  intros Hout Hk Hfree.
  rewrite (mixer_lookup pcm startTime gptBuffers out k Hout Hk).
  rewrite contributions_nil; [reflexivity |].
  rewrite zip_offsets, Forall_fmap.
  eapply Forall_impl; [exact Hfree |].
  intros b Hb. exact Hb.
Qed.

Lemma mixer_untouched_witness :
  [10; 25; 30] !! 2%nat
  = Some (default 0 (Int16Array_of_bytes (inputPcm [10; 20; 30]) !! 2%nat)).
Proof.
  apply (mixer_untouched (inputPcm [10; 20; 30]) 0
           [{| samples := [5]; time := 20834 |}] [10; 25; 30] 2).
  - vm_compute. reflexivity.
  - simpl. lia.
  - repeat constructor. vm_compute. intros [H1 H2]. discriminate.
Defined.

(** X18.  Lines 195-202: where the running sums at an index never leave the
    16-bit range, nothing is clipped and the output sample is the input
    sample plus every buffer sample landing on the index. *)
Theorem mixer_plain_sum (pcm : list Z) (startTime : Z)
  (gptBuffers : list GptBuffer) (out : list Z) (k : nat) :
  mixer pcm startTime gptBuffers = Some out ->
  (k < length out)%nat ->
  let v0 := default 0 (Int16Array_of_bytes pcm !! k) in
  let cs := contributions (zip gptBuffers (offsets startTime gptBuffers)) k in
  (forall n, int16 (plainSum v0 (take n cs))) ->
  out !! k = Some (plainSum v0 cs).
Proof.
  intros Hout Hk v0 cs Hfit.
  rewrite (mixer_lookup pcm startTime gptBuffers out k Hout Hk).
  f_equal. apply satSum_plain. exact Hfit.
Qed.

(** A buffer of one sample that arrives 20834 ns after the start lands on
    index 1. *)
Lemma mixer_plain_sum_witness :
  [10; 25; 30] !! 1%nat
  = Some (plainSum
            (default 0 (Int16Array_of_bytes (inputPcm [10; 20; 30]) !! 1%nat))
            (contributions
               (zip [{| samples := [5]; time := 20834 |}]
                    (offsets 0 [{| samples := [5]; time := 20834 |}])) 1)).
Proof.
  apply (mixer_plain_sum (inputPcm [10; 20; 30]) 0
           [{| samples := [5]; time := 20834 |}] [10; 25; 30] 1).
  - vm_compute. reflexivity.
  - simpl. lia.
  - intros [| [| n]]; vm_compute; split; discriminate.
Defined.

End MixerProps.

(** ** Integral Numbers *)

Section IntegralNumbers.

Import Mixer.

(** The integer part of a Number that is an integer is that integer. *)
Lemma IntegerValue_integral (v : float) (k : Z) :
  Freal v -> (Fval v == inject_Z k)%Q -> IntegerValue v = k.
Proof.
  unfold Freal, Fval, IntegerValue.
  destruct (Prim2SF v) as [s | s | | s m e]; try contradiction; intros _ Hv.
  - change (SFval (S754_zero s)) with (inject_Z 0) in Hv.
    rewrite inject_Z_injective in Hv. exact Hv.
  - destruct (Z.leb_spec 0 e) as [He | He].
    + apply inject_Z_injective. rewrite <- Hv.
      rewrite inject_cond_Zopp, SFval_finite, inject_Z_mult, pow2_inject
        by exact He. reflexivity.
    + set (n := - e). assert (Hn : 0 < n) by (unfold n; lia).
      assert (Hpow : 0 < 2 ^ n) by (apply Z.pow_pos_nonneg; lia).
      assert (Hsv : cond_Zopp s (Z.pos m) = k * 2 ^ n).
      { apply inject_Z_injective.
        rewrite inject_Z_mult, pow2_inject, <- Hv by lia.
        unfold SFval. replace e with (- n) by (unfold n; lia).
        rewrite <- Qmult_assoc, pow2_neg_inv. ring. }
      destruct s; simpl cond_Zopp in *.
      * assert (Hm : Z.pos m = (- k) * 2 ^ n) by lia.
        rewrite Hm, Z.div_mul by lia. lia.
      * rewrite Hsv, Z.div_mul by lia. reflexivity.
Qed.

(** [Math.round] of a real Number below [2 ^ 53] in magnitude. *)
Lemma Math_round_integer (v : float) (k : Z) :
  Freal v -> Z.abs k < 2 ^ 53 ->
  (inject_Z k - (1 # 2) <= Fval v < inject_Z k + (1 # 2))%Q ->
  IntegerValue (Math_round v) = k.
Proof.
  intros Hr Hk Hv.
  destruct (Math_round_cases v k Hr Hv) as [(-> & _ & H) | ->]; [exact H |].
  destruct (Number_exact k Hk) as [Hnr Hnv].
  apply IntegerValue_integral; assumption.
Qed.

Lemma err_values :
  (2 * err 31 == 1 # 524288)%Q /\ (err 46 == 1 # 32)%Q
  /\ (2 * err 36 == 1 # 16384)%Q.
Proof. repeat split; vm_compute; reflexivity. Qed.

Lemma Freal_constants :
  Freal 1000000%float /\ (Fval 1000000%float == 1000000)%Q
  /\ Freal 1000%float /\ (Fval 1000%float == 1000)%Q.
Proof. repeat split; vm_compute; reflexivity || exact I. Qed.

(** Lines 186-187: the Number rounded to give the offset is within
    [1/4096] of the exact position [delta * 48000 / 10^9]. *)
Lemma offset_Number (d : Z) :
  Z.abs d < 2 ^ 50 ->
  let q := ((Number d / 1000000 * Number sampleRate) / 1000)%float in
  Freal q
  /\ (- (1 # 4096) < Fval q - inject_Z d * (48000 # 1000000000) < 1 # 4096)%Q.
Proof.
  intros Hd. cbv zeta.
  destruct (Number_exact d ltac:(lia)) as [H0r H0v].
  destruct (Number_exact sampleRate ltac:(vm_compute; reflexivity)) as [Hsr Hsv].
  change (inject_Z sampleRate) with 48000%Q in Hsv.
  destruct Freal_constants as (Hmr & Hmv & Hkr & Hkv).
  destruct err_values as (E31 & E46 & E36).
  assert (HD : (-1125899906842624 < inject_Z d < 1125899906842624)%Q).
  { change (-1125899906842624)%Q with (inject_Z (- 2 ^ 50)).
    change 1125899906842624%Q with (inject_Z (2 ^ 50)).
    rewrite <- !Zlt_Qlt. lia. }
  set (D := inject_Z d) in *.
  (* delta, in milliseconds *)
  destruct (div_float (Number d) 1000000%float (D * (1 # 1000000)) 31 H0r Hmr)
    as (H1r & H1 & _);
    [rewrite Hmv; lra | rewrite Hmv, H0v; field
    | change (pow2 31) with 2147483648%Q; lra | lia |].
  rewrite E31 in H1.
  set (d1 := (Number d / 1000000)%float) in *.
  (* delta * sampleRate *)
  destruct (mul_float d1 (Number sampleRate) 46 H1r Hsr) as (H2r & H2);
    [rewrite Hsv; change (pow2 46) with 70368744177664%Q; lra | lia |].
  rewrite Hsv, E46 in H2.
  set (d2 := (d1 * Number sampleRate)%float) in *.
  (* ... / 1000 *)
  destruct (div_float d2 1000%float (Fval d2 * (1 # 1000)) 36 H2r Hkr)
    as (H3r & H3 & _);
    [rewrite Hkv; lra | rewrite Hkv; field
    | change (pow2 36) with 68719476736%Q; lra | lia |].
  rewrite E36 in H3.
  split; [exact H3r |]. lra.
Qed.

End IntegralNumbers.

Module OffsetProps.

Import Mixer.

(** X19.  Lines 185-188: for an arrival within [2 ^ 50] ns (13 days) of the
    start, the offset is the sample position of the arrival time,
    [delta * 48000 / 10^9], rounded to an integer: it differs from the
    exact position by less than [1/2 + 1/4096], the second term bounding
    the rounding errors of the three floating-point operations.  A buffer
    that does not arrive before the start has no negative offset. *)
Theorem offset_accuracy (startTime time : Z) :
  Z.abs (time - startTime) < 2 ^ 50 ->
  let position := (inject_Z (time - startTime) * (48000 # 1000000000))%Q in
  (inject_Z (offsetOf startTime time) - (1 # 2) - (1 # 4096) < position
   /\ position < inject_Z (offsetOf startTime time) + (1 # 2) + (1 # 4096))%Q
  /\ (startTime <= time -> 0 <= offsetOf startTime time).
Proof.
  intros Hd position.
  destruct (offset_Number (time - startTime) Hd) as [Hqr Hq].
  cbv zeta in Hqr, Hq. fold position in Hq.
  unfold offsetOf.
  set (q := ((Number (time - startTime) / 1000000 * Number sampleRate) / 1000)%float)
    in *.
  pose proof (roundHalfUp_bounds (Fval q)) as Hk.
  set (k := roundHalfUp (Fval q)) in *.
  assert (HD : (-1125899906842624 < inject_Z (time - startTime)
                < 1125899906842624)%Q).
  { change (-1125899906842624)%Q with (inject_Z (- 2 ^ 50)).
    change 1125899906842624%Q with (inject_Z (2 ^ 50)).
    rewrite <- !Zlt_Qlt. lia. }
  assert (Hkb : Z.abs k < 2 ^ 53).
  { assert (H1 : (inject_Z (- 2 ^ 53) < inject_Z k)%Q).
    { change (inject_Z (- 2 ^ 53)) with (-9007199254740992)%Q.
      unfold position in Hq. lra. }
    assert (H2 : (inject_Z k < inject_Z (2 ^ 53))%Q).
    { change (inject_Z (2 ^ 53)) with 9007199254740992%Q.
      unfold position in Hq. lra. }
    rewrite <- Zlt_Qlt in H1, H2. lia. }
  rewrite (Math_round_integer q k Hqr Hkb Hk).
  split; [split; lra |].
  intros Hle.
  assert (Hpos : (0 <= position)%Q).
  { unfold position. apply Qmult_le_0_compat; [| discriminate].
    change 0%Q with (inject_Z 0). rewrite <- Zle_Qle. lia. }
  assert (H1 : (inject_Z (-1) < inject_Z k)%Q).
  { change (inject_Z (-1)) with (-1)%Q. lra. }
  rewrite <- Zlt_Qlt in H1. lia.
Qed.

(** A buffer that arrives 500 ms after the start: position 24000. *)
Lemma offset_accuracy_witness :
  (inject_Z (offsetOf 7 500000007) - (1 # 2) - (1 # 4096)
   < inject_Z (500000007 - 7) * (48000 # 1000000000)
   /\ inject_Z (500000007 - 7) * (48000 # 1000000000)
      < inject_Z (offsetOf 7 500000007) + (1 # 2) + (1 # 4096))%Q
  /\ (7 <= 500000007 -> 0 <= offsetOf 7 500000007).
Proof.
  apply (offset_accuracy 7 500000007). vm_compute. reflexivity.
Defined.

End OffsetProps.

(** ** The resampler's reads *)

Section ResamplerReads.

Lemma Freal_not_nan (x : float) : Freal x -> ~ Fnan x.
Proof. unfold Freal, Fnan. intros H E. rewrite E in H. exact H. Qed.

Lemma is_finite_real (x : float) : Freal x -> is_finite x = true.
Proof.
  intros H. unfold is_finite. rewrite (is_nan_false x (Freal_not_nan x H)).
  unfold is_infinity. rewrite FloatAxioms.eqb_spec, abs_spec.
  unfold Freal in H. destruct (Prim2SF x); try contradiction; reflexivity.
Qed.

(** [Math.min] of two real Numbers is one of them, and not above either. *)
Lemma Math_min_real (a b : float) :
  Freal a -> Freal b ->
  (Math_min a b = a \/ Math_min a b = b)
  /\ (Fval (Math_min a b) <= Fval a)%Q /\ (Fval (Math_min a b) <= Fval b)%Q.
Proof.
  intros Ha Hb. unfold Math_min.
  rewrite (is_nan_false a (Freal_not_nan a Ha)),
          (is_nan_false b (Freal_not_nan b Hb)).
  cbv iota beta delta [orb].
  pose proof (SFltb_real (Prim2SF a) (Prim2SF b) (Prim2SF_valid a)
                (Prim2SF_valid b) Ha Hb) as C1.
  pose proof (SFltb_real (Prim2SF b) (Prim2SF a) (Prim2SF_valid b)
                (Prim2SF_valid a) Hb Ha) as C2.
  rewrite <- FloatAxioms.ltb_spec in C1, C2. fold (Fval a) (Fval b) in C1, C2.
  destruct (a <? b)%float.
  - split; [left; reflexivity | lra].
  - destruct (b <? a)%float.
    + split; [right; reflexivity | lra].
    + destruct (get_sign a).
      * split; [left; reflexivity | lra].
      * split; [right; reflexivity | lra].
Qed.

(** [Math.floor] of a real Number is an integer. *)
Lemma Math_floor_integer (x : float) :
  Freal x ->
  (Fval (Math_floor x) == inject_Z (IntegerValue (Math_floor x)))%Q.
Proof.
  intros Hx. unfold Math_floor.
  destruct (Prim2SF x) as [s | s | | s m e] eqn:E;
    try (unfold Freal in Hx; rewrite E in Hx; contradiction).
  - unfold Fval, IntegerValue. rewrite E. reflexivity.
  - destruct (Z.leb_spec 0 e) as [He | He].
    + unfold Fval, IntegerValue. rewrite E.
      destruct (Z.leb_spec 0 e) as [_ | ?]; [| lia].
      rewrite inject_cond_Zopp, SFval_finite, inject_Z_mult, pow2_inject
        by exact He. reflexivity.
    + destruct (mantissa_bound x s m e E) as [Hm _].
      set (n := - e). assert (Hn : 0 < n) by (unfold n; lia).
      assert (Hpow : 0 < 2 ^ n) by (apply Z.pow_pos_nonneg; lia).
      set (z := cond_Zopp s (Z.pos m) / 2 ^ n).
      assert (Hz : Z.abs z < 2 ^ 53).
      { unfold z. destruct s; simpl cond_Zopp.
        - pose proof (Z.div_le_lower_bound (Z.neg m) (2 ^ n) (Z.neg m) Hpow
                        ltac:(nia)).
          pose proof (Z.div_lt_upper_bound (Z.neg m) (2 ^ n) 0 Hpow
                        ltac:(lia)). lia.
        - pose proof (Z.div_pos (Z.pos m) (2 ^ n) ltac:(lia) Hpow).
          pose proof (Z.div_le_upper_bound (Z.pos m) (2 ^ n) (Z.pos m) Hpow
                        ltac:(nia)). lia. }
      destruct (Number_exact z Hz) as [Hr Hv].
      rewrite (IntegerValue_integral (Number z) z Hr Hv). exact Hv.
Qed.

(** The arithmetic of the error: the rounded steps stay within [2 ^ -16]
    of the interpolation at the fraction [r]. *)
Lemma interpolation_error (z0 z1 r f g a b v : Q) :
  (-32768 <= z0 <= 32767 -> -32768 <= z1 <= 32767 ->
   0 <= r < 1 ->
   - eps < f - r < eps ->
   - eps < g - (1 - f) < eps ->
   - eps < a - z0 * g < eps ->
   - eps < b - z1 * f < eps ->
   - eps < v - (a + b) < eps ->
   - (1 # 65536) < v - (z0 * (1 - r) + z1 * r) < 1 # 65536)%Q.
Proof.
  intros H0 H1 Hr Hf Hg Ha Hb Hv. unfold eps in *.
  assert (A1 : (- (32768 * (1 # 8589934592)) <= z0 * (g - (1 - f))
                <= 32768 * (1 # 8589934592))%Q)
    by (apply product_bound; lra).
  assert (A2 : (- (65535 * (1 # 8589934592)) <= (z1 - z0) * (f - r)
                <= 65535 * (1 # 8589934592))%Q)
    by (apply product_bound; lra).
  split; nra.
Qed.

(** Lines 88-89 for a real position and two samples read from the input:
    the Number rounded is within [2 ^ -16] of the interpolation between the
    two samples at the fractional part of the position. *)
Lemma interpolated_value (idx : float) (z0 z1 : Z) :
  Freal idx -> int16 z0 -> int16 z1 ->
  let r := (Fval idx - Fval (Math_floor idx))%Q in
  let v := (Number z0 * (1 - (idx - Math_floor idx))
            + Number z1 * (idx - Math_floor idx))%float in
  Freal v
  /\ (- (1 # 65536)
      < Fval v - (inject_Z z0 * (1 - r) + inject_Z z1 * r) < 1 # 65536)%Q.
Proof.
  intros Hidx Hz0 Hz1. cbv zeta.
  set (frac := (idx - Math_floor idx)%float).
  destruct (Math_floor_spec idx Hidx) as [Hi0 Hr].
  set (r := (Fval idx - Fval (Math_floor idx))%Q) in *.
  pose proof (err_eps 0 ltac:(lia)) as E0.
  pose proof (err_eps 1 ltac:(lia)) as E1.
  pose proof (err_eps 17 ltac:(lia)) as E17.
  pose proof (err_eps 18 ltac:(lia)) as E18.
  assert (Heps : (eps == 1 # 8589934592)%Q) by reflexivity.
  destruct (sub_float idx (Math_floor idx) 0 Hidx Hi0) as [Hfr Hf];
    [fold r; rewrite pow2_0; lra | lia |].
  fold frac r in Hfr, Hf.
  destruct Freal_one as [H1r H1v].
  destruct (sub_float 1 frac 1 H1r Hfr) as [Hgr Hg];
    [rewrite H1v; change (pow2 1) with 2%Q; lra | lia |].
  rewrite H1v in Hg.
  destruct (Number_exact z0 ltac:(unfold int16 in Hz0; lia)) as [Hz0r Hz0v].
  destruct (Number_exact z1 ltac:(unfold int16 in Hz1; lia)) as [Hz1r Hz1v].
  pose proof (int16_Q z0 Hz0) as Hq0. pose proof (int16_Q z1 Hz1) as Hq1.
  set (g := (1 - frac)%float) in *.
  assert (Hgb : (-2 <= Fval g <= 2)%Q) by lra.
  assert (Hfb : (-2 <= Fval frac <= 2)%Q) by lra.
  destruct (mul_float (Number z0) g 17 Hz0r Hgr) as [Har Ha];
    [| lia |].
  { rewrite Hz0v. change (pow2 17) with 131072%Q.
    pose proof (product_bound (inject_Z z0) (Fval g) 32768 2
                  ltac:(lra) Hgb). lra. }
  destruct (mul_float (Number z1) frac 17 Hz1r Hfr) as [Hbr Hb];
    [| lia |].
  { rewrite Hz1v. change (pow2 17) with 131072%Q.
    pose proof (product_bound (inject_Z z1) (Fval frac) 32768 2
                  ltac:(lra) Hfb). lra. }
  rewrite Hz0v in Ha. rewrite Hz1v in Hb.
  set (a := (Number z0 * g)%float) in *.
  set (b := (Number z1 * frac)%float) in *.
  pose proof (product_bound (inject_Z z0) (Fval g) 32768 2
                ltac:(lra) Hgb) as Pa.
  pose proof (product_bound (inject_Z z1) (Fval frac) 32768 2
                ltac:(lra) Hfb) as Pb.
  destruct (add_float a b 18 Har Hbr) as [Hvr Hv];
    [change (pow2 18) with 262144%Q; lra | lia |].
  split; [exact Hvr |].
  apply (interpolation_error (inject_Z z0) (inject_Z z1) r
           (Fval frac) (Fval g) (Fval a) (Fval b) (Fval (a + b)%float));
    lra.
Qed.

(** ... so the value stored lies between the two samples. *)
Lemma interpolated_between (idx : float) (z0 z1 : Z) :
  Freal idx -> int16 z0 -> int16 z1 ->
  Z.min z0 z1
  <= IntegerValue
       (Math_round (Number z0 * (1 - (idx - Math_floor idx))
                    + Number z1 * (idx - Math_floor idx))%float)
  <= Z.max z0 z1.
Proof.
  intros Hidx Hz0 Hz1.
  destruct (interpolated_value idx z0 z1 Hidx Hz0 Hz1) as [Hvr Hv].
  cbv zeta in Hvr, Hv.
  destruct (Math_floor_spec idx Hidx) as [_ Hr].
  set (r := (Fval idx - Fval (Math_floor idx))%Q) in *.
  set (v := (Number z0 * (1 - (idx - Math_floor idx))
             + Number z1 * (idx - Math_floor idx))%float) in *.
  set (lo := Z.min z0 z1). set (hi := Z.max z0 z1).
  assert (Hz0b : (inject_Z lo <= inject_Z z0 <= inject_Z hi)%Q)
    by (rewrite <- !Zle_Qle; unfold lo, hi; lia).
  assert (Hz1b : (inject_Z lo <= inject_Z z1 <= inject_Z hi)%Q)
    by (rewrite <- !Zle_Qle; unfold lo, hi; lia).
  assert (A3 : (inject_Z lo <= inject_Z z0 * (1 - r) + inject_Z z1 * r
                <= inject_Z hi)%Q) by nra.
  pose proof (roundHalfUp_bounds (Fval v)) as Hk.
  set (k := roundHalfUp (Fval v)) in *.
  assert (Hkb : lo <= k <= hi).
  { assert (H1 : (inject_Z (lo - 1) < inject_Z k)%Q).
    { unfold Z.sub. rewrite inject_Z_plus, inject_Z_opp.
      change (inject_Z 1) with 1%Q. lra. }
    assert (H2 : (inject_Z k < inject_Z (hi + 1))%Q).
    { rewrite inject_Z_plus. change (inject_Z 1) with 1%Q. lra. }
    rewrite <- Zlt_Qlt in H1, H2. lia. }
  rewrite (Math_round_integer v k Hvr
             ltac:(unfold int16, lo, hi in *; lia) Hk).
  exact Hkb.
Qed.

(** At a position that is an integer the value stored is the sample
    there. *)
Lemma interpolated_at_sample (idx : float) (z0 z1 : Z) :
  Freal idx -> int16 z0 -> int16 z1 ->
  (Fval idx == Fval (Math_floor idx))%Q ->
  IntegerValue
    (Math_round (Number z0 * (1 - (idx - Math_floor idx))
                 + Number z1 * (idx - Math_floor idx))%float)
  = z0.
Proof.
  intros Hidx Hz0 Hz1 Hint.
  destruct (interpolated_value idx z0 z1 Hidx Hz0 Hz1) as [Hvr Hv].
  cbv zeta in Hvr, Hv.
  apply Math_round_integer; [exact Hvr | unfold int16 in Hz0; lia |].
  rewrite Hint in Hv.
  set (v := Fval _) in *. set (f := Fval (Math_floor idx)) in *.
  split; nra.
Qed.

End ResamplerReads.

Section ResamplerIndices.

Lemma ratio_bounds (O X rho : Q) :
  (1 <= O -> O < 2147483648 -> X * O == 48000 ->
   - (1 # 17179869184) < rho - X < 1 # 17179869184 ->
   0 < X <= 48000 /\ (1 # 65536) < rho < 65536)%Q.
Proof.
  intros H1 H2 HX Hr.
  assert (Hpos : (0 < X)%Q).
  { destruct (Qlt_le_dec 0 X) as [? | Hle]; [assumption |]. nra. }
  assert (Hup : (X <= 48000)%Q) by nra.
  assert (Hlow : (48000 < X * 2147483648)%Q) by nra.
  split; [split; assumption |]. split; lra.
Qed.

Lemma index_bounds (L rho I X2 idx p N : Q) :
  (0 <= L -> (1 # 65536) < rho < 65536 ->
   - (1 # 16) < p - L * rho < 1 # 16 ->
   N <= p -> I <= N - 1 -> 0 <= I ->
   X2 * rho == I ->
   - (1 # 524288) < idx - X2 < 1 # 524288 ->
   0 <= X2 < L /\ idx < L /\ (1 <= I -> 0 < idx))%Q.
Proof.
  intros HL Hrho Hp HN HI HI0 HX Hidx.
  assert (Hgap : ((15 # 16) < (L - X2) * rho)%Q) by lra.
  assert (Hpos : (0 < L - X2)%Q).
  { destruct (Qlt_le_dec 0 (L - X2)) as [? | Hle]; [assumption |]. nra. }
  assert (Hfar : ((15 # 1048576) < L - X2)%Q) by nra.
  assert (HX0 : (0 <= X2)%Q).
  { destruct (Qlt_le_dec X2 0) as [Hlt | ?]; [| assumption]. nra. }
  split; [split; lra |]. split; [lra |].
  intros H1.
  assert (HXfar : ((1 # 65536) < X2)%Q) by nra.
  lra.
Qed.

(** Lines 82-87, for a source rate and an input length below [2 ^ 31]:
    at every index of the output the position [idx] is a real Number, and
    the two indices read, [i0] and [i1], are inside the input, [i1] being
    the next index or, at the last sample, the same one. *)
Lemma resample_indices (origSampleRate : Z) (len i : nat) :
  1 <= origSampleRate < 2 ^ 31 ->
  Z.of_nat len < 2 ^ 31 ->
  (i < ArrayLength (newLen origSampleRate len))%nat ->
  let ratio := (Number targetRate / Number origSampleRate)%float in
  let idx := (Number (Z.of_nat i) / ratio)%float in
  let i0 := Math_floor idx in
  let i1 := Math_min (i0 + 1)%float (Number (Z.of_nat len - 1)) in
  Freal idx
  /\ (i = 0%nat -> (Fval idx == 0)%Q)
  /\ exists j0 j1 : nat,
       (Fval i0 == inject_Z (Z.of_nat j0))%Q
       /\ is_finite i0 = true /\ IntegerValue i0 = Z.of_nat j0
       /\ is_finite i1 = true /\ IntegerValue i1 = Z.of_nat j1
       /\ (j0 < len)%nat
       /\ ((j1 = S j0 /\ (j1 < len)%nat) \/ (j1 = j0 /\ S j0 = len)).
Proof.
  intros Horig Hlen Hi. cbv zeta.
  destruct err_values as (E31 & E46 & E36).
  (* the ratio *)
  destruct (Number_exact targetRate ltac:(vm_compute; reflexivity)) as [Htr Htv].
  change (inject_Z targetRate) with 48000%Q in Htv.
  destruct (Number_exact origSampleRate ltac:(lia)) as [Hor Hov].
  assert (HO : (1 <= inject_Z origSampleRate < 2147483648)%Q).
  { change 1%Q with (inject_Z 1). change 2147483648%Q with (inject_Z (2 ^ 31)).
    rewrite <- Zle_Qle, <- Zlt_Qlt. lia. }
  set (O := inject_Z origSampleRate) in *.
  set (X := (48000 * / O)%Q).
  assert (HX : (X * O == 48000)%Q) by (unfold X; field; lra).
  assert (HXpre : (0 < X <= 48000)%Q).
  { assert (Hinv : (0 < / O)%Q) by (apply Qinv_lt_0_compat; lra).
    assert (Hpos : (0 < X)%Q) by (unfold X; nra).
    split; [exact Hpos | nra]. }
  destruct (div_float (Number targetRate) (Number origSampleRate) X 16 Htr Hor)
    as (Hrr & Hr & _);
    [rewrite Hov; lra | rewrite Hov, Htv; exact HX
    | change (pow2 16) with 65536%Q; lra | lia |].
  rewrite err16 in Hr.
  set (ratio := (Number targetRate / Number origSampleRate)%float) in *.
  destruct (ratio_bounds O X (Fval ratio) ltac:(lra) ltac:(lra) HX Hr)
    as [_ Hrho].
  (* the length *)
  destruct (Number_exact (Z.of_nat len) ltac:(lia)) as [Hlr Hlv].
  assert (HL : (0 <= inject_Z (Z.of_nat len) < 2147483648)%Q).
  { change 0%Q with (inject_Z 0). change 2147483648%Q with (inject_Z (2 ^ 31)).
    rewrite <- Zle_Qle, <- Zlt_Qlt. lia. }
  set (L := inject_Z (Z.of_nat len)) in *.
  assert (HLr : (0 <= L * Fval ratio < 140737488355328)%Q) by nra.
  destruct (mul_float (Number (Z.of_nat len)) ratio 47 Hlr Hrr) as (Hpr & Hp);
    [rewrite Hlv; change (pow2 47) with 140737488355328%Q; lra | lia |].
  rewrite Hlv in Hp.
  assert (E47 : (err 47 == 1 # 16)%Q) by (vm_compute; reflexivity).
  rewrite E47 in Hp.
  unfold ArrayLength, newLen in Hi. fold ratio in Hi.
  set (P := (Number (Z.of_nat len) * ratio)%float) in *.
  destruct (Math_floor_spec P Hpr) as [Hfr Hfloor].
  pose proof (Math_floor_integer P Hpr) as HN.
  set (N := IntegerValue (Math_floor P)) in *.
  rewrite HN in Hfloor.
  assert (HiN : Z.of_nat i < N) by lia.
  assert (HI : (0 <= inject_Z (Z.of_nat i) <= inject_Z N - 1)%Q).
  { split.
    - change 0%Q with (inject_Z 0). rewrite <- Zle_Qle. lia.
    - change 1%Q with (inject_Z 1). unfold Qminus.
      rewrite <- inject_Z_opp, <- inject_Z_plus, <- Zle_Qle. lia. }
  assert (HNb : N < 2 ^ 48).
  { assert (H : (inject_Z N < inject_Z (2 ^ 48))%Q).
    { change (inject_Z (2 ^ 48)) with 281474976710656%Q. lra. }
    rewrite <- Zlt_Qlt in H. exact H. }
  (* the position *)
  destruct (Number_exact (Z.of_nat i) ltac:(lia)) as [Hir Hiv].
  set (I := inject_Z (Z.of_nat i)) in *.
  set (X2 := (I * / Fval ratio)%Q).
  assert (HX2 : (X2 * Fval ratio == I)%Q) by (unfold X2; field; lra).
  destruct (div_float (Number (Z.of_nat i)) ratio X2 31 Hir Hrr)
    as (Hxr & Hx & Hexact); [lra | rewrite Hiv; exact HX2 | | lia |].
  { assert (Hinv : (0 < / Fval ratio)%Q) by (apply Qinv_lt_0_compat; lra).
    assert (H0 : (0 <= X2)%Q) by (unfold X2; nra).
    assert (Hgap : ((15 # 16) < (L - X2) * Fval ratio)%Q) by lra.
    assert (Hpos : (0 < L - X2)%Q).
    { destruct (Qlt_le_dec 0 (L - X2)) as [? | Hle]; [assumption |]. nra. }
    change (pow2 31) with 2147483648%Q. lra. }
  rewrite E31 in Hx.
  set (idx := (Number (Z.of_nat i) / ratio)%float) in *.
  destruct (index_bounds L (Fval ratio) I X2 (Fval idx) (Fval P) (inject_Z N)
              ltac:(lra) Hrho Hp ltac:(lra) ltac:(lra) ltac:(lra) HX2 Hx)
    as (HX2b & Hidx_lt & Hidx_pos).
  assert (Hzero : Z.of_nat i = 0 -> (Fval idx == 0)%Q).
  { intros Hz.
    assert (HX20 : (X2 == inject_Z 0 * pow2 0)%Q).
    { unfold X2, I. rewrite Hz. change (inject_Z 0) with 0%Q. ring. }
    rewrite (Hexact 0 0 HX20 ltac:(rewrite fexp64; lia)), HX20.
    change (inject_Z 0) with 0%Q. ring. }
  assert (Hidx0 : (0 <= Fval idx)%Q).
  { destruct (Z.eq_dec (Z.of_nat i) 0) as [Hz | Hnz].
    - rewrite (Hzero Hz). lra.
    - assert (H1 : (1 <= I)%Q).
      { unfold I. change 1%Q with (inject_Z 1). rewrite <- Zle_Qle. lia. }
      specialize (Hidx_pos H1). lra. }
  split; [exact Hxr |].
  split; [intros ->; apply Hzero; reflexivity |].
  (* the two indices *)
  destruct (Math_floor_spec idx Hxr) as [H0r H0].
  pose proof (Math_floor_integer idx Hxr) as HJ0.
  set (i0 := Math_floor idx) in *.
  set (J0 := IntegerValue i0) in *.
  rewrite HJ0 in H0.
  assert (HJ0b : 0 <= J0 < Z.of_nat len).
  { assert (H1 : (inject_Z (-1) < inject_Z J0)%Q).
    { change (inject_Z (-1)) with (-1)%Q. lra. }
    assert (H2 : (inject_Z J0 < inject_Z (Z.of_nat len))%Q) by (fold L; lra).
    rewrite <- Zlt_Qlt in H1, H2. lia. }
  destruct Freal_one as [H1r H1v].
  destruct (add_float_integer i0 1 J0 1 H0r H1r HJ0 H1v ltac:(lia))
    as [Har Hav].
  destruct (Number_exact (Z.of_nat len - 1) ltac:(lia)) as [Hbr Hbv].
  destruct (Math_min_real (i0 + 1)%float (Number (Z.of_nat len - 1)) Har Hbr)
    as (Hwhich & Hle1 & Hle2).
  set (i1 := Math_min (i0 + 1)%float (Number (Z.of_nat len - 1))) in *.
  rewrite Hav in Hle1. rewrite Hbv in Hle2.
  assert (Hi1 : Freal i1
                /\ ((Fval i1 == inject_Z (J0 + 1))%Q /\ J0 + 1 <= Z.of_nat len - 1
                    \/ (Fval i1 == inject_Z (Z.of_nat len - 1))%Q
                       /\ Z.of_nat len - 1 <= J0 + 1)).
  { destruct Hwhich as [Hw | Hw]; rewrite Hw in *.
    - split; [exact Har |]. left. split; [exact Hav |].
      rewrite Hav, <- Zle_Qle in Hle2. exact Hle2.
    - split; [exact Hbr |]. right. split; [exact Hbv |].
      rewrite Hbv, <- Zle_Qle in Hle1. exact Hle1. }
  destruct Hi1 as [Hi1r Hi1v].
  exists (Z.to_nat J0).
  destruct Hi1v as [[Hv Hb] | [Hv Hb]].
  - exists (S (Z.to_nat J0)).
    split; [rewrite HJ0, Z2Nat.id by lia; reflexivity |].
    split; [apply is_finite_real, H0r |].
    split; [lia |].
    split; [apply is_finite_real, Hi1r |].
    split; [rewrite (IntegerValue_integral i1 (J0 + 1) Hi1r Hv); lia |].
    split; [lia |]. left. split; [reflexivity | lia].
  - destruct (Z.eq_dec (Z.of_nat len - 1) J0) as [Heq | Hne].
    + exists (Z.to_nat J0).
      split; [rewrite HJ0, Z2Nat.id by lia; reflexivity |].
      split; [apply is_finite_real, H0r |].
      split; [lia |].
      split; [apply is_finite_real, Hi1r |].
      split; [rewrite (IntegerValue_integral i1 _ Hi1r Hv); lia |].
      split; [lia |]. right. split; [reflexivity | lia].
    + exists (S (Z.to_nat J0)).
      split; [rewrite HJ0, Z2Nat.id by lia; reflexivity |].
      split; [apply is_finite_real, H0r |].
      split; [lia |].
      split; [apply is_finite_real, Hi1r |].
      split; [rewrite (IntegerValue_integral i1 _ Hi1r Hv); lia |].
      split; [lia |]. left. split; [reflexivity | lia].
Qed.

End ResamplerIndices.

Section ResamplerElements.

Lemma sampleAt_inside (samples : list Z) (j : float) (k : nat) (s : Z) :
  is_finite j = true -> IntegerValue j = Z.of_nat k ->
  samples !! k = Some s ->
  sampleAt samples j = Number s.
Proof.
  intros Hfin Hk Hs. unfold sampleAt, getIdx. rewrite Hfin, Hk.
  destruct (Z.ltb_spec (Z.of_nat k) 0); [lia |].
  rewrite Nat2Z.id, Hs. reflexivity.
Qed.

(** An element of the resampled sequence: it is interpolated between two
    neighbouring input samples and lies between them. *)
Lemma resample_element (origSampleRate : Z) (samples : list Z) (i : nat) :
  Forall int16 samples ->
  1 <= origSampleRate < 2 ^ 31 ->
  origSampleRate <> targetRate ->
  Z.of_nat (length samples) < 2 ^ 31 ->
  (i < length (resample origSampleRate samples))%nat ->
  exists (j0 j1 : nat) (s0 s1 y : Z),
    samples !! j0 = Some s0 /\ samples !! j1 = Some s1
    /\ (j1 = S j0 \/ (j1 = j0 /\ S j0 = length samples))
    /\ resample origSampleRate samples !! i = Some y
    /\ Z.min s0 s1 <= y <= Z.max s0 s1.
Proof.
  intros Hall Horig Hne Hlen Hi.
  pose proof Hi as Hi'. rewrite length_resample in Hi'.
  destruct (Z.eqb_spec origSampleRate targetRate) as [? | _]; [contradiction |].
  destruct (resample_indices origSampleRate (length samples) i Horig Hlen Hi')
    as (Hidx & _ & j0 & j1 & _ & Hf0 & Hv0 & Hf1 & Hv1 & Hj0 & Hj1).
  cbv zeta in Hidx, Hf0, Hv0, Hf1, Hv1.
  destruct (lookup_lt_is_Some_2 samples j0 Hj0) as [s0 Hs0].
  assert (Hj1' : (j1 < length samples)%nat) by (destruct Hj1; lia).
  destruct (lookup_lt_is_Some_2 samples j1 Hj1') as [s1 Hs1].
  rewrite Forall_lookup in Hall.
  pose proof (Hall j0 s0 Hs0) as H0. pose proof (Hall j1 s1 Hs1) as H1.
  exists j0, j1, s0, s1. eexists.
  split; [exact Hs0 |]. split; [exact Hs1 |].
  split; [destruct Hj1 as [[? _] | ?]; [left | right]; assumption |].
  rewrite (resample_lookup origSampleRate samples i Hne Hi).
  unfold interpolate. cbv zeta.
  rewrite (sampleAt_inside samples _ j0 s0 Hf0 Hv0 Hs0).
  rewrite (sampleAt_inside samples _ j1 s1 Hf1 Hv1 Hs1).
  pose proof (interpolated_between _ s0 s1 Hidx H0 H1) as Hb.
  split; [reflexivity |].
  unfold ToInt16. rewrite wrap16_id; [exact Hb |].
  unfold int16 in *. lia.
Qed.

(** The first element of the resampled sequence is the first input
    sample. *)
Lemma resample_head (origSampleRate : Z) (samples : list Z) :
  Forall int16 samples ->
  1 <= origSampleRate < 2 ^ 31 ->
  Z.of_nat (length samples) < 2 ^ 31 ->
  (0 < length (resample origSampleRate samples))%nat ->
  resample origSampleRate samples !! 0%nat = samples !! 0%nat.
Proof.
  intros Hall Horig Hlen Hi.
  destruct (Z.eq_dec origSampleRate targetRate) as [-> | Hne].
  { unfold resample. rewrite Z.eqb_refl. reflexivity. }
  pose proof Hi as Hi'. rewrite length_resample in Hi'.
  destruct (Z.eqb_spec origSampleRate targetRate) as [? | _]; [contradiction |].
  destruct (resample_indices origSampleRate (length samples) 0 Horig Hlen Hi')
    as (Hidx & Hzero & j0 & j1 & Hq0 & Hf0 & Hv0 & Hf1 & Hv1 & Hj0 & Hj1).
  cbv zeta in Hidx, Hzero, Hq0, Hf0, Hv0, Hf1, Hv1.
  specialize (Hzero eq_refl).
  destruct (Math_floor_spec _ Hidx) as [_ Hfloor].
  assert (Hj00 : j0 = 0%nat).
  { rewrite Hzero, Hq0 in Hfloor.
    assert (H1 : (inject_Z (Z.of_nat j0) < inject_Z 1)%Q).
    { change (inject_Z 1) with 1%Q. lra. }
    rewrite <- Zlt_Qlt in H1. lia. }
  subst j0.
  destruct (lookup_lt_is_Some_2 samples 0 Hj0) as [s0 Hs0].
  assert (Hj1' : (j1 < length samples)%nat) by (destruct Hj1; lia).
  destruct (lookup_lt_is_Some_2 samples j1 Hj1') as [s1 Hs1].
  rewrite Forall_lookup in Hall.
  pose proof (Hall _ s0 Hs0) as H0. pose proof (Hall j1 s1 Hs1) as H1.
  rewrite (resample_lookup origSampleRate samples 0 Hne Hi), Hs0.
  unfold interpolate. cbv zeta.
  rewrite (sampleAt_inside samples _ 0 s0 Hf0 Hv0 Hs0).
  rewrite (sampleAt_inside samples _ j1 s1 Hf1 Hv1 Hs1).
  unfold ToInt16.
  rewrite (interpolated_at_sample _ s0 s1 Hidx H0 H1);
    [rewrite (wrap16_id s0 H0); reflexivity |].
  rewrite Hzero, Hq0. reflexivity.
Qed.

End ResamplerElements.

Module ResamplerProps.



(** X13.  Lines 78-93: resampling keeps the samples within the range of the
    input; in particular a constant input gives a constant output. *)
Theorem resample_range (origSampleRate : Z) (samples : list Z) (lo hi : Z) :
  1 <= origSampleRate < 2 ^ 31 ->
  Z.of_nat (length samples) < 2 ^ 31 ->
  Forall int16 samples ->
  Forall (fun s => lo <= s <= hi) samples ->
  Forall (fun y => lo <= y <= hi) (resample origSampleRate samples).
Proof.
  intros Horig Hlen Hall Hrange.
  destruct (Z.eq_dec origSampleRate targetRate) as [-> | Hne].
  - unfold resample. rewrite Z.eqb_refl. exact Hrange.
  - apply Forall_lookup. intros i y Hy.
    destruct (resample_element origSampleRate samples i Hall Horig Hne Hlen
                (lookup_lt_Some _ _ _ Hy))
      as (j0 & j1 & s0 & s1 & y' & Hs0 & Hs1 & _ & Hy' & Hb).
    rewrite Hy in Hy'. injection Hy' as <-.
    rewrite Forall_lookup in Hrange.
    pose proof (Hrange j0 s0 Hs0). pose proof (Hrange j1 s1 Hs1). lia.
Qed.

Lemma resample_range_witness :
  Forall (fun y => 7 <= y <= 7) (resample 44100 [7; 7; 7; 7]).
Proof.
  apply (resample_range 44100 [7; 7; 7; 7] 7 7).
  - lia.
  - simpl. lia.
  - repeat constructor; unfold int16; lia.
  - repeat constructor; lia.
Defined.

(** X14.  Lines 84-90 at index 0: the position is exactly 0, and the first
    output sample is the first input sample. *)
Theorem resample_first (origSampleRate : Z) (samples : list Z) :
  Forall int16 samples ->
  1 <= origSampleRate < 2 ^ 31 ->
  Z.of_nat (length samples) < 2 ^ 31 ->
  (0 < length (resample origSampleRate samples))%nat ->
  resample origSampleRate samples !! 0%nat = samples !! 0%nat.
Proof. apply resample_head. Qed.

Lemma resample_first_witness :
  resample 44100 [-5; 100; 200] !! 0%nat = [-5; 100; 200] !! 0%nat.
Proof.
  apply (resample_first 44100 [-5; 100; 200]).
  - repeat constructor; unfold int16; lia.
  - lia.
  - simpl. lia.
  - vm_compute. lia.
Defined.

End ResamplerProps.

(** ** The length of the resampled sequence *)

Section ResamplerLength.

(** A positive number lies in one binade. *)
Lemma binade (q : Q) (n : nat) :
  forall lo hi, hi - lo <= Z.of_nat n ->
  (pow2 lo <= q < pow2 hi)%Q ->
  exists B, lo < B <= hi /\ (pow2 (B - 1) <= q < pow2 B)%Q.
Proof.
  induction n as [| n IH]; intros lo hi Hn [Hlo Hhi].
  - pose proof (pow2_le hi lo ltac:(lia)). lra.
  - destruct (Qlt_le_dec q (pow2 (hi - 1))) as [Hlt | Hge].
    + destruct (IH lo (hi - 1) ltac:(lia) (conj Hlo Hlt)) as (B & HB & Hq).
      exists B. split; [lia | exact Hq].
    + assert (lo < hi).
      { destruct (Z_lt_le_dec lo hi) as [? | Hle]; [assumption |].
        pose proof (pow2_le hi lo Hle). lra. }
      exists hi. split; [lia |]. split; assumption.
Qed.

Lemma err_tight (B : Z) : -1022 <= B -> (err B == pow2 (B - 1) * pow2 (-50))%Q.
Proof.
  intros HB. unfold err. rewrite fexp64, <- pow2_add.
  replace (Z.max (B + 1 - 53) (-1074) + 1) with (B - 1 + -50) by lia.
  reflexivity.
Qed.

(** The quotient of two real Numbers, within a relative error of
    [2 ^ -48]. *)
Lemma div_float_relative (x y : float) (X : Q) :
  Freal x -> Freal y -> ~ (Fval y == 0)%Q ->
  (X * Fval y == Fval x)%Q ->
  (pow2 (-900) <= X < pow2 900)%Q ->
  Freal (x / y)%float
  /\ (- (X * pow2 (-48)) < Fval (x / y)%float - X < X * pow2 (-48))%Q.
Proof.
  intros Hx Hy Hy0 HX Hr.
  destruct (binade X (Z.to_nat 1800) (-900) 900 ltac:(lia) Hr) as (B & HB & Hq).
  pose proof (pow2_pos (B - 1)) as Hp.
  destruct (div_float x y X B Hx Hy Hy0 HX ltac:(lra) ltac:(lia))
    as (Hr' & He & _).
  rewrite (err_tight B ltac:(lia)) in He.
  change (pow2 (-50)) with (1 # 1125899906842624)%Q in He.
  change (pow2 (-48)) with (1 # 281474976710656)%Q.
  split; [exact Hr' |]. split; nra.
Qed.

(** The product of two real Numbers, within a relative error of
    [2 ^ -50]. *)
Lemma mul_float_relative (x y : float) :
  Freal x -> Freal y ->
  (pow2 (-900) <= Fval x * Fval y < pow2 900)%Q ->
  Freal (x * y)%float
  /\ (- (Fval x * Fval y * pow2 (-50))
      < Fval (x * y)%float - Fval x * Fval y
      < Fval x * Fval y * pow2 (-50))%Q.
Proof.
  intros Hx Hy Hr.
  destruct (binade _ (Z.to_nat 1800) (-900) 900 ltac:(lia) Hr) as (B & HB & Hq).
  pose proof (pow2_pos (B - 1)) as Hp.
  destruct (mul_float x y B Hx Hy ltac:(lra) ltac:(lia)) as (Hr' & He).
  rewrite (err_tight B ltac:(lia)) in He.
  change (pow2 (-50)) with (1 # 1125899906842624)%Q in He |- *.
  split; [exact Hr' |]. split; nra.
Qed.

(** The arithmetic of the length: the product computed is within half of
    [1 / O] of the exact quotient. *)
Lemma length_arith (O X L rho p : Q) :
  (1 <= O -> 1 <= L -> L < 2147483648 ->
   X * O == 48000 -> 0 < X ->
   - (X * (1 # 281474976710656)) < rho - X < X * (1 # 281474976710656) ->
   - (L * rho * (1 # 1125899906842624)) < p - L * rho
     < L * rho * (1 # 1125899906842624) ->
   - (1 # 2) < O * p - L * 48000 < 1 # 2)%Q.
Proof.
  intros HO HL HL2 HX HXpos Hrho Hp.
  set (V := (L * X)%Q).
  assert (HVO : (V * O == L * 48000)%Q) by (unfold V; rewrite <- HX; ring).
  assert (HV : (0 < V)%Q) by (unfold V; nra).
  assert (HW : (- (V * (1 # 281474976710656)) < L * rho - V
                < V * (1 # 281474976710656))%Q) by (unfold V; nra).
  assert (HpV : (- (V * (1 # 70368744177664)) < p - V
                 < V * (1 # 70368744177664))%Q) by nra.
  assert (HVOb : (V * O < 103079215104000)%Q) by lra.
  split; nra.
Qed.

(** Line 82 against the exact quotient [floor (len * 48000 / rate)]: the
    length computed is the exact one or one less, and the exact one
    whenever the quotient is not an integer. *)
Lemma newLen_exact (origSampleRate : Z) (len : nat) :
  1 <= origSampleRate < 2 ^ 31 ->
  Z.of_nat len < 2 ^ 31 ->
  let n := Z.of_nat (ArrayLength (newLen origSampleRate len)) in
  let E := exact_length origSampleRate len in
  (n = E \/ n = E - 1)
  /\ ((Z.of_nat len * targetRate) mod origSampleRate <> 0 -> n = E).
Proof.
  intros Horig Hlen. cbv zeta.
  destruct (Nat.eq_dec len 0) as [-> | Hne].
  { rewrite newLen_empty. unfold exact_length. simpl.
    split; [left; reflexivity | intros _; reflexivity]. }
  unfold ArrayLength, newLen, exact_length.
  (* the ratio *)
  destruct (Number_exact targetRate ltac:(vm_compute; reflexivity)) as [Htr Htv].
  change (inject_Z targetRate) with 48000%Q in Htv.
  destruct (Number_exact origSampleRate ltac:(lia)) as [Hor Hov].
  assert (HO : (1 <= inject_Z origSampleRate < 2147483648)%Q).
  { change 1%Q with (inject_Z 1). change 2147483648%Q with (inject_Z (2 ^ 31)).
    rewrite <- Zle_Qle, <- Zlt_Qlt. lia. }
  set (O := inject_Z origSampleRate) in *.
  set (X := (48000 * / O)%Q).
  assert (HX : (X * O == 48000)%Q) by (unfold X; field; lra).
  assert (HXb : (0 < X <= 48000 /\ 48000 < X * 2147483648)%Q).
  { assert (Hinv : (0 < / O)%Q) by (apply Qinv_lt_0_compat; lra).
    assert (Hpos : (0 < X)%Q) by (unfold X; nra).
    split; [split; [exact Hpos | nra] | nra]. }
  destruct (div_float_relative (Number targetRate) (Number origSampleRate) X
              Htr Hor) as (Hrr & Hr);
    [rewrite Hov; lra | rewrite Hov, Htv; exact HX | |].
  { split.
    - apply (Qle_trans _ (pow2 (-16))); [apply pow2_le; lia |].
      change (pow2 (-16)) with (1 # 65536)%Q. lra.
    - apply (Qlt_le_trans _ (pow2 16)); [| apply pow2_le; lia].
      change (pow2 16) with 65536%Q. lra. }
  change (pow2 (-48)) with (1 # 281474976710656)%Q in Hr.
  set (ratio := (Number targetRate / Number origSampleRate)%float) in *.
  (* the product *)
  destruct (Number_exact (Z.of_nat len) ltac:(lia)) as [Hlr Hlv].
  assert (HL : (1 <= inject_Z (Z.of_nat len) < 2147483648)%Q).
  { change 1%Q with (inject_Z 1). change 2147483648%Q with (inject_Z (2 ^ 31)).
    rewrite <- Zle_Qle, <- Zlt_Qlt. lia. }
  set (L := inject_Z (Z.of_nat len)) in *.
  assert (Hrho : ((1 # 131072) < Fval ratio < 65536)%Q) by nra.
  destruct (mul_float_relative (Number (Z.of_nat len)) ratio Hlr Hrr)
    as (Hpr & Hp).
  { rewrite Hlv. split.
    - apply (Qle_trans _ (pow2 (-17))); [apply pow2_le; lia |].
      change (pow2 (-17)) with (1 # 131072)%Q. nra.
    - apply (Qlt_le_trans _ (pow2 47)); [| apply pow2_le; lia].
      change (pow2 47) with 140737488355328%Q. nra. }
  rewrite Hlv in Hp.
  change (pow2 (-50)) with (1 # 1125899906842624)%Q in Hp.
  set (P := (Number (Z.of_nat len) * ratio)%float) in *.
  pose proof (length_arith O X L (Fval ratio) (Fval P) ltac:(lra) ltac:(lra)
                ltac:(lra) HX ltac:(lra) Hr Hp) as Hclose.
  (* the whole part *)
  destruct (Math_floor_spec P Hpr) as [_ Hfloor].
  rewrite (Math_floor_integer P Hpr) in Hfloor.
  set (N := IntegerValue (Math_floor P)) in *.
  set (K := Z.of_nat len * targetRate).
  pose proof (Z.div_mod K origSampleRate ltac:(lia)) as Hdm.
  pose proof (Z.mod_pos_bound K origSampleRate ltac:(lia)) as Hmod.
  set (E := K / origSampleRate) in *. set (f := K mod origSampleRate) in *.
  assert (HK : (L * 48000 == O * inject_Z E + inject_Z f)%Q).
  { unfold L, O. change 48000%Q with (inject_Z targetRate).
    rewrite <- !inject_Z_mult, <- inject_Z_plus. fold K. rewrite Hdm.
    reflexivity. }
  assert (Hf : (0 <= inject_Z f <= O - 1)%Q).
  { split.
    - change 0%Q with (inject_Z 0). rewrite <- Zle_Qle. lia.
    - unfold O, Qminus. change 1%Q with (inject_Z 1).
      rewrite <- inject_Z_opp, <- inject_Z_plus, <- Zle_Qle. lia. }
  set (iN := inject_Z N) in *. set (iE := inject_Z E) in *.
  set (p := Fval P) in *.
  assert (Hup : (iN < iE + 1)%Q).
  { assert (H : (O * iN < O * (iE + 1))%Q) by nra.
    destruct (Qlt_le_dec iN (iE + 1)) as [? | Hge]; [assumption |]. nra. }
  assert (Hlow : (iE - 2 < iN)%Q).
  { assert (H : (O * (iE - 1) < O * (iN + 1))%Q) by nra.
    destruct (Qlt_le_dec (iE - 2) iN) as [? | Hge]; [assumption |]. nra. }
  assert (HNE : E - 1 <= N <= E).
  { assert (H1 : (inject_Z N < inject_Z (E + 1))%Q).
    { rewrite inject_Z_plus. change (inject_Z 1) with 1%Q. exact Hup. }
    assert (H2 : (inject_Z (E - 2) < inject_Z N)%Q).
    { unfold Z.sub. rewrite inject_Z_plus, inject_Z_opp.
      change (inject_Z 2) with 2%Q. exact Hlow. }
    rewrite <- Zlt_Qlt in H1, H2. lia. }
  assert (HE0 : 0 <= E) by (unfold E, K; apply Z.div_pos; [unfold targetRate |]; lia).
  split.
  - destruct (Z.eq_dec N E) as [-> | HneN]; [left; lia |].
    assert (HN1 : N = E - 1) by lia.
    destruct (Z.eq_dec E 0) as [HE | HE]; [left; lia | right; lia].
  - intros Hfne.
    assert (Hf1 : (1 <= inject_Z f)%Q).
    { change 1%Q with (inject_Z 1). rewrite <- Zle_Qle. lia. }
    assert (Hlow' : (iE - 1 < iN)%Q).
    { assert (H : (O * iE < O * (iN + 1))%Q) by nra.
      destruct (Qlt_le_dec (iE - 1) iN) as [? | Hge]; [assumption |]. nra. }
    assert (H2 : (inject_Z (E - 1) < inject_Z N)%Q).
    { unfold Z.sub. rewrite inject_Z_plus, inject_Z_opp.
      change (inject_Z 1) with 1%Q. exact Hlow'. }
    rewrite <- Zlt_Qlt in H2. lia.
Qed.

End ResamplerLength.

Module ResamplerLengthProps.

(** X15.  Lines 80-83, for a source rate and an input length below [2 ^ 31]:
    the output has [floor (len * 48000 / rate)] samples or one less, and
    it can be one less only when [len * 48000 / rate] is a whole number
    (the double-precision product may then fall just below it). *)
Theorem resample_length_bounds (origSampleRate : Z) (samples : list Z) :
  1 <= origSampleRate < 2 ^ 31 ->
  Z.of_nat (length samples) < 2 ^ 31 ->
  let n := Z.of_nat (length (resample origSampleRate samples)) in
  let E := exact_length origSampleRate (length samples) in
  (n = E \/ n = E - 1)
  /\ ((Z.of_nat (length samples) * targetRate) mod origSampleRate <> 0 -> n = E).
Proof.
  intros Horig Hlen. cbv zeta. rewrite length_resample.
  destruct (Z.eqb_spec origSampleRate targetRate) as [-> | Hne].
  - unfold exact_length. rewrite Z.div_mul by discriminate.
    split; [left; reflexivity | intros _; reflexivity].
  - exact (newLen_exact origSampleRate (length samples) Horig Hlen).
Qed.

Lemma resample_length_bounds_witness :
  (Z.of_nat (length (resample 44100 [0; 100; 200]))
   = exact_length 44100 (length [0; 100; 200])
   \/ Z.of_nat (length (resample 44100 [0; 100; 200]))
      = exact_length 44100 (length [0; 100; 200]) - 1)
  /\ ((Z.of_nat (length [0; 100; 200]) * targetRate) mod 44100 <> 0
      -> Z.of_nat (length (resample 44100 [0; 100; 200]))
         = exact_length 44100 (length [0; 100; 200])).
Proof.
  apply (resample_length_bounds 44100 [0; 100; 200]).
  - lia.
  - simpl. lia.
Defined.

End ResamplerLengthProps.

(** ** Start-up and the control channel *)

Module StartupProps.

Import Watcher.
Import Args.

(** X20.  Lines 20-35: the program goes on exactly when the input path is
    truthy, and then the model name is truthy too; an output option given
    at most once yields a truthy output path, its own value or
    [combined.wav]; a repeated option yields its last value as it is, with
    no default, even when that value is empty. *)
Theorem parse_options (inputRaw outputRaw modelRaw : Value) :
  (is_Some (parse inputRaw outputRaw modelRaw)
   <-> truthy (inputPath inputRaw) = true)
  /\ (forall o, parse inputRaw outputRaw modelRaw = Some o ->
        input o = inputPath inputRaw
        /\ truthy (model_name o) = true
        /\ ((forall items, outputRaw <> VArray items) ->
            truthy (output o) = true
            /\ output o = (if truthy outputRaw then outputRaw
                           else VString "combined.wav")))
  /\ (forall items v,
        inputPath (VArray (items ++ [v])) = v
        /\ outputPath (VArray (items ++ [v])) = v).
Proof.
  split; [| split].
  - unfold parse. destruct (truthy (inputPath inputRaw)); simpl.
    + split; [reflexivity | intros _; eexists; reflexivity].
    + split; [intros [o Ho]; discriminate | discriminate].
  - intros o Ho. unfold parse in Ho.
    destruct (truthy (inputPath inputRaw)); simpl in Ho; [| discriminate].
    injection Ho as <-. simpl.
    split; [reflexivity |]. split.
    + unfold model, or_else. destruct (truthy modelRaw) eqn:E;
        [exact E | reflexivity].
    + intros Hna. unfold outputPath, or_else.
      destruct outputRaw as [| b | s | items].
      * split; reflexivity.
      * destruct b; split; reflexivity.
      * simpl. destruct (bool_decide (s = ""%string)) eqn:E; simpl;
          [split; reflexivity |].
        rewrite E. split; reflexivity.
      * contradiction (Hna items eq_refl).
  - intros items v. unfold inputPath, outputPath, last_item.
    rewrite last_snoc. split; reflexivity.
Qed.

Import Session.

(** X21.  Lines 116-121: the program goes on with a token exactly when the reply
    is an object whose [client_secret] is an object with a truthy
    [value], and the token is that value; it raises only on the reply
    [null]; on every other reply it exits with status 1. *)
Theorem token_obtained (tokData : JSON) :
  (forall v,
     token tokData = Continue v
     <-> exists fields secret,
           tokData = JObject fields
           /\ fields !! "client_secret"%string = Some (JObject secret)
           /\ secret !! "value"%string = Some v
           /\ Session.truthy v = true)
  /\ (token tokData = Raise <-> tokData = JNull)
  /\ (token tokData = Raise \/ token tokData = Exit 1
      \/ exists v, token tokData = Continue v).
Proof.
  unfold token, secret_value.
  destruct tokData as [| b | x | s | items | fields]; simpl.
  1-5: (split; [intros v; split; [discriminate | intros (f & sec & H & _); discriminate]
              | split; [split; congruence || discriminate | auto]]).
  destruct (fields !! "client_secret"%string) as [sec |] eqn:Es; simpl.
  2: { split; [intros v; split; [discriminate | intros (f & s & [= <-] & H & _); congruence]
              | split; [split; discriminate | auto]]. }
  destruct sec as [| b | x | s | items | secret]; simpl.
  1-5: (split; [intros v; split; [discriminate | intros (f & sec & [= <-] & H & _); congruence]
              | split; [split; discriminate | auto]]).
  destruct (secret !! "value"%string) as [v0 |] eqn:Ev.
  2: { split; [intros v; split; [discriminate | intros (f & s & [= <-] & H1 & H2 & _); congruence]
              | split; [split; discriminate | auto]]. }
  destruct (Session.truthy v0) eqn:Et.
  - split; [| split; [split; discriminate | right; right; eexists; reflexivity]].
    intros v. split.
    + intros [= <-]. exists fields, secret. auto.
    + intros (f & s & [= <-] & H1 & H2 & _).
      rewrite Es in H1. injection H1 as <-. rewrite Ev in H2.
      injection H2 as <-. reflexivity.
  - split; [| split; [split; discriminate | auto]].
    intros v. split; [discriminate |].
    intros (f & s & [= <-] & H1 & H2 & H3).
    rewrite Es in H1. injection H1 as <-. rewrite Ev in H2.
    injection H2 as <-. congruence.
Qed.

(** X22.  Lines 139-142 on any parsed message: the handler raises exactly on the
    message [null]; it never resets the flag; and it sets the flag only
    on a message whose [type] is ["response.done"]. *)
Theorem handler_never_resets (done : bool) (m : JSON) :
  (onmessage done m = None <-> m = JNull)
  /\ (forall d, onmessage done m = Some d ->
        (done = true -> d = true)
        /\ (d = true -> done = true \/ completes m = true)).
Proof.
  unfold onmessage, completes.
  destruct m as [| b | x | s | items | fields]; simpl.
  1: { split; [split; reflexivity || discriminate | discriminate]. }
  1-4: (split; [split; discriminate |];
        intros d [= <-]; split; [auto | intros ->; left; reflexivity]).
  split; [split; discriminate |].
  intros d [= <-].
  destruct (is_response_done (fields !! "type"%string)), done; auto.
Qed.

End StartupProps.
